(** * Scheduler priority queues of scrapy: a shallow embedding

    The development follows [scrapy/pqueues.py] (slot resolution, the
    per-slot priority queue and the round-robin queue over slots) and
    [scrapy/core/queues.py] (the unique-path wrapper of the disk queues).

    Python objects that the code mutates and shares (request mappings,
    [Request] objects and their [meta] dictionaries) live in an explicit
    heap; every operation threads the state it touches and reports either a
    returned value or the exception it raised, keeping the state reached at
    the time of the raise.  Dictionaries whose iteration order the code
    relies on ([RoundRobinQueue.pqueues], [PriorityQueue.queues], the
    snapshot returned by [close]) are insertion-ordered association lists,
    as the dictionaries of Python 3.7 are. *)

From Stdlib Require Import ZArith String Ascii List Permutation Sorted Lia.
From Stdlib Require Import OrdersEx.
From stdpp Require Import base option list gmap strings pretty.

(** ** Python values, objects and the heap *)

Definition loc := positive.

(** The values the module handles: [None], integers, strings and
    references to heap objects.  Strings are sequences of code points
    below 256. *)
Inductive value :=
| VNone
| VInt (n : Z)
| VStr (s : string)
| VRef (l : loc).

#[global] Instance value_eq_dec : EqDecision value.
Proof. solve_decision. Defined.

(** [scrapy.http.Request], as far as this module reads it: the attributes
    [url] (always a string), [meta] (always a dictionary, created on first
    access by the property) and [priority]. *)
Record Request := mkRequest {
  req_url : string;
  req_meta : loc;
  req_priority : Z
}.

Inductive object :=
| ODict (items : gmap string value)   (* a plain [dict] *)
| ORequest (r : Request)              (* an instance of [Request] *)
| OOther (cls : string).              (* an instance of any other class *)

Abbreviation heap := (gmap loc object).

Inductive exn := ValueError | TypeError | AttributeError | KeyError.

#[global] Instance exn_eq_dec : EqDecision exn.
Proof. solve_decision. Defined.

Inductive outcome (A : Type) :=
| Return (a : A)
| Raise (e : exn).
Arguments Return {A} a.
Arguments Raise {A} e.

(** ** A state and exception monad

    [M S A] is a computation over a state [S]: it ends with a returned
    value or a raised exception, and in both cases with the state it
    reached (mutations done before a raise stay done). *)
Definition M (S A : Type) : Type := S -> outcome A * S.

Definition ret {S A} (a : A) : M S A := fun s => (Return a, s).
Definition raise {S A} (e : exn) : M S A := fun s => (Raise e, s).
Definition bind {S A B} (m : M S A) (k : A -> M S B) : M S B :=
  fun s => match m s with
           | (Return a, s') => k a s'
           | (Raise e, s') => (Raise e, s')
           end.
Definition get {S} : M S S := fun s => (Return s, s).
Definition put {S} (s : S) : M S unit := fun _ => (Return tt, s).
Definition modify {S} (f : S -> S) : M S unit := fun s => (Return tt, f s).
Definition lift_outcome {S A} (o : outcome A) : M S A := fun s => (o, s).

Declare Scope py_scope.
Delimit Scope py_scope with py.
Notation "'let*' x ':=' m 'in' k" := (bind m (fun x => k))
  (at level 10, x name, m at level 100, k at level 200) : py_scope.
Notation "'let*' ' p ':=' m 'in' k" := (bind m (fun x => match x with p => k end))
  (at level 10, p pattern, m at level 100, k at level 200) : py_scope.
Notation "m ';;' k" := (bind m (fun _ => k))
  (at level 100, k at level 200, right associativity) : py_scope.

(** Run a computation over a component of a larger state. *)
Definition zoom {S T A} (proj : T -> S) (upd : S -> T -> T) (m : M S A) : M T A :=
  fun t => let '(o, s') := m (proj t) in (o, upd s' t).

(** ** Insertion-ordered dictionaries *)

Section ordered_dict.
Context {K V : Type} `{EqDecision K}.

Fixpoint dict_get (d : list (K * V)) (k : K) : option V :=
  match d with
  | [] => None
  | (k', v) :: d' => if decide (k' = k) then Some v else dict_get d' k
  end.

(** [d[k] = v]: an existing key keeps its place, a new one goes last. *)
Fixpoint dict_set (d : list (K * V)) (k : K) (v : V) : list (K * V) :=
  match d with
  | [] => [(k, v)]
  | (k', v') :: d' =>
      if decide (k' = k) then (k', v) :: d' else (k', v') :: dict_set d' k v
  end.

(** [del d[k]]. *)
Fixpoint dict_del (d : list (K * V)) (k : K) : list (K * V) :=
  match d with
  | [] => []
  | (k', v') :: d' =>
      if decide (k' = k) then d' else (k', v') :: dict_del d' k
  end.

End ordered_dict.

(** ** What the module takes from its Python environment

    [urlparse(url).hostname] and [hashlib.md5(..).hexdigest()] belong to
    the standard library, and [str] of an arbitrary object is its [repr];
    the development is parametric in them.  [urlparse] raises
    [ValueError] on some strings (an opening bracket without the closing
    one in the host, as in "http://[::1"): [invalid_url] says on which. *)
Record platform := mkPlatform {
  invalid_url : string -> bool;         (* [urlparse(s)] raises [ValueError] *)
  hostname : string -> option string;   (* [urlparse(s).hostname] of a [str] *)
  md5_hexdigest : string -> string;     (* [md5(s.encode('utf8')).hexdigest()] *)
  repr : heap -> loc -> string          (* [str(o)] of a heap object *)
}.

(** [Downloader.DOWNLOAD_SLOT], the key of the slot override in [meta]. *)
Definition SCHEDULER_SLOT_META_KEY : string := "download_slot".

(** Python truth value. *)
Definition truthy (h : heap) (v : value) : bool :=
  match v with
  | VNone => false
  | VInt n => negb (n =? 0)%Z
  | VStr s => negb (String.eqb s "")
  | VRef l =>
      match h !! l with
      | Some (ODict d) => negb (bool_decide (d = ∅))
      | _ => true
      end
  end.

(** [dict()]: a new empty dictionary at an unused location. *)
Definition new_dict : M heap value :=
  fun h => let l := fresh (dom h) in (Return (VRef l), <[l := ODict ∅]> h).

(** [getattr(request, key, default)] on a [Request]. *)
Definition getattr (r : Request) (key : string) (default : value) : value :=
  if String.eqb key "meta" then VRef (req_meta r)
  else if String.eqb key "url" then VStr (req_url r)
  else if String.eqb key "priority" then VInt (req_priority r)
  else default.

Definition _get_from_request (request : value) (key : string) (default : value)
  : M heap value :=
  fun h =>
    match request with
    | VRef l =>
        match h !! l with
        | Some (ODict d) =>                       (* [request.get(key, default)] *)
            (Return (match d !! key with Some v => v | None => default end), h)
        | Some (ORequest r) => (Return (getattr r key default), h)
        | _ => (Raise ValueError, h)
        end
    | _ => (Raise ValueError, h)
    end.

(** [meta.get(key, None)]: only a dictionary has the method. *)
Definition dict_get_method (meta : value) (key : string) : M heap value :=
  fun h =>
    match meta with
    | VRef l =>
        match h !! l with
        | Some (ODict d) =>
            (Return (match d !! key with Some v => v | None => VNone end), h)
        | _ => (Raise AttributeError, h)
        end
    | _ => (Raise AttributeError, h)
    end.

(** [meta[key] = v] on a dictionary. *)
Definition dict_setitem (meta : value) (key : string) (v : value) : M heap unit :=
  fun h =>
    match meta with
    | VRef l =>
        match h !! l with
        | Some (ODict d) => (Return tt, <[l := ODict (<[key := v]> d)]> h)
        | _ => (Raise TypeError, h)
        end
    | _ => (Raise TypeError, h)
    end.

Section slot_resolver.
Variable P : platform.

(** [urlparse(url).hostname] for any argument.  A [str] is parsed, and
    [urlparse] raises [ValueError] when it is invalid; any other
    argument is decoded as bytes, which yields the empty URL for a false
    value and fails for a true one that has no [decode]. *)
Definition urlparse_hostname (url : value) : M heap (option string) :=
  fun h =>
    match url with
    | VStr s =>
        if invalid_url P s then (Raise ValueError, h) else (Return (hostname P s), h)
    | _ => if truthy h url then (Raise AttributeError, h) else (Return None, h)
    end.

(** [str(slot)]. *)
Definition py_str (slot : value) : M heap string :=
  fun h =>
    match slot with
    | VStr s => (Return s, h)
    | VInt n => (Return (pretty n), h)
    | VNone => (Return "None", h)
    | VRef l => (Return (repr P h l), h)
    end.

Definition scheduler_slot (request : value) : M heap string :=
  (let* dflt := new_dict in
   let* meta := _get_from_request request "meta" dflt in
   let* slot := dict_get_method meta SCHEDULER_SLOT_META_KEY in
   let* slot :=
     match slot with
     | VNone =>
         let* url := _get_from_request request "url" VNone in
         let* host := urlparse_hostname url in
         (* [urlparse(url).hostname or ''] *)
         let slot := VStr (default "" host) in
         dict_setitem meta SCHEDULER_SLOT_META_KEY slot ;;
         ret slot
     | _ => ret slot
     end in
   py_str slot)%py.

(** [c.isalnum()] for a code point below 256. *)
Definition isalnum (c : ascii) : bool :=
  let n := nat_of_ascii c in
  ((48 <=? n) && (n <=? 57)) || ((65 <=? n) && (n <=? 90))
  || ((97 <=? n) && (n <=? 122))
  || (n =? 170) || (n =? 178) || (n =? 179) || (n =? 181) || (n =? 185)
  || (n =? 186) || ((188 <=? n) && (n <=? 190))
  || ((192 <=? n) && (n <=? 214)) || ((216 <=? n) && (n <=? 246))
  || (248 <=? n).

(** [c in '-._'] *)
Definition in_dash_dot_underscore (c : ascii) : bool :=
  Ascii.eqb c "-" || Ascii.eqb c "." || Ascii.eqb c "_".

Fixpoint pathable (slot : string) : string :=
  match slot with
  | EmptyString => EmptyString
  | String c s =>
      String (if isalnum c || in_dash_dot_underscore c then c else "_"%char)
             (pathable s)
  end.

Definition _slot_as_path (slot : string) : string :=
  let pathable_slot := pathable slot in
  let unique_slot := md5_hexdigest P slot in
  pathable_slot +:+ "-" +:+ unique_slot.
End slot_resolver.

(** ** Priorities and the queues behind a priority level *)

(** The priority key under which [RoundRobinQueue.push] stores an entry:
    the tuple [(priority, _slot_as_path(slot))]. *)
Definition prio := (Z * string)%type.

(** Python's [<] on strings: lexicographic on the code points. *)
Definition str_ltb (a b : string) : bool :=
  match String_as_OT.compare a b with Lt => true | _ => false end.

(** Python's [<] on such tuples. *)
Definition prio_ltb (a b : prio) : bool :=
  (a.1 <? b.1)%Z || ((a.1 =? b.1)%Z && str_ltb a.2 b.2).

(** Python's [min]: the first of the smallest elements. *)
Definition min_step (m x : prio) : prio := if prio_ltb x m then x else m.

Definition py_min (l : list prio) : option prio :=
  match l with
  | [] => None
  | p :: l' => Some (foldl min_step p l')
  end.

(** Modelled from the spec: the container that the queue factory returns
    for a priority level (the memory and disk queues of [scrapy.squeues]
    and [queuelib], none of them in this module).  It is "push/pop-capable"
    with a FIFO or LIFO discipline "chosen once per deployment"; the
    model keeps its contents, oldest entry first.  [qfactory p] is the
    contents of the container that the factory hands out for level [p]:
    empty for a memory queue, what the file of [p] holds for a disk
    queue.  A push into a container may fail (the request cannot be
    serialized, the file cannot be written): [push_error p q obj] is the
    exception that the container of level [p] raises when it holds [q]
    and [obj] is pushed, [None] when it stores [obj]. *)
Record backend := mkBackend {
  lifo : bool;
  qfactory : prio -> list value;
  push_error : prio -> list value -> value -> option exn
}.

(** [q.push(obj)] on the container of [level] that holds [q]: the object
    goes in last, unless the container raises. *)
Definition q_push (B : backend) (level : prio) (q : list value) (obj : value)
  : outcome unit * list value :=
  match push_error B level q obj with
  | Some e => (Raise e, q)
  | None => (Return tt, q ++ [obj])
  end.

(** [q.pop()]: [None] on an empty container. *)
Definition q_pop (is_lifo : bool) (q : list value) : value * list value :=
  if is_lifo then
    match last q with
    | Some m => (m, removelast q)
    | None => (VNone, q)
    end
  else
    match q with
    | m :: q' => (m, q')
    | [] => (VNone, q)
    end.

(** ** [queuelib.PriorityQueue]

    The base class of [PriorityAsTupleQueue], from the library queuelib
    (version 1.5, [pqueue.py]): one container per priority level,
    [curprio] the smallest level that holds entries; in the words of its
    docstring, "lower numbers are higher priorities".  The subclass keeps
    these methods and replaces the constructor only, where it sets
    [curprio] to [min(startprios)] as the base class does.

<<
    def push(self, obj, priority=0):
        if priority not in self.queues:
            self.queues[priority] = self.qfactory(priority)
        q = self.queues[priority]
        q.push(obj) # this may fail (eg. serialization error)
        if self.curprio is None or priority < self.curprio:
            self.curprio = priority

    def pop(self):
        if self.curprio is None:
            return
        q = self.queues[self.curprio]
        m = q.pop()
        if len(q) == 0:
            del self.queues[self.curprio]
            q.close()
            prios = [p for p, q in self.queues.items() if len(q) > 0]
            self.curprio = min(prios) if prios else None
        return m

    def close(self):
        active = []
        for p, q in self.queues.items():
            if len(q):
                active.append(p)
            q.close()
        return active

    def __len__(self):
        return sum(len(x) for x in self.queues.values()) if self.queues else 0
>>
    [q.push] may raise, and then [push] raises after it has entered a
    new container into [queues], with [curprio] as it was.  Whether it
    raises is taken to depend on the level, on what the container holds
    and on the object; [q.pop], [q.close] and the factory are taken to
    return. *)
Module PriorityQueue.
Record t := mk {
  queues : list (prio * list value);
  curprio : option prio
}.

Section methods.
Variable B : backend.

Definition push (obj : value) (priority : prio) : M t unit :=
  fun self =>
    let curprio' :=
      match curprio self with
      | None => Some priority
      | Some c => if prio_ltb priority c then Some priority else Some c
      end in
    let queues' :=
      match dict_get (queues self) priority with
      | None => dict_set (queues self) priority (qfactory B priority)
      | Some _ => queues self
      end in
    match dict_get queues' priority with
    | Some q =>
        match q_push B priority q obj with
        | (Return _, q') => (Return tt, mk (dict_set queues' priority q') curprio')
        | (Raise e, _) => (Raise e, mk queues' (curprio self))
        end
    | None => (Raise KeyError, mk queues' (curprio self))
    end.

Definition pop : M t value :=
  fun self =>
    match curprio self with
    | None => (Return VNone, self)
    | Some c =>
        match dict_get (queues self) c with
        | None => (Raise KeyError, self)
        | Some q =>
            let '(m, q') := q_pop (lifo B) q in
            if (length q' =? 0)%nat then
              let queues' := dict_del (queues self) c in
              let prios :=
                (filter (fun pq => (0 <? length pq.2)%nat = true) queues').*1 in
              (Return m, mk queues' (py_min prios))
            else
              (Return m, mk (dict_set (queues self) c q') (curprio self))
        end
    end.

(** The levels that still hold entries, in the order of [queues]. *)
Definition active (self : t) : list prio :=
  (filter (fun pq => (0 <? length pq.2)%nat = true) (queues self)).*1.

(** [close()] closes every container and returns the list [active]. *)
Definition close : M t (list prio) :=
  fun self => (Return (active self), self).

Definition __len__ (self : t) : nat :=
  list_sum (map (fun pq => length pq.2) (queues self)).
End methods.
End PriorityQueue.

(** ** Snapshot data

    What [close] returns and what the constructors receive as [startprios]
    after the scheduler has written it to and read it from a JSON file:
    immutable data. *)
#[local] Unset Elimination Schemes.
Inductive data :=
| DNone
| DBool (b : bool)
| DInt (n : Z)
| DStr (s : string)
| DList (l : list data)
| DTuple (l : list data)
| DDict (items : list (string * data)).
#[local] Set Elimination Schemes.

Definition data_truthy (d : data) : bool :=
  match d with
  | DNone => false
  | DBool b => b
  | DInt n => negb (n =? 0)%Z
  | DStr s => negb (String.eqb s "")
  | DList l | DTuple l => negb (length l =? 0)%nat
  | DDict items => negb (length items =? 0)%nat
  end.

(** [isinstance(d, dict)] *)
Definition is_dict (d : data) : bool :=
  match d with DDict _ => true | _ => false end.

Definition chars (s : string) : list data :=
  (fun c => DStr (String c EmptyString)) <$> list_ascii_of_string s.

(** The elements that iterating over [d] yields ([for x in d], [tuple(d)]);
    [None] when [d] is not iterable. *)
Definition py_iter (d : data) : option (list data) :=
  match d with
  | DList l | DTuple l => Some l
  | DStr s => Some (chars s)
  | DDict items => Some (DStr <$> items.*1)
  | DNone | DBool _ | DInt _ => None
  end.

Definition prio_data (p : prio) : data := DTuple [DInt p.1; DStr p.2].

(** A tuple as a priority key.  [push] only ever builds keys [(int, str)],
    and [prio] has no other; a tuple of another shape, which Python would
    take as a key all the same, is not covered by the model and is
    rejected here. *)
Definition as_prio (tuple : list data) : option prio :=
  match tuple with
  | [DInt n; DStr s] => Some (n, s)
  | _ => None
  end.

(** [[tuple(x) for x in startprios]] *)
Definition tuples (startprios : data) : outcome (list prio) :=
  match py_iter startprios with
  | None => Raise TypeError
  | Some xs =>
      match mapM (fun x => py_iter x ≫= as_prio) xs with
      | Some ps => Return ps
      | None => Raise TypeError
      end
  end.

Module PriorityAsTupleQueue.
Section methods.
Variable B : backend.

Definition __init__ (startprios : data) : M PriorityQueue.t unit :=
  fun _ =>
    let self := PriorityQueue.mk [] None in
    match tuples startprios with
    | Raise e => (Raise e, self)
    | Return startprios =>
        let queues :=
          foldl (fun qs p => dict_set qs p (qfactory B p)) [] startprios in
        (Return tt, PriorityQueue.mk queues (py_min startprios))
    end.

(** The object a constructor call builds, or the exception it raises. *)
Definition new (startprios : data) : outcome PriorityQueue.t :=
  match __init__ startprios (PriorityQueue.mk [] None) with
  | (Return _, self) => Return self
  | (Raise e, _) => Raise e
  end.
End methods.
End PriorityAsTupleQueue.

(** ** [RoundRobinQueue] *)
Module RoundRobinQueue.
Record t := mk {
  _slots : list string;                          (* the rotation, head first *)
  pqueues : list (string * PriorityQueue.t)      (* slot -> priority queue *)
}.

Definition append_slot (slot : string) (self : t) : t :=
  mk (_slots self ++ [slot]) (pqueues self).
Definition set_pqueue (slot : string) (q : PriorityQueue.t) (self : t) : t :=
  mk (_slots self) (dict_set (pqueues self) slot q).
Definition del_pqueue (slot : string) (self : t) : t :=
  mk (_slots self) (dict_del (pqueues self) slot).

(** [self.pqueues[slot].method(..)]: the queue object is looked up
    ([KeyError] when absent) and mutated in place. *)
Definition on_pqueue {A} (slot : string) (m : M PriorityQueue.t A) : M t A :=
  fun self =>
    match dict_get (pqueues self) slot with
    | None => (Raise KeyError, self)
    | Some q => let '(o, q') := m q in (o, set_pqueue slot q' self)
    end.

Section methods.
Variable P : platform.
Variable B : backend.

(** The loop of the constructor over [startprios.items()]. *)
Fixpoint init_loop (items : list (string * data)) : M t unit :=
  match items with
  | [] => ret tt
  | (slot, prios) :: items' =>
      (modify (append_slot slot) ;;
       let* q := lift_outcome (PriorityAsTupleQueue.new B prios) in
       modify (set_pqueue slot q) ;;
       init_loop items')%py
  end.

Definition __init__ (startprios : data) : M t unit :=
  (put (mk [] []) ;;
   if negb (data_truthy startprios) then ret tt
   else if negb (is_dict startprios) then raise ValueError
   else match startprios with
        | DDict items => init_loop items
        | _ => ret tt
        end)%py.

(** The object a constructor call builds, or the exception it raises. *)
Definition new (startprios : data) : outcome t :=
  match __init__ startprios (mk [] []) with
  | (Return _, self) => Return self
  | (Raise e, _) => Raise e
  end.

Definition push (request : value) (priority : Z) : M (heap * t) unit :=
  (let* slot := zoom fst (fun h w => (h, w.2)) (scheduler_slot P request) in
   zoom snd (fun self w => (w.1, self))
     (let* self := get in
      match dict_get (pqueues self) slot with
      | None =>
          let* q := lift_outcome (PriorityAsTupleQueue.new B (DTuple [])) in
          modify (set_pqueue slot q) ;;
          modify (append_slot slot)
      | Some _ => ret tt
      end ;;
      on_pqueue slot
        (PriorityQueue.push B request (priority, _slot_as_path P slot))))%py.

Definition pop : M t value :=
  (let* self := get in
   match _slots self with
   | [] => ret VNone
   | slot :: rest =>
       put (mk rest (pqueues self)) ;;            (* popleft *)
       let* request := on_pqueue slot (PriorityQueue.pop B) in
       let* self := get in
       match dict_get (pqueues self) slot with
       | None => raise KeyError
       | Some queue =>
           if (0 <? PriorityQueue.__len__ queue)%nat
           then modify (append_slot slot)
           else modify (del_pqueue slot)
       end ;;
       ret request
   end)%py.

(** The loop of [close] over [self.pqueues.items()]. *)
Fixpoint close_loop (items : list (string * PriorityQueue.t))
    (startprios : list (string * data)) : outcome (list (string * data)) :=
  match items with
  | [] => Return startprios
  | (slot, queue) :: items' =>
      match PriorityQueue.close queue with
      | (Return prios, _) =>
          close_loop items' (dict_set startprios slot (DList (prio_data <$> prios)))
      | (Raise e, _) => Raise e
      end
  end.

Definition close : M t data :=
  fun self =>
    match close_loop (pqueues self) [] with
    | Return startprios => (Return (DDict startprios), mk [] [])
    | Raise e => (Raise e, self)
    end.

Definition __len__ (self : t) : nat :=
  list_sum (map (fun sq => PriorityQueue.__len__ sq.2) (pqueues self)).
End methods.

(** What the containers closed by [close] leave behind them: the
    contents of every level, under its key. *)
Definition stored (self : t) : list (prio * list value) :=
  concat ((fun sq => PriorityQueue.queues sq.2) <$> pqueues self).
End RoundRobinQueue.

(** ** Runs of a round-robin queue

    A caller drives one queue with [push], [pop] and [close].  A run logs
    for each call what it returned or raised, and with it the slot that the
    call worked on: the slot that [push] resolved, the rotation head that
    [pop] took.  A [push] that raises is logged as [Unstored] when it had
    resolved the slot, and the container of the request raised. *)
Inductive op :=
| Push (request : value) (priority : Z)
| Pop
| Close.

Inductive event :=
| Pushed (slot : string)
| Popped (slot : option string) (request : value)
| Closed (startprios : data)
| Unstored (slot : string) (e : exn)
| Failed (e : exn).

Section runs.
Variable P : platform.
Variable B : backend.

Definition step (o : op) (w : heap * RoundRobinQueue.t)
  : event * (heap * RoundRobinQueue.t) :=
  match o with
  | Push request priority =>
      match RoundRobinQueue.push P B request priority w with
      | (Return _, w') =>
          (Pushed match scheduler_slot P request w.1 with
                  | (Return slot, _) => slot
                  | _ => ""
                  end, w')
      | (Raise e, w') =>
          (match scheduler_slot P request w.1 with
           | (Return slot, _) => Unstored slot e
           | _ => Failed e
           end, w')
      end
  | Pop =>
      match RoundRobinQueue.pop B w.2 with
      | (Return request, self') =>
          (Popped (head (RoundRobinQueue._slots w.2)) request, (w.1, self'))
      | (Raise e, self') => (Failed e, (w.1, self'))
      end
  | Close =>
      match RoundRobinQueue.close w.2 with
      | (Return startprios, self') => (Closed startprios, (w.1, self'))
      | (Raise e, self') => (Failed e, (w.1, self'))
      end
  end.

Fixpoint run (ops : list op) (w : heap * RoundRobinQueue.t)
  : list event * (heap * RoundRobinQueue.t) :=
  match ops with
  | [] => ([], w)
  | o :: ops' =>
      let '(ev, w') := step o w in
      let '(evs, w'') := run ops' w' in
      (ev :: evs, w'')
  end.
End runs.

Definition is_unstored (ev : event) : bool :=
  match ev with Unstored _ _ => true | _ => false end.


(** The requests of a list of events [Popped], in order. *)
Definition popped_requests (evs : list event) : list value :=
  omap (fun ev => match ev with Popped _ r => Some r | _ => None end) evs.
Definition popped_slots (evs : list event) : list (option string) :=
  omap (fun ev => match ev with Popped s _ => Some s | _ => None end) evs.

(** ** Well-formed queues *)

(** A priority queue as [push] and [pop] keep it as long as no container
    raises: one non-empty container per level, [curprio] the smallest
    level. *)
Record pq_wf (q : PriorityQueue.t) : Prop := {
  pq_nodup : NoDup (PriorityQueue.queues q).*1;
  pq_nonempty : Forall (fun pc => pc.2 ≠ []) (PriorityQueue.queues q);
  pq_curprio : PriorityQueue.curprio q = py_min (PriorityQueue.queues q).*1
}.

(** A round-robin queue with its active slots: the rotation lists every
    slot with a queue once, and every queue holds an entry. *)
Record rr_wf (self : RoundRobinQueue.t) : Prop := {
  rr_nodup_slots : NoDup (RoundRobinQueue._slots self);
  rr_nodup_keys : NoDup (RoundRobinQueue.pqueues self).*1;
  rr_same_slots : ∀ slot,
    slot ∈ RoundRobinQueue._slots self ↔ slot ∈ (RoundRobinQueue.pqueues self).*1;
  rr_queues : Forall (fun sq => pq_wf sq.2 ∧ PriorityQueue.queues sq.2 ≠ [])
                (RoundRobinQueue.pqueues self)
}.

(** [request] is stored in the queue of [slot]. *)
Definition entry_of (self : RoundRobinQueue.t) (slot : string) (request : value) : Prop :=
  ∃ q level c, dict_get (RoundRobinQueue.pqueues self) slot = Some q
               ∧ (level, c) ∈ PriorityQueue.queues q ∧ request ∈ c.

(** A value that is neither a [Request] nor a [dict]: [None], a number, a
    string, or an object of another class. *)
Definition other_kind (h : heap) (v : value) : bool :=
  match v with
  | VRef l =>
      match h !! l with
      | Some (OOther _) => true
      | _ => false
      end
  | _ => true
  end.

(** The queue that [push] leaves once it has resolved [slot]: a slot
    without a queue gets a new one and joins the rotation at the tail, and
    the request goes into the queue of the slot at [level]. *)
Definition pushed_at (B : backend) (slot : string) (level : prio) (request : value)
    (self : RoundRobinQueue.t) : RoundRobinQueue.t :=
  let q0 := default (PriorityQueue.mk [] None)
              (dict_get (RoundRobinQueue.pqueues self) slot) in
  RoundRobinQueue.mk
    (match dict_get (RoundRobinQueue.pqueues self) slot with
     | None => RoundRobinQueue._slots self ++ [slot]
     | Some _ => RoundRobinQueue._slots self
     end)
    (dict_set (RoundRobinQueue.pqueues self) slot
       (PriorityQueue.push B request level q0).2).

(** The queue that [pop] leaves when it has taken [slot] from the rotation
    head and [q'] is what is left of the queue of the slot. *)
Definition popped_at (slot : string) (rest : list string) (q' : PriorityQueue.t)
    (self : RoundRobinQueue.t) : RoundRobinQueue.t :=
  if decide (PriorityQueue.queues q' = [])
  then RoundRobinQueue.mk rest (dict_del (RoundRobinQueue.pqueues self) slot)
  else RoundRobinQueue.mk (rest ++ [slot])
         (dict_set (RoundRobinQueue.pqueues self) slot q').

(** ** The unique-path wrapper ([scrapy/core/queues.py])

    [UniqueFilesQueue.__init__] reads two things from its environment: the
    paths that exist on disk and the strings that successive calls of
    [uuid.uuid4().hex] return.  The state is the set of existing paths and
    the number of identifiers drawn so far; [uuid4_hex k] is the [k]-th
    draw.  The constructor of the wrapped [queue_class] creates its file
    (or directory) at the path it is given. *)
Module UniqueFilesQueue.
Section methods.
Variable uuid4_hex : nat → string.

(** The longest path on disk. *)
Definition longest (fs : gset string) : nat :=
  set_fold (fun p n => String.length p `max` n) 0 fs.

(** [while os.path.exists(path): path = path + "-" + uuid.uuid4().hex],
    stopped after [fuel] tests. *)
Fixpoint while_exists (fuel : nat) (fs : gset string) (k : nat) (path : string)
  : option (string * nat) :=
  match fuel with
  | 0 => None
  | S fuel' =>
      if decide (path ∈ fs)
      then while_exists fuel' fs (S k) (path +:+ "-" +:+ uuid4_hex k)
      else Some (path, k)
  end.

(** The path handed to [super().__init__], and the state after it.
    Every round of the loop makes the path longer, so that
    [S (longest fs)] tests are enough. *)
Definition __init__ (path : string) (st : gset string * nat)
  : option (string * (gset string * nat)) :=
  let '(fs, k) := st in
  let path := path +:+ "-" +:+ uuid4_hex k in
  match while_exists (S (longest fs)) fs (S k) path with
  | Some (path, k') => Some (path, ({[path]} ∪ fs, k'))
  | None => None
  end.

(** The identifiers appended for the draws [k], .., [k + n - 1]. *)
Fixpoint suffixes (k n : nat) : string :=
  match n with
  | 0 => ""
  | S n' => "-" +:+ uuid4_hex k +:+ suffixes (S k) n'
  end.
End methods.
End UniqueFilesQueue.

(** ** The downloader-aware queue *)

(** Modelled from the spec: [DownloaderAwarePriorityQueue], which the tests
    name and which is not in [scrapy/pqueues.py].  It "extends the
    Round-Robin Fairness Queue's partitioning and persistence, but replaces
    the pop-selection rule": it "selects the slot with the fewest in-flight
    requests among active slots, breaking ties by rotation order
    (earliest-enqueued-active-slot wins)"; two hooks keep the in-flight
    counters, and "if no signal has been received for a slot it is treated
    as zero in-flight".  "Push and close/reopen behave identically". *)
Module DownloaderAwarePriorityQueue.
Record t := mk {
  rr : RoundRobinQueue.t;
  in_flight : gmap string nat
}.

Definition count (self : t) (slot : string) : nat :=
  default 0 (in_flight self !! slot).

(** The first slot of the rotation with the fewest requests in flight. *)
Fixpoint fewest (self : t) (rotation : list string) : option string :=
  match rotation with
  | [] => None
  | slot :: rest =>
      match fewest self rest with
      | None => Some slot
      | Some slot' =>
          if (count self slot <=? count self slot')%nat then Some slot else Some slot'
      end
  end.

Definition select (self : t) : option string :=
  fewest self (RoundRobinQueue._slots (rr self)).

(** The rotation without [slot]. *)
Fixpoint remove_slot (slot : string) (rotation : list string) : list string :=
  match rotation with
  | [] => []
  | s :: rest => if decide (s = slot) then rest else s :: remove_slot slot rest
  end.

Section methods.
Variable P : platform.
Variable B : backend.

Definition __init__ (startprios : data) : M t unit :=
  fun self =>
    let '(o, q) := RoundRobinQueue.__init__ B startprios (rr self) in
    (o, mk q ∅).

Definition push (request : value) (priority : Z) : M (heap * t) unit :=
  fun w =>
    let '(o, (h, q)) := RoundRobinQueue.push P B request priority (w.1, rr w.2) in
    (o, (h, mk q (in_flight w.2))).

Definition close : M t data :=
  fun self =>
    let '(o, q) := RoundRobinQueue.close (rr self) in (o, mk q (in_flight self)).

(** [pop] as in the round-robin queue, on the selected slot instead of
    the rotation head. *)
Definition pop : M t value :=
  fun self =>
    match select self with
    | None => (Return VNone, self)
    | Some slot =>
        let q := rr self in
        let rotation := slot :: remove_slot slot (RoundRobinQueue._slots q) in
        let '(o, q') :=
          RoundRobinQueue.pop B (RoundRobinQueue.mk rotation (RoundRobinQueue.pqueues q)) in
        (o, mk q' (in_flight self))
    end.

(** The two hooks: a dispatched request begins transit, and completes. *)
Definition onDispatchStart (request : value) : M (heap * t) unit :=
  fun w =>
    match scheduler_slot P request w.1 with
    | (Return slot, h) =>
        (Return tt, (h, mk (rr w.2) (<[slot := S (count w.2 slot)]> (in_flight w.2))))
    | (Raise e, h) => (Raise e, (h, w.2))
    end.

Definition onDispatchComplete (request : value) : M (heap * t) unit :=
  fun w =>
    match scheduler_slot P request w.1 with
    | (Return slot, h) =>
        (Return tt, (h, mk (rr w.2) (<[slot := pred (count w.2 slot)]> (in_flight w.2))))
    | (Raise e, h) => (Raise e, (h, w.2))
    end.
End methods.
End DownloaderAwarePriorityQueue.

(** ** Sample data

    A platform, two backends and a heap with the requests of the tests, to
    run the definitions on. *)
Definition sample_hostname (url : string) : option string :=
  if String.prefix "http://" url then
    let rest := String.substring 7 (String.length url - 7) url in
    let host := match String.index 0 "/" rest with
                | Some i => String.substring 0 i rest
                | None => rest
                end in
    if String.eqb host "" then None else Some host
  else None.

(** A string with one of the two brackets only. *)
Definition sample_invalid_url (url : string) : bool :=
  match String.index 0 "[" url, String.index 0 "]" url with
  | Some _, None | None, Some _ => true
  | _, _ => false
  end.

Definition sample_platform : platform :=
  {| invalid_url := sample_invalid_url;
     hostname := sample_hostname;
     md5_hexdigest := fun _ => "d41d8cd98f00b204e9800998ecf8427e";
     repr := fun _ _ => "<object>" |}.

(** Memory queues: a new container is empty. *)
Definition memory_backend (is_lifo : bool) : backend :=
  {| lifo := is_lifo; qfactory := fun _ => []; push_error := fun _ _ _ => None |}.

(** Disk queues over the files [files]: a new container opens the file of
    its level. *)
Definition disk_backend (is_lifo : bool) (files : list (prio * list value)) : backend :=
  {| lifo := is_lifo;
     qfactory := fun level => default [] (dict_get files level);
     push_error := fun _ _ _ => None |}.

Definition request_object (url : string) (meta : loc) : object :=
  ORequest {| req_url := url; req_meta := meta; req_priority := 0 |}.
Definition slot_meta (slot : string) : object :=
  ODict {[ SCHEDULER_SLOT_META_KEY := VStr slot ]}.

Definition sample_heap : heap :=
  list_to_map
    [ (1%positive, request_object "http://foo.com/a" 2%positive); (2%positive, slot_meta "a");
      (3%positive, request_object "http://foo.com/b" 4%positive); (4%positive, slot_meta "a");
      (5%positive, request_object "http://foo.com/c" 6%positive); (6%positive, slot_meta "b");
      (7%positive, request_object "http://foo.com/d" 8%positive); (8%positive, slot_meta "b");
      (9%positive, ODict {[ "url" := VStr "http://foo.com/e" ]});
      (10%positive, OOther "Spider");
      (11%positive, request_object "http://bar.org/f" 12%positive); (12%positive, ODict ∅) ].

Definition empty_queue : RoundRobinQueue.t := RoundRobinQueue.mk [] [].

Definition request_a : value := VRef 1%positive.   (* slot override "a" *)
Definition request_b : value := VRef 3%positive.   (* slot override "a" *)
Definition request_c : value := VRef 5%positive.   (* slot override "b" *)
Definition request_d : value := VRef 7%positive.   (* slot override "b" *)
Definition mapping_e : value := VRef 9%positive.   (* a mapping without [meta] *)
Definition spider : value := VRef 10%positive.     (* not a request *)
Definition request_f : value := VRef 11%positive.  (* no slot override *)

(** Every entry stored in the queue satisfies [Q]. *)
Definition all_entries (Q : value → Prop) (self : RoundRobinQueue.t) : Prop :=
  Forall (fun sq => Forall (fun pc => Forall Q pc.2) (PriorityQueue.queues sq.2))
    (RoundRobinQueue.pqueues self).



(** The queue after the four requests with a slot override were pushed:
    two slots, two requests each. *)
Definition sample_pushes : list op :=
  [Push request_a 0; Push request_c 0; Push request_b 0; Push request_d 0].

Definition sample_queue : RoundRobinQueue.t :=
  Eval vm_compute in
    (run sample_platform (memory_backend true) sample_pushes
       (sample_heap, empty_queue)).2.2.


(** ** One slot *)

Definition push_ops (pushes : list (value * Z)) : list op :=
  (fun rp => Push rp.1 rp.2) <$> pushes.

(** The levels of a queue that holds the requests [l] of one slot, pushed
    with pairwise distinct priorities: one container with one request for
    each. *)
Definition singles (path : string) (l : list (value * Z)) : list (prio * list value) :=
  (fun rp => ((rp.2, path), [rp.1])) <$> l.

Definition single_slot_queue (slot path : string) (l : list (value * Z))
  : RoundRobinQueue.t :=
  match l with
  | [] => empty_queue
  | _ => RoundRobinQueue.mk [slot]
           [(slot, PriorityQueue.mk (singles path l) (py_min (singles path l).*1))]
  end.

(** Pops of a run of pushes into one slot, in some order of the pushes
    that [before] relates: the requests come out in that order. *)
Definition pops_ordered_by (before : Z → Z → Prop) (P : platform) (B : backend)
    (h : heap) (slot : string) (pushes : list (value * Z)) : Prop :=
  (∀ level, qfactory B level = []) →
  NoDup pushes.*2 →
  let r := run P B (push_ops pushes) (h, empty_queue) in
  Forall (fun ev => ev = Pushed slot) r.1 →
  ∃ sorted,
    Permutation sorted pushes
    ∧ StronglySorted (fun a b => before a.2 b.2) sorted
    ∧ (run P B (repeat Pop (length pushes)) r.2).1
      = (fun a => Popped (Some slot) a.1) <$> sorted.

(** ** Snapshots *)

(** What [close] stores for a slot and its queue. *)
Definition snapshot_item (sq : string * PriorityQueue.t) : string * data :=
  (sq.1, DList (prio_data <$> PriorityQueue.active sq.2)).

(** A snapshot after [json.dump] and [json.load]: tuples come back as
    lists. *)
Fixpoint via_json (d : data) : data :=
  match d with
  | DList l | DTuple l => DList (via_json <$> l)
  | DDict items => DDict ((fun kv => match kv with (k, v) => (k, via_json v) end) <$> items)
  | _ => d
  end.

(** The constructor rejects [d] when it is not a mapping: it raises
    [ValueError] with nothing in the rotation and no queue created. *)
Definition rejects_non_mapping (B : backend) (d : data) : Prop :=
  is_dict d = false →
  RoundRobinQueue.__init__ B d empty_queue = (Raise ValueError, empty_queue).

(** ** Requests and their metadata *)

(** [request] is a [Request] or a mapping whose metadata is the dictionary
    at [lm] and whose target is [url]. *)
Definition has_meta (h : heap) (request : value) (lm : loc) (url : string) : Prop :=
  match request with
  | VRef l =>
      l ≠ lm ∧
      match h !! l with
      | Some (ORequest r) => req_meta r = lm ∧ req_url r = url
      | Some (ODict d) => d !! "meta" = Some (VRef lm) ∧ d !! "url" = Some (VStr url)
      | _ => False
      end
  | _ => False
  end.

(** The slot override that an observer reads from the metadata of
    [request]: [request.meta.get('download_slot')] on a [Request],
    [request.get('meta', {}).get('download_slot')] on a mapping. *)
Definition observed_slot (h : heap) (request : value) : value :=
  match request with
  | VRef l =>
      match h !! l with
      | Some (ORequest r) =>
          match h !! req_meta r with
          | Some (ODict m) => default VNone (m !! SCHEDULER_SLOT_META_KEY)
          | _ => VNone
          end
      | Some (ODict d) =>
          match d !! "meta" with
          | Some (VRef lm) =>
              match h !! lm with
              | Some (ODict m) => default VNone (m !! SCHEDULER_SLOT_META_KEY)
              | _ => VNone
              end
          | _ => VNone
          end
      | _ => VNone
      end
  | _ => VNone
  end.

(** The sample queue with four slots and in-flight counts 0, 0, 1, 2 for
    the slots "a", "b", "c", "d" (nothing signalled for "b"). *)
Definition sample_aware : DownloaderAwarePriorityQueue.t :=
  DownloaderAwarePriorityQueue.mk
    (RoundRobinQueue.mk ["d"; "c"; "b"; "a"]
       ((fun slot => (slot, PriorityQueue.mk [((0%Z, slot), [request_a])] (Some (0%Z, slot))))
          <$> ["a"; "b"; "c"; "d"]))
    (list_to_map [("a", 0); ("c", 1); ("d", 2)]).

(** ** Characters of a slot path *)

(** The characters that [_slot_as_path] keeps. *)
Definition safe_char (c : ascii) : bool := isalnum c || in_dash_dot_underscore c.

Fixpoint string_forallb (f : ascii → bool) (s : string) : bool :=
  match s with
  | EmptyString => true
  | String c s' => f c && string_forallb f s'
  end.

(** ** Requests in and out *)

(** The entries of a priority queue, and of the whole queue. *)
Definition pq_entries (q : PriorityQueue.t) : list value :=
  concat ((fun pc => pc.2) <$> PriorityQueue.queues q).

Definition entries (self : RoundRobinQueue.t) : list value :=
  concat ((fun sq => pq_entries sq.2) <$> RoundRobinQueue.pqueues self).

(** The requests of the pushes that returned, in the order of the calls. *)
Fixpoint accepted (ops : list op) (evs : list event) : list value :=
  match ops, evs with
  | Push request _ :: ops', Pushed _ :: evs' => request :: accepted ops' evs'
  | _ :: ops', _ :: evs' => accepted ops' evs'
  | _, _ => []
  end.

(** The requests that pops took from a slot, in the order of the calls;
    a pop that returned [None] took none. *)
Definition dispatched (evs : list event) : list value :=
  omap (fun ev => match ev with
                  | Popped (Some _) VNone => None
                  | Popped (Some _) r => Some r
                  | _ => None
                  end) evs.

(** The queue that holds the requests [c] of one slot in one level. *)
Definition one_level_queue (slot : string) (level : prio) (c : list value)
  : RoundRobinQueue.t :=
  match c with
  | [] => empty_queue
  | _ => RoundRobinQueue.mk [slot]
           [(slot, PriorityQueue.mk [(level, c)] (Some level))]
  end.

(** [isinstance(request, dict) or isinstance(request, Request)]. *)
Definition request_kind (h : heap) (v : value) : bool :=
  match v with
  | VRef l =>
      match h !! l with
      | Some (ODict _) | Some (ORequest _) => true
      | _ => false
      end
  | _ => false
  end.

(** A mapping whose metadata is a number (at an unused location of the
    sample heap). *)
Definition sample_heap_bad_meta : heap :=
  <[100%positive := ODict {[ "meta" := VInt 1; "url" := VStr "http://foo.com/a" ]}]>
    sample_heap.

(** ** Queues after a push that raised

    When the container raises, [push] has already given the slot its
    queue and its place in the rotation, and the level its container: a
    queue may then hold an empty container, and a slot an empty queue.
    What every run keeps all the same: the rotation lists every slot
    with a queue once, and [curprio] is a level of its queue. *)
Record pq_ok (q : PriorityQueue.t) : Prop := {
  pq_ok_nodup : NoDup (PriorityQueue.queues q).*1;
  pq_ok_curprio : ∀ c, PriorityQueue.curprio q = Some c → c ∈ (PriorityQueue.queues q).*1
}.

Record rr_ok (self : RoundRobinQueue.t) : Prop := {
  rr_ok_nodup_slots : NoDup (RoundRobinQueue._slots self);
  rr_ok_nodup_keys : NoDup (RoundRobinQueue.pqueues self).*1;
  rr_ok_same_slots : ∀ slot,
    slot ∈ RoundRobinQueue._slots self ↔ slot ∈ (RoundRobinQueue.pqueues self).*1;
  rr_ok_queues : Forall (fun sq => pq_ok sq.2) (RoundRobinQueue.pqueues self)
}.

(** The queue that [pop] leaves when it has taken [slot] from the rotation
    head and [q'] is what is left of the queue of the slot, whatever the
    queue held. *)
Definition popped_to (slot : string) (rest : list string) (q' : PriorityQueue.t)
    (self : RoundRobinQueue.t) : RoundRobinQueue.t :=
  if (0 <? PriorityQueue.__len__ q')%nat
  then RoundRobinQueue.mk (rest ++ [slot])
         (dict_set (RoundRobinQueue.pqueues self) slot q')
  else RoundRobinQueue.mk rest (dict_del (RoundRobinQueue.pqueues self) slot).

(** A backend whose containers store every push. *)
Definition reliable (B : backend) : Prop :=
  ∀ level q obj, push_error B level q obj = None.

(** Memory queues that cannot store the request [bad]: the push raises
    [ValueError], as a queue does for an object that it cannot serialize. *)
Definition picky_backend (bad : value) : backend :=
  {| lifo := false;
     qfactory := fun _ => [];
     push_error := fun _ _ obj => if decide (obj = bad) then Some ValueError else None |}.

(** The exception that [push] meets once it has resolved [slot], if any:
    what the container of [level] in the queue of [slot] raises when
    [request] is pushed into it. *)
Definition refusal (B : backend) (slot : string) (level : prio) (request : value)
    (self : RoundRobinQueue.t) : option exn :=
  let q0 := default (PriorityQueue.mk [] None)
              (dict_get (RoundRobinQueue.pqueues self) slot) in
  push_error B level
    (default (qfactory B level) (dict_get (PriorityQueue.queues q0) level)) request.


(** A [Request] whose target [urlparse] rejects (at unused locations of
    the sample heap), with metadata that holds no override. *)
Definition sample_heap_bad_url : heap :=
  <[101%positive := request_object "http://[::1" 102%positive]>
    (<[102%positive := ODict ∅]> sample_heap).

(** * Properties *)

(** ** The order on priority keys *)

Lemma str_ltb_irrefl s : str_ltb s s = false.
Proof.
  unfold str_ltb. destruct (String_as_OT.compare_spec s s) as [_|H|H]; try done.
  by apply (StrictOrder_Irreflexive (R:=String_as_OT.lt)) in H.
Qed.

Lemma str_ltb_trans a b c : str_ltb a b = true → str_ltb b c = true → str_ltb a c = true.
Proof.
  unfold str_ltb.
  destruct (String_as_OT.compare a b) eqn:Hab; try done.
  destruct (String_as_OT.compare b c) eqn:Hbc; try done.
  intros _ _.
  by rewrite (StrictOrder_Transitive (R:=String_as_OT.lt) a b c Hab Hbc).
Qed.

Lemma str_ltb_total a b : a ≠ b → str_ltb a b = true ∨ str_ltb b a = true.
Proof.
  intros Hne. unfold str_ltb.
  destruct (String_as_OT.compare_spec a b) as [H|H|H]; [done|by left|].
  right. unfold String_as_OT.lt in H. by rewrite H.
Qed.

Lemma prio_ltb_irrefl a : prio_ltb a a = false.
Proof.
  unfold prio_ltb. rewrite Z.ltb_irrefl, Z.eqb_refl, str_ltb_irrefl. done.
Qed.

Lemma prio_ltb_trans a b c :
  prio_ltb a b = true → prio_ltb b c = true → prio_ltb a c = true.
Proof.
  unfold prio_ltb. destruct a as [a1 a2], b as [b1 b2], c as [c1 c2]; simpl.
  rewrite !orb_true_iff, !andb_true_iff, !Z.ltb_lt, !Z.eqb_eq.
  intros [H1|[H1 H1']] [H2|[H2 H2']]; subst; try (left; lia); auto.
  right. split; [done|]. by eapply str_ltb_trans.
Qed.

Lemma prio_ltb_total a b : a ≠ b → prio_ltb a b = true ∨ prio_ltb b a = true.
Proof.
  unfold prio_ltb. destruct a as [a1 a2], b as [b1 b2]; simpl. intros Hne.
  rewrite !orb_true_iff, !andb_true_iff, !Z.ltb_lt, !Z.eqb_eq.
  destruct (Z.lt_trichotomy a1 b1) as [?|[->|?]]; auto.
  destruct (str_ltb_total a2 b2) as [?|?]; [congruence|auto..].
Qed.

Lemma prio_ltb_asym a b : prio_ltb a b = true → prio_ltb b a = false.
Proof.
  intros H. destruct (prio_ltb b a) eqn:H'; [|done].
  pose proof (prio_ltb_trans _ _ _ H H') as Ht. by rewrite prio_ltb_irrefl in Ht.
Qed.

(** On one slot path the order is the order of the priorities. *)
Lemma prio_ltb_same_path (m n : Z) (path : string) :
  prio_ltb (m, path) (n, path) = (m <? n)%Z.
Proof.
  unfold prio_ltb; simpl. rewrite str_ltb_irrefl, andb_false_r, orb_false_r. done.
Qed.

(** [py_min] returns the one element that nothing in the list is below. *)

Lemma foldl_min_spec (l : list prio) (p : prio) :
  let m := foldl min_step p l in
  m ∈ p :: l ∧ ∀ x, x ∈ p :: l → prio_ltb x m = false.
Proof.
  revert p. induction l as [|y l IH]; intros p; simpl.
  - split; [set_solver|]. intros x ->%list_elem_of_singleton. apply prio_ltb_irrefl.
  - destruct (IH (min_step p y)) as [Hin Hmin]. split.
    + apply elem_of_cons in Hin as [->|Hin]; [|set_solver].
      unfold min_step. destruct (prio_ltb y p); set_solver.
    + intros x Hx. 
      assert (prio_ltb (min_step p y) (foldl min_step (min_step p y) l) = false) as H0
        by (apply Hmin; set_solver).
      apply elem_of_cons in Hx as [->|Hx].
      * destruct (prio_ltb p (foldl min_step (min_step p y) l)) eqn:Hp; [|done].
        unfold min_step in H0 at 1. destruct (prio_ltb y p) eqn:Hyp.
        -- by rewrite (prio_ltb_trans _ _ _ Hyp Hp) in H0.
        -- congruence.
      * apply elem_of_cons in Hx as [->|Hx]; [|apply Hmin; set_solver].
        destruct (prio_ltb y (foldl min_step (min_step p y) l)) eqn:Hy; [|done].
        unfold min_step in H0 at 1. destruct (prio_ltb y p) eqn:Hyp; [congruence|].
        destruct (decide (y = p)) as [->|Hne]; [congruence|].
        destruct (prio_ltb_total y p Hne) as [?|Hpy]; [congruence|].
        by rewrite (prio_ltb_trans _ _ _ Hpy Hy) in H0.
Qed.

Lemma py_min_spec (l : list prio) (m : prio) :
  py_min l = Some m ↔ m ∈ l ∧ ∀ x, x ∈ l → prio_ltb x m = false.
Proof.
  destruct l as [|p l]; simpl.
  - split; [done|]. intros [H _]. by apply elem_of_nil in H.
  - pose proof (foldl_min_spec l p) as [Hin Hmin]. fold min_step. split.
    + intros [= <-]. done.
    + intros [Hm Hmm]. f_equal.
      destruct (decide (foldl min_step p l = m)) as [|Hne]; [done|].
      destruct (prio_ltb_total _ _ Hne) as [H|H].
      * by rewrite (Hmm _ Hin) in H.
      * by rewrite (Hmin _ Hm) in H.
Qed.

Lemma py_min_None (l : list prio) : py_min l = None ↔ l = [].
Proof. destruct l; simpl; split; done. Qed.

(** ** Insertion-ordered dictionaries *)

Section ordered_dict_facts.
Context {K V : Type} `{EqDecision K}.
Implicit Types (d : list (K * V)) (k : K) (v : V).

Lemma dict_get_None d k : dict_get d k = None ↔ k ∉ d.*1.
Proof.
  induction d as [|[k' v'] d IH]; simpl.
  - split; [intros _; apply not_elem_of_nil|done].
  - rewrite not_elem_of_cons. case_decide; [subst|]; naive_solver.
Qed.

Lemma dict_get_Some_elem d k v : dict_get d k = Some v → (k, v) ∈ d.
Proof.
  induction d as [|[k' v'] d IH]; simpl; [done|].
  case_decide; [intros [= <-]; subst; left|right; auto].
Qed.

Lemma dict_get_elem d k v : NoDup d.*1 → (k, v) ∈ d → dict_get d k = Some v.
Proof.
  induction d as [|[k' v'] d IH]; simpl.
  - intros _ H. by apply elem_of_nil in H.
  - intros [Hk Hd]%NoDup_cons [[= -> ->]|Hin]%elem_of_cons.
    + by rewrite decide_True.
    + rewrite decide_False; [auto|]. intros ->. apply Hk.
      apply list_elem_of_fmap. by exists (k, v).
Qed.

Lemma dict_get_is_Some d k : is_Some (dict_get d k) ↔ k ∈ d.*1.
Proof.
  rewrite <-not_eq_None_Some, dict_get_None.
  split; [|auto]. intros H. by destruct (decide (k ∈ d.*1)).
Qed.

Lemma dict_set_same d k v : dict_get d k = Some v → dict_set d k v = d.
Proof.
  induction d as [|[k0 v0] d IH]; simpl; [done|].
  case_decide; [by intros [= ->]; subst|]. intros H'. by rewrite IH.
Qed.

Lemma dict_get_set d k k' v :
  dict_get (dict_set d k v) k' = if decide (k = k') then Some v else dict_get d k'.
Proof.
  induction d as [|[k0 v0] d IH]; simpl.
  - done.
  - destruct (decide (k0 = k)) as [->|Hne]; simpl.
    + destruct (decide (k = k')); done.
    + rewrite IH. destruct (decide (k0 = k')) as [->|]; [|done].
      by rewrite decide_False.
Qed.

Lemma dict_set_set d k v v' : dict_set (dict_set d k v) k v' = dict_set d k v'.
Proof.
  induction d as [|[k0 v0] d IH]; simpl.
  - by rewrite decide_True.
  - destruct (decide (k0 = k)) as [->|Hne]; simpl.
    + by rewrite decide_True.
    + rewrite decide_False by done. by rewrite IH.
Qed.

Lemma dict_set_keys d k v :
  (dict_set d k v).*1 = if decide (k ∈ d.*1) then d.*1 else d.*1 ++ [k].
Proof.
  induction d as [|[k0 v0] d IH]; cbn [dict_set].
  - rewrite decide_False; [done|apply not_elem_of_nil].
  - destruct (decide (k0 = k)) as [->|Hne]; rewrite !fmap_cons; cbn [fst].
    + rewrite decide_True; [done|left].
    + rewrite IH. destruct (decide (k ∈ d.*1)).
      * rewrite decide_True; [done|by right].
      * rewrite decide_False; [done|]. rewrite not_elem_of_cons. auto.
Qed.

Lemma dict_set_fresh d k v : k ∉ d.*1 → dict_set d k v = d ++ [(k, v)].
Proof.
  induction d as [|[k0 v0] d IH]; simpl; [done|].
  rewrite not_elem_of_cons. intros [Hne Hk].
  rewrite decide_False by done. by rewrite IH.
Qed.

Lemma dict_set_NoDup d k v : NoDup d.*1 → NoDup (dict_set d k v).*1.
Proof.
  intros Hd. rewrite dict_set_keys. case_decide; [done|].
  apply NoDup_app. split_and!; [done| |apply NoDup_singleton].
  intros x Hx ->%list_elem_of_singleton. done.
Qed.

Lemma dict_set_Forall (Q : K * V → Prop) d k v :
  Forall Q d → Q (k, v) → Forall Q (dict_set d k v).
Proof.
  intros Hd Hkv. induction Hd as [|[k0 v0] d H0 Hd IH]; simpl.
  - by constructor.
  - case_decide; subst; constructor; auto.
Qed.

Lemma dict_set_elem d k v x : x ∈ dict_set d k v → x = (k, v) ∨ x ∈ d.
Proof.
  induction d as [|[k0 v0] d IH]; simpl.
  - intros ->%list_elem_of_singleton. by left.
  - case_decide; subst.
    + intros [->|?]%elem_of_cons; [by left|right; by right].
    + intros [->|?]%elem_of_cons; [right; left|].
      destruct IH as [?|?]; auto. right; by right.
Qed.

Lemma dict_del_keys_elem d k k' :
  NoDup d.*1 → k' ∈ (dict_del d k).*1 ↔ k' ∈ d.*1 ∧ k' ≠ k.
Proof.
  induction d as [|[k0 v0] d IH]; simpl.
  - intros _. split; [by intros ?%elem_of_nil|by intros [?%elem_of_nil _]].
  - intros [Hk Hd]%NoDup_cons. destruct (decide (k0 = k)) as [->|Hne]; simpl.
    + rewrite elem_of_cons. split; [|naive_solver].
      intros Hin. split; [by right|]. by intros ->.
    + rewrite !elem_of_cons, (IH Hd). naive_solver.
Qed.

Lemma dict_del_set d k v : dict_del (dict_set d k v) k = dict_del d k.
Proof.
  induction d as [|[k0 v0] d IH]; simpl.
  - by rewrite decide_True.
  - destruct (decide (k0 = k)) as [->|Hne]; simpl.
    + by rewrite decide_True.
    + rewrite decide_False by done. by rewrite IH.
Qed.

Lemma dict_del_sublist d k : sublist (dict_del d k) d.
Proof.
  induction d as [|[k0 v0] d IH]; simpl; [done|].
  case_decide; [by apply sublist_cons|by apply sublist_skip].
Qed.

Lemma dict_del_NoDup d k : NoDup d.*1 → NoDup (dict_del d k).*1.
Proof.
  intros Hd. eapply sublist_NoDup; [done|]. apply (fmap_sublist fst), dict_del_sublist.
Qed.

Lemma dict_del_Forall (Q : K * V → Prop) d k : Forall Q d → Forall Q (dict_del d k).
Proof.
  rewrite !Forall_forall. intros Hd x Hx. apply Hd.
  eapply elem_of_sublist; [done|apply dict_del_sublist].
Qed.



Lemma dict_set_sum (f : V → nat) d k v v0 :
  dict_get d k = Some v0 →
  list_sum (map (fun kv => f kv.2) (dict_set d k v)) + f v0
  = list_sum (map (fun kv => f kv.2) d) + f v.
Proof.
  induction d as [|[k1 v1] d IH]; simpl; [done|].
  case_decide; simpl.
  - intros [= ->]. lia.
  - intros H'. specialize (IH H'). lia.
Qed.

Lemma dict_set_fresh_sum (f : V → nat) d k v :
  dict_get d k = None →
  list_sum (map (fun kv => f kv.2) (dict_set d k v))
  = list_sum (map (fun kv => f kv.2) d) + f v.
Proof.
  intros Hk%dict_get_None. rewrite dict_set_fresh by done.
  rewrite map_app, list_sum_app. simpl. lia.
Qed.

Lemma dict_del_sum (f : V → nat) d k v0 :
  dict_get d k = Some v0 →
  list_sum (map (fun kv => f kv.2) (dict_del d k)) + f v0
  = list_sum (map (fun kv => f kv.2) d).
Proof.
  induction d as [|[k1 v1] d IH]; simpl; [done|].
  case_decide; simpl.
  - intros [= ->]. lia.
  - intros H'. specialize (IH H'). lia.
Qed.
End ordered_dict_facts.

(** ** The containers and the priority queue *)

Lemma q_pop_nonempty (is_lifo : bool) (q : list value) :
  q ≠ [] →
  ∃ m q', q_pop is_lifo q = (m, q') ∧ m ∈ q ∧ length q = S (length q')
          ∧ (if is_lifo then q = q' ++ [m] else q = m :: q').
Proof.
  intros Hq. unfold q_pop. destruct is_lifo.
  - destruct (exists_last Hq) as (q' & m & ->).
    rewrite last_snoc, removelast_last. exists m, q'.
    split_and!; [done|set_solver|rewrite length_app; simpl; lia|done].
  - destruct q as [|m q']; [done|]. exists m, q'. split_and!; [done|left|done|done].
Qed.

Lemma q_pop_single (is_lifo : bool) (r : value) : q_pop is_lifo [r] = (r, []).
Proof. by destruct is_lifo. Qed.

Lemma py_min_snoc (l : list prio) (p : prio) :
  py_min (l ++ [p])
  = Some (match py_min l with None => p | Some m => min_step m p end).
Proof. destruct l as [|k l]; simpl; [done|]. by rewrite foldl_app. Qed.

Lemma filter_nonempty_keys (d : list (prio * list value)) :
  Forall (fun pc => pc.2 ≠ []) d →
  (filter (fun pq => (0 <? length pq.2)%nat = true) d).*1 = d.*1.
Proof.
  induction 1 as [|[p c] d Hc Hd IH]; [done|].
  rewrite filter_cons_True; [by rewrite !fmap_cons, IH|].
  simpl in *. destruct c; [done|]. done.
Qed.

Section priority_queue_facts.
Variable B : backend.
Implicit Types (self : PriorityQueue.t) (obj : value) (p : prio).

(** What [push] leaves: the object in the container of its level when
    the container stores it, and otherwise the container, new or not,
    as it was. *)
Lemma pq_push_cases obj p self :
  let c := default (qfactory B p) (dict_get (PriorityQueue.queues self) p) in
  PriorityQueue.push B obj p self
  = match push_error B p c obj with
    | None =>
        (Return tt,
         PriorityQueue.mk (dict_set (PriorityQueue.queues self) p (c ++ [obj]))
           (Some match PriorityQueue.curprio self with
                 | None => p
                 | Some c => min_step c p
                 end))
    | Some e =>
        (Raise e,
         PriorityQueue.mk (dict_set (PriorityQueue.queues self) p c)
           (PriorityQueue.curprio self))
    end.
Proof.
  unfold PriorityQueue.push, q_push.
  destruct (dict_get (PriorityQueue.queues self) p) as [q|] eqn:Hq; simpl.
  - rewrite Hq. destruct (push_error B p q obj) as [e|].
    + by rewrite (dict_set_same _ _ _ Hq).
    + do 2 f_equal. destruct (PriorityQueue.curprio self); [|done].
      unfold min_step. by destruct (prio_ltb p p0).
  - rewrite dict_get_set, decide_True by done.
    destruct (push_error B p (qfactory B p) obj) as [e|]; [done|].
    rewrite dict_set_set.
    do 2 f_equal. destruct (PriorityQueue.curprio self); [|done].
    unfold min_step. by destruct (prio_ltb p p0).
Qed.

(** What [push] leaves when the container stores the object. *)
Lemma pq_push_spec obj p self :
  push_error B p (default (qfactory B p) (dict_get (PriorityQueue.queues self) p)) obj
  = None →
  PriorityQueue.push B obj p self
  = (Return tt,
     PriorityQueue.mk
       (dict_set (PriorityQueue.queues self) p
          (default (qfactory B p) (dict_get (PriorityQueue.queues self) p) ++ [obj]))
       (Some match PriorityQueue.curprio self with
             | None => p
             | Some c => min_step c p
             end)).
Proof. intros Hok. pose proof (pq_push_cases obj p self) as H. cbv zeta in H. by rewrite Hok in H. Qed.

(** What [push] leaves when the container raises. *)
Lemma pq_push_raise obj p self e :
  push_error B p (default (qfactory B p) (dict_get (PriorityQueue.queues self) p)) obj
  = Some e →
  PriorityQueue.push B obj p self
  = (Raise e,
     PriorityQueue.mk
       (dict_set (PriorityQueue.queues self) p
          (default (qfactory B p) (dict_get (PriorityQueue.queues self) p)))
       (PriorityQueue.curprio self)).
Proof. intros Hno. pose proof (pq_push_cases obj p self) as H. cbv zeta in H. by rewrite Hno in H. Qed.

Lemma pq_push_nonempty obj p self :
  PriorityQueue.queues (PriorityQueue.push B obj p self).2 ≠ [].
Proof.
  rewrite pq_push_cases; simpl. intros H.
  destruct (push_error B p _ obj); simpl in H.
  - pose proof (dict_get_set (PriorityQueue.queues self) p p
      (default (qfactory B p) (dict_get (PriorityQueue.queues self) p))) as H'.
    rewrite H, decide_True in H' by done. done.
  - pose proof (dict_get_set (PriorityQueue.queues self) p p
      (default (qfactory B p) (dict_get (PriorityQueue.queues self) p) ++ [obj])) as H'.
    rewrite H, decide_True in H' by done. done.
Qed.

Lemma pq_push_wf obj p self :
  push_error B p (default (qfactory B p) (dict_get (PriorityQueue.queues self) p)) obj
  = None →
  pq_wf self → pq_wf (PriorityQueue.push B obj p self).2.
Proof.
  intros Hok [Hnd Hne Hcur]. rewrite pq_push_spec by done; simpl. split; simpl.
  - by apply dict_set_NoDup.
  - apply dict_set_Forall; [done|]. simpl.
    intros H. by apply app_eq_nil in H as [_ ?].
  - rewrite dict_set_keys, Hcur. case_decide as Hin.
    + destruct (py_min (PriorityQueue.queues self).*1) as [c|] eqn:Hmin.
      * apply py_min_spec in Hmin as [_ Hmin]. unfold min_step.
        by rewrite (Hmin _ Hin).
      * apply py_min_None in Hmin. rewrite Hmin in Hin. by apply elem_of_nil in Hin.
    + by rewrite py_min_snoc.
Qed.

(** What [pop] does on a well-formed queue with a current level: it
    takes an entry from the container of that level, and drops the level
    when the container is left empty. *)
Lemma pq_pop_spec self c :
  pq_wf self → PriorityQueue.curprio self = Some c →
  ∃ q m q',
    dict_get (PriorityQueue.queues self) c = Some q
    ∧ q_pop (lifo B) q = (m, q') ∧ q ≠ []
    ∧ PriorityQueue.pop B self
      = (Return m,
         if decide (q' = [])
         then PriorityQueue.mk (dict_del (PriorityQueue.queues self) c)
                (py_min (dict_del (PriorityQueue.queues self) c).*1)
         else PriorityQueue.mk (dict_set (PriorityQueue.queues self) c q') (Some c)).
Proof.
  intros [Hnd Hne Hcur] Hc. rewrite Hc in Hcur. symmetry in Hcur.
  apply py_min_spec in Hcur as [Hin _].
  apply dict_get_is_Some in Hin as [q Hq].
  assert (q ≠ []) as Hqne.
  { apply dict_get_Some_elem in Hq. rewrite Forall_forall in Hne. apply (Hne _ Hq). }
  destruct (q_pop_nonempty (lifo B) q Hqne) as (m & q' & Hpop & _).
  exists q, m, q'. split_and!; [done..|].
  unfold PriorityQueue.pop. rewrite Hc, Hq, Hpop.
  destruct q' as [|x q']; simpl.
  - rewrite filter_nonempty_keys; [done|]. by apply dict_del_Forall.
  - done.
Qed.

Lemma pq_pop_wf self :
  pq_wf self → pq_wf (PriorityQueue.pop B self).2.
Proof.
  intros Hwf. destruct (PriorityQueue.curprio self) as [c|] eqn:Hc.
  - destruct (pq_pop_spec self c Hwf Hc) as (q & m & q' & Hq & Hpop & Hqne & ->).
    destruct Hwf as [Hnd Hne Hcur]. simpl. case_decide as Hq'; split; simpl.
    + by apply dict_del_NoDup.
    + by apply dict_del_Forall.
    + done.
    + by apply dict_set_NoDup.
    + by apply dict_set_Forall.
    + rewrite dict_set_keys, decide_True; [congruence|].
      apply dict_get_is_Some. by exists q.
  - unfold PriorityQueue.pop. by rewrite Hc.
Qed.

Lemma pq_pop_len self :
  pq_wf self → PriorityQueue.queues self ≠ [] →
  ∃ m, (PriorityQueue.pop B self).1 = Return m
       ∧ PriorityQueue.__len__ self = S (PriorityQueue.__len__ (PriorityQueue.pop B self).2)
       ∧ ∃ level c, (level, c) ∈ PriorityQueue.queues self ∧ m ∈ c.
Proof.
  intros Hwf Hne. destruct (PriorityQueue.curprio self) as [c|] eqn:Hc.
  - destruct (pq_pop_spec self c Hwf Hc) as (q & m & q' & Hq & Hpop & Hqne & ->).
    destruct (q_pop_nonempty (lifo B) q Hqne) as (m0 & q0 & Hpop' & Hm & Hlen & _).
    rewrite Hpop in Hpop'. injection Hpop' as <- <-.
    exists m. split; [done|]. split.
    + unfold PriorityQueue.__len__. case_decide as Hq'; simpl.
      * pose proof (dict_del_sum (@length value) _ _ _ Hq) as H. subst q'.
        simpl in *. lia.
      * pose proof (dict_set_sum (@length value) _ _ q' _ Hq) as H. lia.
    + exists c, q. split; [by apply dict_get_Some_elem|done].
  - destruct Hwf as [_ _ Hcur]. rewrite Hc in Hcur. symmetry in Hcur.
    apply py_min_None in Hcur. destruct (PriorityQueue.queues self); done.
Qed.

Lemma pq_len_pos self :
  pq_wf self → PriorityQueue.queues self ≠ [] → 0 < PriorityQueue.__len__ self.
Proof.
  intros [_ Hne _] Hq. unfold PriorityQueue.__len__.
  destruct (PriorityQueue.queues self) as [|[p c] d]; [done|].
  apply Forall_cons in Hne as [Hc _]. simpl in *. destruct c; [done|]. simpl. lia.
Qed.

Lemma pq_len_zero self :
  PriorityQueue.queues self = [] → PriorityQueue.__len__ self = 0.
Proof. unfold PriorityQueue.__len__. by intros ->. Qed.

End priority_queue_facts.

(** ** The round-robin queue *)

Lemma new_empty_queue (B : backend) :
  PriorityAsTupleQueue.new B (DTuple []) = Return (PriorityQueue.mk [] None).
Proof. reflexivity. Qed.

Lemma pq_wf_empty : pq_wf (PriorityQueue.mk [] None).
Proof. split; simpl; [apply NoDup_nil_2|constructor|done]. Qed.

Lemma rr_wf_empty : rr_wf (RoundRobinQueue.mk [] []).
Proof. split; simpl; [apply NoDup_nil_2|apply NoDup_nil_2|done|constructor]. Qed.

Section round_robin_facts.
Variable P : platform.
Variable B : backend.
Implicit Types (self : RoundRobinQueue.t) (h : heap) (slot : string).

(** [push] resolves the slot, enters it when it is new, and hands the
    request to the container of its level, which may raise. *)
Lemma rr_push_spec request priority h self :
  RoundRobinQueue.push P B request priority (h, self)
  = match scheduler_slot P request h with
    | (Return slot, h') =>
        (match refusal B slot (priority, _slot_as_path P slot) request self with
         | None => Return tt
         | Some e => Raise e
         end,
         (h', pushed_at B slot (priority, _slot_as_path P slot) request self))
    | (Raise e, h') => (Raise e, (h', self))
    end.
Proof.
  unfold RoundRobinQueue.push, bind, zoom at 1. simpl.
  destruct (scheduler_slot P request h) as [[slot|e] h']; simpl; [|done].
  unfold zoom, bind, get, pushed_at, refusal; simpl.
  destruct (dict_get (RoundRobinQueue.pqueues self) slot) as [q|] eqn:Hq; simpl.
  - unfold ret, RoundRobinQueue.on_pqueue. rewrite Hq.
    rewrite pq_push_cases. by destruct (push_error B _ _ request).
  - unfold lift_outcome, modify, RoundRobinQueue.on_pqueue; simpl.
    rewrite dict_get_set, decide_True by done. rewrite pq_push_cases.
    unfold RoundRobinQueue.set_pqueue; simpl.
    destruct (push_error B _ _ request); simpl; by rewrite dict_set_set.
Qed.

Lemma pushed_at_wf slot level request self :
  refusal B slot level request self = None →
  rr_wf self → rr_wf (pushed_at B slot level request self).
Proof.
  intros Hok [Hs Hk Hsame Hq]. unfold pushed_at. split; simpl.
  - destruct (dict_get (RoundRobinQueue.pqueues self) slot) eqn:Hget; [done|].
    apply dict_get_None in Hget. apply NoDup_app. split_and!; [done| |apply NoDup_singleton].
    intros x Hx ->%list_elem_of_singleton. by apply Hget, Hsame.
  - by apply dict_set_NoDup.
  - intros s. rewrite dict_set_keys.
    destruct (dict_get (RoundRobinQueue.pqueues self) slot) eqn:Hget.
    + rewrite decide_True; [done|]. apply dict_get_is_Some. eauto.
    + apply dict_get_None in Hget. rewrite decide_False by done.
      rewrite !elem_of_app, Hsame. done.
  - apply dict_set_Forall; [done|]. simpl. split; [|apply pq_push_nonempty].
    apply pq_push_wf; [done|].
    destruct (dict_get (RoundRobinQueue.pqueues self) slot) eqn:Hget; simpl.
    + apply dict_get_Some_elem in Hget. rewrite Forall_forall in Hq.
      by destruct (Hq _ Hget).
    + apply pq_wf_empty.
Qed.

(** [pop] on a well-formed queue: the rotation head has a queue, which
    yields an entry. *)
Lemma rr_pop_spec self slot rest :
  rr_wf self → RoundRobinQueue._slots self = slot :: rest →
  ∃ q m,
    dict_get (RoundRobinQueue.pqueues self) slot = Some q
    ∧ pq_wf q ∧ PriorityQueue.queues q ≠ []
    ∧ (PriorityQueue.pop B q).1 = Return m
    ∧ RoundRobinQueue.pop B self
      = (Return m, popped_at slot rest (PriorityQueue.pop B q).2 self).
Proof.
  intros [Hs Hk Hsame Hq] Hslots.
  assert (slot ∈ (RoundRobinQueue.pqueues self).*1) as Hin.
  { apply Hsame. rewrite Hslots. left. }
  apply dict_get_is_Some in Hin as [q Hget].
  assert (pq_wf q ∧ PriorityQueue.queues q ≠ []) as [Hwf Hne].
  { apply dict_get_Some_elem in Hget. rewrite Forall_forall in Hq. apply (Hq _ Hget). }
  destruct (pq_pop_len B q Hwf Hne) as (m & Hm & Hlen & _).
  exists q, m. split_and!; [done..|].
  unfold RoundRobinQueue.pop, bind, get. rewrite Hslots. unfold put. simpl.
  unfold RoundRobinQueue.on_pqueue at 1. simpl. rewrite Hget.
  destruct (PriorityQueue.pop B q) as [o q'] eqn:Hpop. simpl in *. subst o.
  simpl. rewrite dict_get_set, decide_True by done.
  pose proof (pq_pop_wf B q Hwf) as Hwf'. rewrite Hpop in Hwf'. simpl in Hwf'.
  unfold popped_at. case_decide as Hq'.
  - rewrite (pq_len_zero q' Hq'). simpl. unfold modify, ret, RoundRobinQueue.del_pqueue.
    simpl. by rewrite dict_del_set.
  - pose proof (pq_len_pos q' Hwf' Hq') as Hpos.
    destruct (PriorityQueue.__len__ q') eqn:Hl; [lia|]. simpl.
    unfold modify, ret, RoundRobinQueue.append_slot. simpl. done.
Qed.

Lemma rr_pop_empty self :
  RoundRobinQueue._slots self = [] → RoundRobinQueue.pop B self = (Return VNone, self).
Proof. intros H. unfold RoundRobinQueue.pop, bind, get. by rewrite H. Qed.

Lemma popped_at_wf self slot rest (q' : PriorityQueue.t) :
  rr_wf self → RoundRobinQueue._slots self = slot :: rest →
  pq_wf q' →
  rr_wf (popped_at slot rest q' self).
Proof.
  intros [Hs Hk Hsame Hq] Hslots Hwf'. rewrite Hslots in Hs, Hsame.
  apply NoDup_cons in Hs as [Hhd Hs].
  unfold popped_at. case_decide as Hq'; split; simpl.
  - done.
  - by apply dict_del_NoDup.
  - intros s. rewrite dict_del_keys_elem by done. rewrite <-Hsame, elem_of_cons.
    split; [|naive_solver]. intros Hin. split; [by right|]. by intros ->.
  - by apply dict_del_Forall.
  - apply NoDup_app. split_and!; [done| |apply NoDup_singleton].
    by intros x Hx ->%list_elem_of_singleton.
  - by apply dict_set_NoDup.
  - intros s. rewrite dict_set_keys, decide_True.
    + rewrite <-Hsame. set_solver.
    + apply Hsame. left.
  - by apply dict_set_Forall.
Qed.

Lemma rr_pop_wf self : rr_wf self → rr_wf (RoundRobinQueue.pop B self).2.
Proof.
  intros Hwf. destruct (RoundRobinQueue._slots self) as [|slot rest] eqn:Hslots.
  - by rewrite rr_pop_empty.
  - destruct (rr_pop_spec self slot rest Hwf Hslots) as (q & m & Hget & Hq & _ & _ & ->).
    simpl. eapply popped_at_wf; [done..|]. by apply pq_pop_wf.
Qed.

Lemma rr_close_spec self :
  ∃ startprios, RoundRobinQueue.close self = (Return startprios, RoundRobinQueue.mk [] []).
Proof.
  unfold RoundRobinQueue.close.
  assert (∀ items acc, ∃ sp, RoundRobinQueue.close_loop items acc = Return sp) as H.
  { induction items as [|[s q] items IH]; intros acc; simpl; eauto. }
  destruct (H (RoundRobinQueue.pqueues self) []) as [sp ->]. eauto.
Qed.

(** What a call that pushes logs and leaves. *)
Lemma step_push request priority h self :
  step P B (Push request priority) (h, self)
  = match scheduler_slot P request h with
    | (Return slot, h') =>
        (match refusal B slot (priority, _slot_as_path P slot) request self with
         | None => Pushed slot
         | Some e => Unstored slot e
         end,
         (h', pushed_at B slot (priority, _slot_as_path P slot) request self))
    | (Raise e, h') => (Failed e, (h', self))
    end.
Proof.
  unfold step. rewrite rr_push_spec. cbn [fst].
  destruct (scheduler_slot P request h) as [[slot|e] h']; [|done].
  by destruct (refusal B slot _ request self).
Qed.

(** Every call keeps the queue well formed, unless a container raises. *)
Lemma step_wf (o : op) (w : heap * RoundRobinQueue.t) :
  is_unstored (step P B o w).1 = false →
  rr_wf w.2 → rr_wf (step P B o w).2.2.
Proof.
  destruct w as [h self]. intros Hev Hwf. destruct o as [request priority| |].
  - rewrite step_push in Hev |- *.
    destruct (scheduler_slot P request h) as [[slot|e] h']; simpl; [|done].
    destruct (refusal B slot _ request self) eqn:Hok; [done|].
    by apply pushed_at_wf.
  - simpl in *. pose proof (rr_pop_wf self Hwf) as H.
    destruct (RoundRobinQueue.pop B self) as [[m|e] self']; done.
  - simpl. destruct (rr_close_spec self) as [sp ->]. simpl. apply rr_wf_empty.
Qed.

Lemma run_wf (ops : list op) (w : heap * RoundRobinQueue.t) :
  Forall (fun ev => is_unstored ev = false) (run P B ops w).1 →
  rr_wf w.2 → rr_wf (run P B ops w).2.2.
Proof.
  revert w. induction ops as [|o ops IH]; intros w Hev Hwf; simpl; [done|].
  simpl in Hev. pose proof (step_wf o w) as H1.
  destruct (step P B o w) as [ev w'].
  specialize (IH w'). destruct (run P B ops w') as [evs w''].
  simpl in *. apply Forall_cons in Hev as [Hev Hevs]. auto.
Qed.

(** On a backend that stores every push, no call is logged as unstored. *)
Lemma reliable_run (ops : list op) (w : heap * RoundRobinQueue.t) :
  reliable B → Forall (fun ev => is_unstored ev = false) (run P B ops w).1.
Proof.
  intros Hrel. revert w. induction ops as [|o ops IH]; intros w; simpl; [done|].
  assert (is_unstored (step P B o w).1 = false) as Hev.
  { destruct w as [h self]. destruct o as [request priority| |].
    - rewrite step_push.
      destruct (scheduler_slot P request h) as [[slot|e] h']; [|done].
      unfold refusal. by rewrite Hrel.
    - simpl. by destruct (RoundRobinQueue.pop B self) as [[m|e] self'].
    - simpl. by destruct (RoundRobinQueue.close self) as [[m|e] self']. }
  destruct (step P B o w) as [ev w'].
  specialize (IH w'). destruct (run P B ops w') as [evs w''].
  simpl in *. by constructor.
Qed.
End round_robin_facts.

(** ** What every call keeps, also when a container raises *)

Section dict_concat.
Context {K V A : Type} `{EqDecision K}.
Implicit Types (d : list (K * V)) (f : V → list A).

Lemma dict_set_concat f d k v v0 :
  dict_get d k = Some v0 →
  concat ((fun kv => f kv.2) <$> dict_set d k v) ++ f v0
  ≡ₚ concat ((fun kv => f kv.2) <$> d) ++ f v.
Proof.
  intros Hget. induction d as [|[k1 v1] d IH]; simpl in *; [done|].
  case_decide; simpl.
  - injection Hget as ->. rewrite <-!(assoc_L (++)).
    rewrite (Permutation_app_comm (f v)). rewrite !(assoc_L (++)).
    apply Permutation_app_tail, Permutation_app_comm.
  - rewrite <-!(assoc_L (++)). by rewrite (IH Hget).
Qed.

(** The value at [k] gains an element. *)
Lemma dict_set_concat_grow f d k v v0 a :
  dict_get d k = Some v0 → f v ≡ₚ a :: f v0 →
  concat ((fun kv => f kv.2) <$> dict_set d k v)
  ≡ₚ a :: concat ((fun kv => f kv.2) <$> d).
Proof.
  intros Hget Hperm. induction d as [|[k1 v1] d IH]; simpl in *; [done|].
  case_decide; simpl.
  - injection Hget as ->. by rewrite Hperm.
  - rewrite (IH Hget). by rewrite Permutation_middle.
Qed.

(** The value at [k] loses the elements [l]. *)
Lemma dict_set_concat_less f d k v v0 l :
  dict_get d k = Some v0 → f v0 ≡ₚ l ++ f v →
  concat ((fun kv => f kv.2) <$> d)
  ≡ₚ l ++ concat ((fun kv => f kv.2) <$> dict_set d k v).
Proof.
  intros Hget Hperm. induction d as [|[k1 v1] d IH]; simpl in *; [done|].
  case_decide; simpl.
  - injection Hget as ->. by rewrite Hperm, (assoc_L (++)).
  - rewrite (IH Hget). rewrite !(assoc_L (++)).
    apply Permutation_app_tail, Permutation_app_comm.
Qed.

(** The value at [k] loses an element. *)
Lemma dict_set_concat_shrink f d k v v0 a :
  dict_get d k = Some v0 → f v0 ≡ₚ a :: f v →
  concat ((fun kv => f kv.2) <$> d)
  ≡ₚ a :: concat ((fun kv => f kv.2) <$> dict_set d k v).
Proof. intros Hget Hperm. by apply (dict_set_concat_less f d k v v0 [a]). Qed.

Lemma dict_set_fresh_concat f d k v :
  dict_get d k = None →
  concat ((fun kv => f kv.2) <$> dict_set d k v)
  = concat ((fun kv => f kv.2) <$> d) ++ f v.
Proof.
  intros Hk%dict_get_None. rewrite dict_set_fresh by done.
  rewrite fmap_app, concat_app. simpl. by rewrite app_nil_r.
Qed.

Lemma dict_del_concat f d k v0 :
  dict_get d k = Some v0 →
  concat ((fun kv => f kv.2) <$> d)
  ≡ₚ f v0 ++ concat ((fun kv => f kv.2) <$> dict_del d k).
Proof.
  induction d as [|[k1 v1] d IH]; simpl; [done|].
  case_decide; simpl.
  - by intros [= ->].
  - intros H'. rewrite (IH H'). rewrite !(assoc_L (++)).
    apply Permutation_app_tail, Permutation_app_comm.
Qed.
End dict_concat.

(** The size counts the entries. *)
Lemma pq_len_entries (q : PriorityQueue.t) :
  PriorityQueue.__len__ q = length (pq_entries q).
Proof.
  unfold PriorityQueue.__len__, pq_entries.
  induction (PriorityQueue.queues q) as [|[p c] d IH]; simpl; [done|].
  rewrite length_app. by rewrite IH.
Qed.

Lemma rr_len_entries (self : RoundRobinQueue.t) :
  RoundRobinQueue.__len__ self = length (entries self).
Proof.
  unfold RoundRobinQueue.__len__, entries.
  induction (RoundRobinQueue.pqueues self) as [|[s q] d IH]; simpl; [done|].
  rewrite length_app, pq_len_entries. by rewrite IH.
Qed.

Lemma pq_ok_empty : pq_ok (PriorityQueue.mk [] None).
Proof. split; simpl; [apply NoDup_nil_2|done]. Qed.

Lemma rr_ok_empty : rr_ok (RoundRobinQueue.mk [] []).
Proof. split; simpl; [apply NoDup_nil_2|apply NoDup_nil_2|done|constructor]. Qed.

Lemma pq_wf_ok (q : PriorityQueue.t) : pq_wf q → pq_ok q.
Proof.
  intros [Hnd _ Hcur]. split; [done|]. intros c Hc. rewrite Hc in Hcur.
  symmetry in Hcur. by apply py_min_spec in Hcur as [? _].
Qed.

Lemma rr_wf_ok (self : RoundRobinQueue.t) : rr_wf self → rr_ok self.
Proof.
  intros [Hs Hk Hsame Hq]. split; [done..|].
  eapply Forall_impl; [done|]. intros sq [? _]. by apply pq_wf_ok.
Qed.

Section priority_queue_ok.
Variable B : backend.
Implicit Types (q : PriorityQueue.t) (obj : value) (p : prio).

Lemma pq_push_ok obj p q : pq_ok q → pq_ok (PriorityQueue.push B obj p q).2.
Proof.
  intros [Hnd Hcur]. rewrite pq_push_cases.
  destruct (push_error B p _ obj); split; simpl.
  - by apply dict_set_NoDup.
  - intros c Hc. rewrite dict_set_keys. case_decide; [by apply Hcur|].
    apply elem_of_app. left. by apply Hcur.
  - by apply dict_set_NoDup.
  - intros c [= <-]. rewrite dict_set_keys.
    destruct (PriorityQueue.curprio q) as [c0|] eqn:Hc0.
    + unfold min_step. destruct (prio_ltb p c0).
      * case_decide; [done|]. apply elem_of_app. right. left.
      * case_decide; [by apply Hcur|]. apply elem_of_app. left. by apply Hcur.
    + case_decide; [done|]. apply elem_of_app. right. left.
Qed.

(** What a push adds to the entries: the object when the container
    stores it, nothing when the container raises. *)
Lemma pq_push_entries_cases obj p q :
  (∀ level, qfactory B level = []) →
  pq_entries (PriorityQueue.push B obj p q).2
  ≡ₚ match (PriorityQueue.push B obj p q).1 with
     | Return _ => [obj]
     | Raise _ => []
     end ++ pq_entries q.
Proof.
  intros fresh. rewrite pq_push_cases. unfold pq_entries.
  destruct (dict_get (PriorityQueue.queues q) p) as [c|] eqn:Hc; simpl;
    destruct (push_error B p _ obj); simpl.
  - by rewrite (dict_set_same _ _ _ Hc).
  - apply (dict_set_concat_grow (fun c : list value => c) _ _ _ c); [done|].
    symmetry. apply Permutation_cons_append.
  - rewrite (dict_set_fresh_concat (fun c : list value => c)) by done.
    rewrite fresh. by rewrite app_nil_r.
  - rewrite (dict_set_fresh_concat (fun c : list value => c)) by done.
    rewrite fresh. simpl. symmetry. apply Permutation_cons_append.
Qed.

(** [pop] returns: an entry that it takes out of the queue, or [None]
    with every entry left where it was. *)
Lemma pq_pop_ok q :
  pq_ok q →
  ∃ m, (PriorityQueue.pop B q).1 = Return m
       ∧ pq_ok (PriorityQueue.pop B q).2
       ∧ (m ∈ pq_entries q ∧ pq_entries q ≡ₚ m :: pq_entries (PriorityQueue.pop B q).2
          ∨ m = VNone ∧ pq_entries q ≡ₚ pq_entries (PriorityQueue.pop B q).2).
Proof.
  intros [Hnd Hcur]. unfold PriorityQueue.pop.
  destruct (PriorityQueue.curprio q) as [c|] eqn:Hc.
  2: { exists VNone. simpl. split_and!; [done| |by right]. split; [done|].
       intros c. by rewrite Hc. }
  destruct (proj2 (dict_get_is_Some _ _) (Hcur c eq_refl)) as [cont Hcont].
  rewrite Hcont.
  destruct (decide (cont = [])) as [->|Hne].
  - exists VNone. assert (q_pop (lifo B) [] = (VNone, [])) as -> by (by destruct (lifo B)).
    simpl. split_and!; [done| |right; split; [done|]].
    + split; simpl; [by apply dict_del_NoDup|].
      intros c' Hc'. apply py_min_spec in Hc' as [Hin _].
      apply list_elem_of_fmap in Hin as ([p' c0] & -> & Hin).
      apply list_elem_of_filter in Hin as [_ Hin]. apply list_elem_of_fmap.
      by exists (p', c0).
    + unfold pq_entries.
      by rewrite (dict_del_concat (fun c : list value => c) _ _ _ Hcont).
  - destruct (q_pop_nonempty (lifo B) cont Hne) as (m & cont' & Hpop & Hm & _ & Hshape).
    rewrite Hpop. exists m.
    assert (cont ≡ₚ m :: cont') as Hperm.
    { destruct (lifo B); subst cont; [|done]. symmetry. apply Permutation_cons_append. }
    assert (m ∈ pq_entries q) as Hmq.
    { unfold pq_entries. apply list_elem_of_In, in_concat. exists cont.
      split; [|by apply list_elem_of_In]. apply list_elem_of_In, list_elem_of_fmap.
      exists (c, cont). split; [done|]. by apply dict_get_Some_elem. }
    destruct cont' as [|x cont']; simpl.
    + split_and!; [done| |left; split; [done|]].
      * split; simpl; [by apply dict_del_NoDup|].
        intros c' Hc'. apply py_min_spec in Hc' as [Hin _].
        apply list_elem_of_fmap in Hin as ([p' c0] & -> & Hin).
        apply list_elem_of_filter in Hin as [_ Hin]. apply list_elem_of_fmap.
        by exists (p', c0).
      * unfold pq_entries.
        rewrite (dict_del_concat (fun c : list value => c) _ _ _ Hcont).
        by rewrite Hperm.
    + split_and!; [done| |left; split; [done|]].
      * split; simpl; [by apply dict_set_NoDup|].
        intros c' [= <-]. rewrite dict_set_keys, decide_True; by apply Hcur.
      * unfold pq_entries.
        by apply (dict_set_concat_shrink (fun c : list value => c) _ _ _ cont).
Qed.
End priority_queue_ok.

Section round_robin_ok.
Variable P : platform.
Variable B : backend.
Implicit Types (self : RoundRobinQueue.t) (h : heap) (slot : string).

Lemma pushed_at_ok slot level request self :
  rr_ok self → rr_ok (pushed_at B slot level request self).
Proof.
  intros [Hs Hk Hsame Hq]. unfold pushed_at. split; simpl.
  - destruct (dict_get (RoundRobinQueue.pqueues self) slot) eqn:Hget; [done|].
    apply dict_get_None in Hget. apply NoDup_app. split_and!; [done| |apply NoDup_singleton].
    intros x Hx ->%list_elem_of_singleton. by apply Hget, Hsame.
  - by apply dict_set_NoDup.
  - intros s. rewrite dict_set_keys.
    destruct (dict_get (RoundRobinQueue.pqueues self) slot) eqn:Hget.
    + rewrite decide_True; [done|]. apply dict_get_is_Some. eauto.
    + apply dict_get_None in Hget. rewrite decide_False by done.
      rewrite !elem_of_app, Hsame. done.
  - apply dict_set_Forall; [done|]. simpl. apply pq_push_ok.
    destruct (dict_get (RoundRobinQueue.pqueues self) slot) eqn:Hget; simpl.
    + apply dict_get_Some_elem in Hget. rewrite Forall_forall in Hq.
      apply (Hq _ Hget).
    + apply pq_ok_empty.
Qed.


(** What [push] adds to the entries once the slot is resolved: the
    request when the container stores it, nothing when it raises. *)
Lemma pushed_at_entries_cases slot level request self :
  (∀ level, qfactory B level = []) →
  entries (pushed_at B slot level request self)
  ≡ₚ match refusal B slot level request self with
     | None => [request]
     | Some _ => []
     end ++ entries self.
Proof.
  intros fresh. unfold entries, pushed_at, refusal. simpl.
  set (q0 := default (PriorityQueue.mk [] None)
               (dict_get (RoundRobinQueue.pqueues self) slot)).
  pose proof (pq_push_entries_cases B request level q0 fresh) as HE.
  rewrite (pq_push_cases B request level q0) in HE at 2. cbv zeta in HE.
  set (l := match push_error B level _ request with
            | None => [request]
            | Some _ => []
            end).
  assert (pq_entries (PriorityQueue.push B request level q0).2 ≡ₚ l ++ pq_entries q0)
    as HE'.
  { rewrite HE. unfold l. by destruct (push_error B level _ request). }
  clear HE. subst q0.
  destruct (dict_get (RoundRobinQueue.pqueues self) slot) as [q|] eqn:Hget; simpl in *.
  - apply (Permutation_app_inv_r (pq_entries q)).
    rewrite (dict_set_concat pq_entries _ _ _ _ Hget), HE'.
    rewrite !(assoc_L (++)). apply Permutation_app_tail, Permutation_app_comm.
  - rewrite (dict_set_fresh_concat pq_entries) by done. rewrite HE'.
    unfold pq_entries at 2. simpl. rewrite app_nil_r. apply Permutation_app_comm.
Qed.

(** [pop] with a slot in the rotation: the slot has a queue, whose [pop]
    returns. *)
Lemma rr_pop_ok self slot rest :
  rr_ok self → RoundRobinQueue._slots self = slot :: rest →
  ∃ q m,
    dict_get (RoundRobinQueue.pqueues self) slot = Some q
    ∧ pq_ok q
    ∧ (PriorityQueue.pop B q).1 = Return m
    ∧ RoundRobinQueue.pop B self
      = (Return m, popped_to slot rest (PriorityQueue.pop B q).2 self).
Proof.
  intros [Hs Hk Hsame Hq] Hslots.
  assert (slot ∈ (RoundRobinQueue.pqueues self).*1) as Hin.
  { apply Hsame. rewrite Hslots. left. }
  apply dict_get_is_Some in Hin as [q Hget].
  assert (pq_ok q) as Hok.
  { apply dict_get_Some_elem in Hget. rewrite Forall_forall in Hq. apply (Hq _ Hget). }
  destruct (pq_pop_ok B q Hok) as (m & Hm & _).
  exists q, m. split_and!; [done..|].
  unfold RoundRobinQueue.pop, bind, get. rewrite Hslots. unfold put. simpl.
  unfold RoundRobinQueue.on_pqueue at 1. simpl. rewrite Hget.
  destruct (PriorityQueue.pop B q) as [o q'] eqn:Hpop. simpl in *. subst o.
  simpl. rewrite dict_get_set, decide_True by done.
  unfold popped_to. destruct (0 <? PriorityQueue.__len__ q'); simpl.
  - done.
  - unfold modify, ret, RoundRobinQueue.del_pqueue. simpl. by rewrite dict_del_set.
Qed.

Lemma popped_to_ok self slot rest (q' : PriorityQueue.t) :
  rr_ok self → RoundRobinQueue._slots self = slot :: rest →
  pq_ok q' →
  rr_ok (popped_to slot rest q' self).
Proof.
  intros [Hs Hk Hsame Hq] Hslots Hok'. rewrite Hslots in Hs, Hsame.
  apply NoDup_cons in Hs as [Hhd Hs].
  unfold popped_to. destruct (0 <? PriorityQueue.__len__ q'); split; simpl.
  - apply NoDup_app. split_and!; [done| |apply NoDup_singleton].
    by intros x Hx ->%list_elem_of_singleton.
  - by apply dict_set_NoDup.
  - intros s. rewrite dict_set_keys, decide_True.
    + rewrite <-Hsame. set_solver.
    + apply Hsame. left.
  - by apply dict_set_Forall.
  - done.
  - by apply dict_del_NoDup.
  - intros s. rewrite dict_del_keys_elem by done. rewrite <-Hsame, elem_of_cons.
    split; [|naive_solver]. intros Hin. split; [by right|]. by intros ->.
  - by apply dict_del_Forall.
Qed.

(** The entries that [pop] takes out of the queue of the slot leave the
    queue. *)
Lemma popped_to_entries self slot rest (q q' : PriorityQueue.t) (l : list value) :
  dict_get (RoundRobinQueue.pqueues self) slot = Some q →
  pq_entries q ≡ₚ l ++ pq_entries q' →
  entries self ≡ₚ l ++ entries (popped_to slot rest q' self).
Proof.
  intros Hget Hperm. unfold entries, popped_to.
  destruct (0 <? PriorityQueue.__len__ q') eqn:Hlen; simpl.
  - by apply (dict_set_concat_less pq_entries _ _ _ q).
  - apply Nat.ltb_ge in Hlen. rewrite pq_len_entries in Hlen.
    assert (pq_entries q' = []) as Hnil by (apply nil_length_inv; lia).
    rewrite Hnil, app_nil_r in Hperm.
    rewrite (dict_del_concat pq_entries _ _ _ Hget). by rewrite Hperm.
Qed.

Lemma rr_pop_keeps_ok self : rr_ok self → rr_ok (RoundRobinQueue.pop B self).2.
Proof.
  intros Hok. destruct (RoundRobinQueue._slots self) as [|slot rest] eqn:Hslots.
  - by rewrite rr_pop_empty.
  - destruct (rr_pop_ok self slot rest Hok Hslots) as (q & m & Hget & Hq & _ & ->).
    simpl. eapply popped_to_ok; [done..|].
    by destruct (pq_pop_ok B q Hq) as (? & _ & ? & _).
Qed.

Lemma step_ok (o : op) (w : heap * RoundRobinQueue.t) :
  rr_ok w.2 → rr_ok (step P B o w).2.2.
Proof.
  destruct w as [h self]. intros Hok. destruct o as [request priority| |].
  - rewrite step_push.
    destruct (scheduler_slot P request h) as [[slot|e] h']; simpl; [|done].
    by apply pushed_at_ok.
  - simpl in *. pose proof (rr_pop_keeps_ok self Hok) as H.
    destruct (RoundRobinQueue.pop B self) as [[m|e] self']; done.
  - simpl. destruct (rr_close_spec self) as [sp ->]. simpl. apply rr_ok_empty.
Qed.

End round_robin_ok.

(** ** Slot resolution on a value that is not a request *)

Lemma scheduler_slot_other_kind (P : platform) (h : heap) (v : value) :
  other_kind h v = true →
  scheduler_slot P v h = (Raise ValueError, <[fresh (dom h) := ODict ∅]> h).
Proof.
  intros Hv. unfold scheduler_slot, bind, new_dict. simpl.
  destruct v as [|n|s|l]; try done. simpl in *.
  destruct (h !! l) as [o|] eqn:Hl; [|done]. destruct o; try done.
  rewrite lookup_insert_ne, Hl; [done|].
  intros <-. pose proof (is_fresh (dom h)) as Hf.
  apply Hf, elem_of_dom. eauto.
Qed.

(** C7: for every value that is neither a [Request] nor a mapping, [push]
    raises [ValueError] (the error kind InvalidRequestKind), and the
    rotation and the map from slots to queues are exactly what they were
    before the call. *)
Theorem C7_push_rejects_other_kinds (P : platform) (B : backend) (h : heap)
    (self : RoundRobinQueue.t) (v : value) (priority : Z) :
  other_kind h v = true →
  ∃ h', RoundRobinQueue.push P B v priority (h, self) = (Raise ValueError, (h', self)).
Proof.
  intros Hv. rewrite rr_push_spec, (scheduler_slot_other_kind P h v Hv). eauto.
Qed.

Lemma C7_witness :
  other_kind sample_heap spider = true
  ∧ ∃ h', RoundRobinQueue.push sample_platform (memory_backend true) spider 0
            (sample_heap, pushed_at (memory_backend true) "a" (0%Z, "a") request_a empty_queue)
          = (Raise ValueError,
             (h', pushed_at (memory_backend true) "a" (0%Z, "a") request_a empty_queue)).
Proof.
  split; [reflexivity|].
  apply (C7_push_rejects_other_kinds sample_platform (memory_backend true)
           sample_heap _ spider 0).
  reflexivity.
Defined.

(** ** The rotation and the queues *)





(** ** Round-robin fairness *)






Lemma sample_queue_run :
  (run sample_platform (memory_backend true) sample_pushes
     (sample_heap, empty_queue)).2.2 = sample_queue.
Proof. vm_compute. reflexivity. Qed.

Lemma sample_queue_wf : rr_wf sample_queue.
Proof.
  rewrite <-sample_queue_run. apply run_wf; [|apply rr_wf_empty].
  by apply reliable_run.
Qed.


(** The rotation on the sample queue: four requests in two slots come out
    with each slot served once in every round of two. *)
Example round_robin_two_slots :
  popped_slots
    (run sample_platform (memory_backend true) (repeat Pop 5)
       (sample_heap, sample_queue)).1
  = [Some "a"; Some "b"; Some "a"; Some "b"; None].
Proof. vm_compute. reflexivity. Qed.

(** ** The size of the queue *)



Section size_facts.
Variable P : platform.
Variable B : backend.
Hypothesis fresh : ∀ level, qfactory B level = [].


Lemma pushed_at_entries (Q : value → Prop) slot level request self :
  all_entries Q self → Q request →
  all_entries Q (pushed_at B slot level request self).
Proof.
  intros Hall Hr. unfold all_entries, pushed_at; simpl.
  apply dict_set_Forall; [done|]. simpl.
  set (q0 := default (PriorityQueue.mk [] None)
               (dict_get (RoundRobinQueue.pqueues self) slot)).
  assert (Forall (fun pc => Forall Q pc.2) (PriorityQueue.queues q0)) as Hq0.
  { subst q0.
    destruct (dict_get (RoundRobinQueue.pqueues self) slot) as [q|] eqn:Hget; simpl.
    - apply dict_get_Some_elem in Hget. unfold all_entries in Hall.
      rewrite Forall_forall in Hall. apply (Hall _ Hget).
    - constructor. }
  assert (Forall Q (default (qfactory B level)
                      (dict_get (PriorityQueue.queues q0) level))) as Hc.
  { destruct (dict_get (PriorityQueue.queues q0) level) as [c|] eqn:Hc; simpl.
    - apply dict_get_Some_elem in Hc. rewrite Forall_forall in Hq0.
      apply (Hq0 _ Hc).
    - rewrite fresh. constructor. }
  rewrite pq_push_cases. destruct (push_error B level _ request); simpl.
  - by apply dict_set_Forall.
  - apply dict_set_Forall; [done|]. simpl.
    apply Forall_app. split; [done|by repeat constructor].
Qed.
End size_facts.

Section entries_facts.
Variable B : backend.

Lemma pq_pop_entries (Q : value → Prop) (q : PriorityQueue.t) :
  Forall (fun pc => Forall Q pc.2) (PriorityQueue.queues q) →
  Forall (fun pc => Forall Q pc.2) (PriorityQueue.queues (PriorityQueue.pop B q).2).
Proof.
  intros Hall. unfold PriorityQueue.pop.
  destruct (PriorityQueue.curprio q) as [c|]; [|done].
  destruct (dict_get (PriorityQueue.queues q) c) as [cont|] eqn:Hc; [|done].
  assert (Forall Q cont) as Hcont.
  { apply dict_get_Some_elem in Hc. rewrite Forall_forall in Hall. apply (Hall _ Hc). }
  destruct (q_pop (lifo B) cont) as [m cont'] eqn:Hpop.
  assert (Forall Q cont') as Hcont'.
  { unfold q_pop in Hpop. destruct (lifo B).
    - destruct (last cont) eqn:Hl; [|by injection Hpop as _ <-].
      injection Hpop as _ <-. rewrite Forall_forall in *. intros x Hx.
      apply Hcont. destruct (decide (cont = [])) as [->|Hne]; [done|].
      destruct (exists_last Hne) as (c0 & x0 & ->). rewrite removelast_last in Hx.
      set_solver.
    - destruct cont; injection Hpop as _ <-; [done|]. by apply Forall_cons in Hcont as [_ ?]. }
  destruct (length cont' =? 0); simpl.
  - by apply dict_del_Forall.
  - by apply dict_set_Forall.
Qed.

Lemma popped_to_all (Q : value → Prop) self slot rest q :
  all_entries Q self →
  dict_get (RoundRobinQueue.pqueues self) slot = Some q →
  all_entries Q (popped_to slot rest (PriorityQueue.pop B q).2 self).
Proof.
  intros Hall Hget. unfold all_entries, popped_to.
  destruct (0 <? PriorityQueue.__len__ _); simpl.
  - apply dict_set_Forall; [done|]. simpl. apply pq_pop_entries.
    apply dict_get_Some_elem in Hget. unfold all_entries in Hall.
    rewrite Forall_forall in Hall. apply (Hall _ Hget).
  - by apply dict_del_Forall.
Qed.

Lemma all_entries_elem (Q : value → Prop) self slot q m :
  all_entries Q self →
  dict_get (RoundRobinQueue.pqueues self) slot = Some q →
  m ∈ pq_entries q → Q m.
Proof.
  intros Hall Hget Hm. unfold all_entries in Hall.
  apply dict_get_Some_elem in Hget.
  rewrite Forall_forall in Hall. specialize (Hall _ Hget). simpl in Hall.
  unfold pq_entries in Hm. apply list_elem_of_In, in_concat in Hm as (c & Hc & Hm).
  apply list_elem_of_In, list_elem_of_fmap in Hc as ([p c'] & -> & Hc).
  rewrite Forall_forall in Hall. specialize (Hall _ Hc). simpl in Hall.
  rewrite Forall_forall in Hall. by apply Hall, list_elem_of_In.
Qed.

End entries_facts.

(** A value that [scheduler_slot] resolves is a reference to an object. *)
Lemma scheduler_slot_Return_ref (P : platform) (h h' : heap) (v : value) (slot : string) :
  scheduler_slot P v h = (Return slot, h') → v ≠ VNone.
Proof.
  intros H ->. by rewrite scheduler_slot_other_kind in H.
Qed.



Section size_invariant.
Variable P : platform.
Variable B : backend.
Hypothesis fresh : ∀ level, qfactory B level = [].


End size_invariant.




(** ** Pushes into one slot *)

Lemma dict_del_middle {K V : Type} `{EqDecision K} (d1 d2 : list (K * V)) (k : K) (v : V) :
  k ∉ d1.*1 → dict_del (d1 ++ (k, v) :: d2) k = d1 ++ d2.
Proof.
  induction d1 as [|[k0 v0] d1 IH]; simpl.
  - intros _. by rewrite decide_True.
  - rewrite not_elem_of_cons. intros [Hne Hk].
    rewrite decide_False by done. by rewrite IH.
Qed.

Lemma singles_keys (path : string) (l : list (value * Z)) :
  (singles path l).*1 = (fun p => (p, path)) <$> l.*2.
Proof. unfold singles. rewrite <-!list_fmap_compose. done. Qed.

Lemma singles_key_elem (path : string) (l : list (value * Z)) (p : Z) (path' : string) :
  (p, path') ∈ (singles path l).*1 ↔ p ∈ l.*2 ∧ path' = path.
Proof.
  rewrite singles_keys. split.
  - intros (p' & [= -> ->] & Hin)%list_elem_of_fmap. done.
  - intros [Hin ->]. apply list_elem_of_fmap. eauto.
Qed.

Lemma singles_NoDup (path : string) (l : list (value * Z)) :
  NoDup l.*2 → NoDup (singles path l).*1.
Proof.
  intros Hl. rewrite singles_keys. apply NoDup_fmap_2; [|done].
  by intros p1 p2 [= ->].
Qed.

Lemma singles_app (path : string) (l1 l2 : list (value * Z)) :
  singles path (l1 ++ l2) = singles path l1 ++ singles path l2.
Proof. unfold singles. by rewrite fmap_app. Qed.

Lemma single_slot_queue_wf (slot path : string) (l : list (value * Z)) :
  NoDup l.*2 → rr_wf (single_slot_queue slot path l).
Proof.
  intros Hl. destruct l as [|a l]; [apply rr_wf_empty|].
  unfold single_slot_queue. split; simpl.
  - apply NoDup_singleton.
  - apply NoDup_singleton.
  - done.
  - constructor; [|constructor]. simpl. split; [|done]. split; simpl.
    + by apply (singles_NoDup path (a :: l)).
    + constructor; [done|]. unfold singles. apply Forall_fmap, Forall_true. done.
    + done.
Qed.

Section one_slot.
Variable P : platform.
Variable B : backend.
Hypothesis fresh : ∀ level, qfactory B level = [].

(** A push of a new priority into the slot adds one container. *)
Lemma pushed_at_single slot path (l : list (value * Z)) (r : value) (p : Z) :
  refusal B slot (p, path) r (single_slot_queue slot path l) = None →
  p ∉ l.*2 →
  pushed_at B slot (p, path) r (single_slot_queue slot path l)
  = single_slot_queue slot path (l ++ [(r, p)]).
Proof.
  intros Hok Hp. unfold pushed_at. destruct l as [|a l].
  - simpl. rewrite pq_push_spec by exact Hok. simpl. by rewrite fresh.
  - unfold refusal in Hok.
    cbn [single_slot_queue RoundRobinQueue.pqueues dict_get] in Hok.
    rewrite decide_True in Hok by done. cbn [default] in Hok.
    assert (single_slot_queue slot path ((a :: l) ++ [(r, p)])
            = RoundRobinQueue.mk [slot]
                [(slot, PriorityQueue.mk (singles path ((a :: l) ++ [(r, p)]))
                          (py_min (singles path ((a :: l) ++ [(r, p)])).*1))]) as ->
      by done.
    cbn [single_slot_queue RoundRobinQueue.pqueues RoundRobinQueue._slots dict_get].
    rewrite decide_True by done. cbn [default dict_set]. rewrite decide_True by done.
    rewrite pq_push_spec by exact Hok. unfold id.
    cbn [PriorityQueue.queues PriorityQueue.curprio snd].
    assert (dict_get (singles path (a :: l)) (p, path) = None) as Hnone.
    { apply dict_get_None. rewrite singles_key_elem. by intros [? _]. }
    rewrite Hnone. cbn [default]. rewrite fresh.
    rewrite dict_set_fresh by (by apply dict_get_None).
    rewrite singles_app. change (singles path [(r, p)]) with [((p, path), [r])].
    rewrite fmap_app. change ([((p, path), [r])].*1) with [(p, path)].
    rewrite py_min_snoc. done.
Qed.

(** A run of pushes that all resolve [slot]. *)
Lemma run_pushes_single slot (pushes : list (value * Z)) :
  ∀ (h : heap) (l0 : list (value * Z)),
    NoDup (l0 ++ pushes).*2 →
    Forall (fun ev => ev = Pushed slot)
      (run P B (push_ops pushes)
         (h, single_slot_queue slot (_slot_as_path P slot) l0)).1 →
    (run P B (push_ops pushes)
       (h, single_slot_queue slot (_slot_as_path P slot) l0)).2.2
    = single_slot_queue slot (_slot_as_path P slot) (l0 ++ pushes).
Proof.
  induction pushes as [|[r p] pushes IH]; intros h l0 Hnd Hev.
  - simpl. by rewrite app_nil_r.
  - change (push_ops ((r, p) :: pushes)) with (Push r p :: push_ops pushes) in *.
    cbn [run] in Hev |- *. rewrite step_push in Hev |- *.
    destruct (scheduler_slot P r h) as [[s|e] h'] eqn:Hs; simpl in Hev |- *.
    + assert (NoDup ((l0 ++ [(r, p)]) ++ pushes).*2) as Hnd'
        by (by rewrite <-(assoc_L (++))).
      destruct (run P B (push_ops pushes)
                  (h', pushed_at B s (p, _slot_as_path P s) r
                         (single_slot_queue slot (_slot_as_path P slot) l0)))
        as [evs w] eqn:Hrun.
      simpl in Hev. apply Forall_cons in Hev as [Hev1 Hev].
      destruct (refusal B s _ r _) eqn:Hok; [done|]. injection Hev1 as ->.
      rewrite pushed_at_single in Hrun.
      * specialize (IH h' (l0 ++ [(r, p)]) Hnd'). rewrite Hrun in IH. simpl in *.
        rewrite (IH Hev). by rewrite <-(assoc_L (++)).
      * done.
      * rewrite fmap_app in Hnd. apply NoDup_app in Hnd as (_ & Hd & _).
        intros Hin. apply (Hd p Hin). simpl. left.
    + destruct (run P B (push_ops pushes)
                  (h', single_slot_queue slot (_slot_as_path P slot) l0)) as [evs w].
      simpl in Hev. by apply Forall_cons in Hev as [[=] _].
Qed.
End one_slot.

Section one_slot_pops.
Variable P : platform.
Variable B : backend.

(** [pop] on the queue of one slot returns the request of the smallest
    priority and leaves the others. *)
Lemma pop_single_min slot path (l : list (value * Z)) :
  NoDup l.*2 → l ≠ [] →
  ∃ r p l1 l2,
    l = l1 ++ (r, p) :: l2
    ∧ Forall (fun a => (p < a.2)%Z) (l1 ++ l2)
    ∧ RoundRobinQueue._slots (single_slot_queue slot path l) = [slot]
    ∧ RoundRobinQueue.pop B (single_slot_queue slot path l)
      = (Return r, single_slot_queue slot path (l1 ++ l2)).
Proof.
  intros Hnd Hne.
  pose proof (single_slot_queue_wf slot path l Hnd) as Hwf.
  assert (single_slot_queue slot path l
          = RoundRobinQueue.mk [slot]
              [(slot, PriorityQueue.mk (singles path l) (py_min (singles path l).*1))])
    as Hself by (by destruct l).
  rewrite Hself in Hwf |- *. clear Hself.
  set (Q := PriorityQueue.mk (singles path l) (py_min (singles path l).*1)) in *.
  destruct (rr_pop_spec B _ slot [] Hwf eq_refl) as (q & m & Hget & Hq & _ & Hm & ->).
  simpl in Hget. rewrite decide_True in Hget by done. injection Hget as <-.
  destruct (py_min (singles path l).*1) as [[p path']|] eqn:Hmin.
  2: { apply py_min_None, fmap_nil_inv, fmap_nil_inv in Hmin. done. }
  pose proof Hmin as [Hin Hleast]%py_min_spec.
  apply singles_key_elem in Hin as [Hp ->].
  apply list_elem_of_fmap in Hp as ([r p'] & [= <-] & Hrp).
  apply list_elem_of_split in Hrp as (l1 & l2 & ->).
  assert (p ∉ (l1 ++ l2).*2) as Hfresh.
  { rewrite !fmap_app, fmap_cons in Hnd. simpl in Hnd.
    apply NoDup_app in Hnd as (_ & Hd & [Hp2 _]%NoDup_cons).
    rewrite fmap_app, elem_of_app. intros [H1|H2]; [|done].
    apply (Hd p H1). left. }
  exists r, p, l1, l2. split; [done|]. split.
  { apply Forall_forall. intros [r' p'] Ha. simpl.
    assert (p' ≠ p).
    { intros ->. apply Hfresh, list_elem_of_fmap. by exists (r', p). }
    assert (prio_ltb (p', path) (p, path) = false) as Hlt.
    { apply Hleast, singles_key_elem. split; [|done].
      apply list_elem_of_fmap. exists (r', p'). split; [done|]. set_solver. }
    rewrite prio_ltb_same_path in Hlt. apply Z.ltb_ge in Hlt. lia. }
  split; [done|].
  assert (PriorityQueue.curprio Q = Some (p, path)) as Hcur by done.
  destruct (pq_pop_spec B Q (p, path) Hq Hcur) as (c & m' & c' & Hc & Hpop & _ & HQ).
  assert (c = [r]) as ->.
  { assert (dict_get (singles path (l1 ++ (r, p) :: l2)) (p, path) = Some [r]) as Hc'.
    { apply dict_get_elem; [by apply singles_NoDup|].
      apply (list_elem_of_fmap_2 (fun rp => ((rp.2, path), [rp.1])) _ (r, p)). set_solver. }
    simpl in Hc. congruence. }
  rewrite q_pop_single in Hpop. injection Hpop as <- <-.
  rewrite HQ in Hm |- *. injection Hm as <-. f_equal.
  rewrite decide_True by done. unfold Q. simpl.
  rewrite singles_app. simpl.
  rewrite dict_del_middle.
  2: { rewrite singles_key_elem. intros [Hp1 _]. apply Hfresh. rewrite fmap_app. set_solver. }
  rewrite <-singles_app. unfold popped_at. simpl.
  destruct (l1 ++ l2) as [|a l'] eqn:Hl'; simpl.
  - rewrite decide_True by done. simpl. by rewrite ?decide_True.
  - by rewrite decide_True.
Qed.

(** Popping the queue of one slot until it is empty sorts the requests by
    increasing priority. *)
Lemma pops_single_sorted (h : heap) slot path (n : nat) :
  ∀ l : list (value * Z), length l = n → NoDup l.*2 →
    ∃ sorted,
      Permutation sorted l
      ∧ StronglySorted (fun a b => (a.2 < b.2)%Z) sorted
      ∧ run P B (repeat Pop n) (h, single_slot_queue slot path l)
        = ((fun a => Popped (Some slot) a.1) <$> sorted, (h, empty_queue)).
Proof.
  induction n as [|n IH]; intros l Hlen Hnd.
  - apply nil_length_inv in Hlen as ->. exists []. split_and!; [done|constructor|done].
  - assert (l ≠ []) as Hne by (by intros ->).
    destruct (pop_single_min slot path l Hnd Hne)
      as (r & p & l1 & l2 & -> & Hleast & Hslots & Hpop).
    assert (length (l1 ++ l2) = n) as Hlen'.
    { rewrite length_app in Hlen |- *. simpl in Hlen. lia. }
    assert (NoDup (l1 ++ l2).*2) as Hnd'.
    { eapply sublist_NoDup; [done|]. apply (fmap_sublist snd).
      apply sublist_app; [done|]. by apply sublist_cons. }
    destruct (IH (l1 ++ l2) Hlen' Hnd') as (sorted & Hperm & Hsorted & Hrun).
    exists ((r, p) :: sorted). split_and!.
    + rewrite Hperm. apply Permutation_middle.
    + constructor; [done|]. by rewrite Hperm.
    + simpl. rewrite Hpop, Hslots. simpl. rewrite Hrun. done.
Qed.
End one_slot_pops.

(** C1, as the spec states it, strictly decreasing: false.  Two requests of
    one slot, pushed with priorities 1 and 2, come out in that order. *)
Lemma C1_counterexample :
  ¬ pops_ordered_by Z.gt sample_platform (memory_backend true) sample_heap "a"
      [(request_a, 1%Z); (request_b, 2%Z)].
Proof.
  intros H.
  destruct H as (sorted & Hperm & Hsorted & Hrun).
  - reflexivity.
  - vm_compute. repeat constructor; set_solver.
  - vm_compute. repeat constructor.
  - assert ((run sample_platform (memory_backend true)
               (repeat Pop (length [(request_a, 1%Z); (request_b, 2%Z)]))
               (run sample_platform (memory_backend true)
                  (push_ops [(request_a, 1%Z); (request_b, 2%Z)])
                  (sample_heap, empty_queue)).2).1
            = [Popped (Some "a") request_a; Popped (Some "a") request_b]) as Hpops
      by (vm_compute; reflexivity).
    rewrite Hpops in Hrun. clear Hpops.
    destruct sorted as [|a1 [|a2 [|a3 sorted]]]; try discriminate Hrun.
    injection Hrun as H1 H2.
    assert (a1 ∈ [(request_a, 1%Z); (request_b, 2%Z)]) as Ha1 by (rewrite <-Hperm; set_solver).
    assert (a2 ∈ [(request_a, 1%Z); (request_b, 2%Z)]) as Ha2 by (rewrite <-Hperm; set_solver).
    apply StronglySorted_inv in Hsorted as [_ Hgt]. apply Forall_cons in Hgt as [Hgt _].
    apply elem_of_cons in Ha1 as [->|Ha1]; [|apply list_elem_of_singleton in Ha1 as ->; done].
    apply elem_of_cons in Ha2 as [->|Ha2]; [done|].
    apply list_elem_of_singleton in Ha2 as ->. simpl in Hgt. lia.
Qed.

(** C1, amended: for every sequence of pushes of requests that all resolve
    one slot, with pairwise distinct priorities, into the empty queue (on a
    backend whose new containers are empty), popping until the queue is
    empty returns the requests in strictly increasing order of the priority
    passed to [push]: the smallest priority stored comes out first. *)
Theorem C1_pops_in_increasing_priority (P : platform) (B : backend) (h : heap)
    (slot : string) (pushes : list (value * Z)) :
  (∀ level, qfactory B level = []) →
  NoDup pushes.*2 →
  let r := run P B (push_ops pushes) (h, empty_queue) in
  Forall (fun ev => ev = Pushed slot) r.1 →
  ∃ sorted,
    Permutation sorted pushes
    ∧ StronglySorted (fun a b => (a.2 < b.2)%Z) sorted
    ∧ run P B (repeat Pop (length pushes)) r.2
      = ((fun a => Popped (Some slot) a.1) <$> sorted, (r.2.1, empty_queue)).
Proof.
  intros fresh Hnd r Hev.
  pose proof (run_pushes_single P B fresh slot pushes h [] Hnd Hev) as Hq.
  fold r in Hq. simpl in Hq.
  destruct (pops_single_sorted P B r.2.1 slot (_slot_as_path P slot) (length pushes)
              pushes eq_refl Hnd) as (sorted & Hperm & Hsorted & Hrun).
  exists sorted. split_and!; [done..|].
  rewrite <-Hq in Hrun. by rewrite <-surjective_pairing in Hrun.
Qed.

Lemma C1_witness :
  let pushes := [(request_a, (-2)%Z); (request_b, 1%Z); (request_a, (-1)%Z);
                 (request_b, 0%Z); (request_a, 2%Z)] in
  let r := run sample_platform (memory_backend false) (push_ops pushes)
             (sample_heap, empty_queue) in
  (∀ level, qfactory (memory_backend false) level = [])
  ∧ NoDup pushes.*2
  ∧ Forall (fun ev => ev = Pushed "a") r.1
  ∧ ∃ sorted,
      Permutation sorted pushes
      ∧ StronglySorted (fun a b => (a.2 < b.2)%Z) sorted
      ∧ run sample_platform (memory_backend false) (repeat Pop (length pushes)) r.2
        = ((fun a => Popped (Some "a") a.1) <$> sorted, (r.2.1, empty_queue)).
Proof.
  intros pushes r.
  assert (NoDup pushes.*2) as Hnd by (apply (bool_decide_unpack _); by vm_compute).
  assert (Forall (fun ev => ev = Pushed "a") r.1) as Hev
    by (vm_compute; repeat constructor).
  split_and!; [reflexivity|exact Hnd|exact Hev|].
  exact (C1_pops_in_increasing_priority sample_platform (memory_backend false)
           sample_heap "a" pushes (fun _ => eq_refl) Hnd Hev).
Defined.

(** The priorities -2, 1, -1, 0, 2 passed to [push] come out as -2, -1, 0,
    1, 2; the scheduler, which wants the request of the highest priority
    first, passes the priority of the request negated. *)
Example pops_of_five_priorities :
  popped_requests
    (run sample_platform (memory_backend false)
       (push_ops [(request_a, (-2)%Z); (request_b, 1%Z); (request_a, (-1)%Z);
                  (request_b, 0%Z); (request_a, 2%Z)] ++ repeat Pop 5)
       (sample_heap, empty_queue)).1
  = [request_a; request_a; request_b; request_b; request_a].
Proof. vm_compute. reflexivity. Qed.

(** ** Close and reopen *)

Lemma tuples_prio_data (ps : list prio) :
  tuples (DList (prio_data <$> ps)) = Return ps.
Proof.
  assert (mapM (fun x => py_iter x ≫= as_prio) (prio_data <$> ps) = Some ps) as H.
  { apply mapM_Some, Forall2_fmap_l, Forall_Forall2_diag, Forall_forall.
    by intros [n s] _. }
  unfold tuples. cbn [py_iter]. by rewrite H.
Qed.

Lemma tuples_via_json (ps : list prio) :
  tuples (via_json (DList (prio_data <$> ps))) = Return ps.
Proof.
  assert (mapM (fun x => py_iter x ≫= as_prio) (via_json <$> (prio_data <$> ps)) = Some ps)
    as H.
  { apply mapM_Some. rewrite <-list_fmap_compose.
    apply Forall2_fmap_l, Forall_Forall2_diag, Forall_forall.
    by intros [n s] _. }
  unfold tuples. cbn [via_json py_iter]. by rewrite H.
Qed.

Section reopen.
Variable B' : backend.

(** The containers that the factory hands out on reopening are the ones
    that were closed. *)
Lemma foldl_reattach (d acc : list (prio * list value)) :
  NoDup (acc ++ d).*1 →
  (∀ level c, (level, c) ∈ d → qfactory B' level = c) →
  foldl (fun qs p => dict_set qs p (qfactory B' p)) acc d.*1 = acc ++ d.
Proof.
  revert acc. induction d as [|[p c] d IH]; intros acc Hnd Hqf; simpl.
  - by rewrite app_nil_r.
  - rewrite (Hqf p c) by left. rewrite dict_set_fresh.
    + rewrite IH.
      * by rewrite <-(assoc_L (++)).
      * by rewrite <-(assoc_L (++)).
      * intros level c' Hin. apply Hqf. by right.
    + rewrite fmap_app in Hnd. apply NoDup_app in Hnd as (_ & Hd & _).
      intros Hin. apply (Hd p Hin). left.
Qed.

Lemma new_pq_of_active (q : PriorityQueue.t) (enc : data) :
  tuples enc = Return (PriorityQueue.active q) →
  pq_wf q →
  (∀ level c, (level, c) ∈ PriorityQueue.queues q → qfactory B' level = c) →
  PriorityAsTupleQueue.new B' enc = Return q.
Proof.
  intros Henc [Hnd Hne Hcur] Hqf.
  unfold PriorityAsTupleQueue.new, PriorityAsTupleQueue.__init__. rewrite Henc.
  unfold PriorityQueue.active. rewrite filter_nonempty_keys by done.
  rewrite (foldl_reattach (PriorityQueue.queues q) []) by done. simpl.
  rewrite <-Hcur. by destruct q.
Qed.

Lemma init_loop_spec (enc : data → data) (pqs : list (string * PriorityQueue.t)) :
  (∀ ps, tuples (enc (DList (prio_data <$> ps))) = Return ps) →
  ∀ (slots : list string) (qs : list (string * PriorityQueue.t)),
    NoDup (qs ++ pqs).*1 →
    Forall (fun sq => pq_wf sq.2) pqs →
    (∀ level c, (level, c) ∈ RoundRobinQueue.stored (RoundRobinQueue.mk [] pqs) →
                qfactory B' level = c) →
    RoundRobinQueue.init_loop B'
      ((fun sq => (sq.1, enc (snapshot_item sq).2)) <$> pqs)
      (RoundRobinQueue.mk slots qs)
    = (Return tt, RoundRobinQueue.mk (slots ++ pqs.*1) (qs ++ pqs)).
Proof.
  intros Henc. induction pqs as [|[slot q] pqs IH]; intros slots qs Hnd Hwf Hqf; simpl.
  - by rewrite !app_nil_r.
  - apply Forall_cons in Hwf as [Hq Hwf]. simpl in Hq.
    unfold bind, modify, lift_outcome. simpl.
    rewrite (new_pq_of_active q); [|apply Henc|done|].
    2: { intros level c Hin. apply Hqf. unfold RoundRobinQueue.stored. simpl.
         rewrite elem_of_app. by left. }
    unfold RoundRobinQueue.set_pqueue, RoundRobinQueue.append_slot. simpl.
    rewrite dict_set_fresh.
    2: { rewrite fmap_app in Hnd. apply NoDup_app in Hnd as (_ & Hd & _).
         intros Hin. apply (Hd slot Hin). left. }
    rewrite IH.
    + by rewrite <-!(assoc_L (++)).
    + by rewrite <-(assoc_L (++)).
    + done.
    + intros level c Hin. apply Hqf. unfold RoundRobinQueue.stored in *. simpl in *.
      rewrite elem_of_app. by right.
Qed.
End reopen.

Lemma close_loop_spec (pqs : list (string * PriorityQueue.t)) :
  ∀ acc : list (string * data),
    NoDup (acc.*1 ++ pqs.*1) →
    RoundRobinQueue.close_loop pqs acc = Return (acc ++ (snapshot_item <$> pqs)).
Proof.
  induction pqs as [|[slot q] pqs IH]; intros acc Hnd; simpl.
  - by rewrite app_nil_r.
  - rewrite dict_set_fresh.
    + rewrite IH; [by rewrite <-(assoc_L (++))|].
      rewrite fmap_app. simpl. by rewrite <-(assoc_L (++)).
    + apply NoDup_app in Hnd as (_ & Hd & _). intros Hin. apply (Hd slot Hin). left.
Qed.

(** After pushes alone, the rotation lists the slots in the order of
    [pqueues]. *)
Lemma run_pushes_rotation (P : platform) (B : backend) (pushes : list (value * Z)) :
  ∀ (h : heap) (self : RoundRobinQueue.t),
    RoundRobinQueue._slots self = (RoundRobinQueue.pqueues self).*1 →
    let self' := (run P B (push_ops pushes) (h, self)).2.2 in
    RoundRobinQueue._slots self' = (RoundRobinQueue.pqueues self').*1.
Proof.
  induction pushes as [|[r p] pushes IH]; intros h self Hrot; [done|].
  change (push_ops ((r, p) :: pushes)) with (Push r p :: push_ops pushes).
  cbn [run]. rewrite step_push.
  destruct (scheduler_slot P r h) as [[slot|e] h']; simpl.
  - specialize (IH h' (pushed_at B slot (p, _slot_as_path P slot) r self)).
    destruct (run P B (push_ops pushes)
                (h', pushed_at B slot (p, _slot_as_path P slot) r self)) as [evs w].
    simpl in *. apply IH. unfold pushed_at; simpl. rewrite dict_set_keys, Hrot.
    destruct (dict_get (RoundRobinQueue.pqueues self) slot) eqn:Hget.
    + rewrite decide_True; [done|]. apply dict_get_is_Some. eauto.
    + rewrite decide_False; [done|]. by apply dict_get_None.
  - specialize (IH h' self Hrot).
    destruct (run P B (push_ops pushes) (h', self)) as [evs w]. done.
Qed.

Lemma push_ops_run_wf (P : platform) (B : backend) (pushes : list (value * Z)) (h : heap) :
  Forall (fun ev => is_unstored ev = false)
    (run P B (push_ops pushes) (h, empty_queue)).1 →
  rr_wf (run P B (push_ops pushes) (h, empty_queue)).2.2.
Proof. intros Hev. by apply run_wf; [|apply rr_wf_empty]. Qed.

(** [pop] reads the discipline of the backend and nothing else of it. *)
Lemma pop_same_discipline (B B' : backend) (self : RoundRobinQueue.t) :
  lifo B' = lifo B → RoundRobinQueue.pop B' self = RoundRobinQueue.pop B self.
Proof.
  intros Hl. unfold RoundRobinQueue.pop, bind, get.
  destruct (RoundRobinQueue._slots self) as [|slot rest]; [done|]. simpl.
  unfold RoundRobinQueue.on_pqueue. simpl.
  destruct (dict_get (RoundRobinQueue.pqueues self) slot) as [q|]; [|done].
  assert (PriorityQueue.pop B' q = PriorityQueue.pop B q) as ->; [|done].
  unfold PriorityQueue.pop. by rewrite Hl.
Qed.

Lemma run_pops_same_discipline (P : platform) (B B' : backend) (n : nat) :
  lifo B' = lifo B →
  ∀ w, run P B' (repeat Pop n) w = run P B (repeat Pop n) w.
Proof.
  intros Hl. induction n as [|n IH]; intros w; simpl; [done|].
  rewrite (pop_same_discipline B B' w.2 Hl).
  destruct (RoundRobinQueue.pop B w.2) as [[m|e] self']; by rewrite IH.
Qed.

Lemma new_of_snapshot (B' : backend) (enc : data → data) (self : RoundRobinQueue.t) :
  (∀ ps, tuples (enc (DList (prio_data <$> ps))) = Return ps) →
  rr_wf self →
  RoundRobinQueue._slots self = (RoundRobinQueue.pqueues self).*1 →
  (∀ level c, (level, c) ∈ RoundRobinQueue.stored self → qfactory B' level = c) →
  RoundRobinQueue.new B'
    (DDict ((fun sq => (sq.1, enc (snapshot_item sq).2)) <$> RoundRobinQueue.pqueues self))
  = Return self.
Proof.
  intros Henc [Hs Hk _ Hq] Hrot Hqf. destruct self as [slots pqs].
  cbn [RoundRobinQueue._slots RoundRobinQueue.pqueues] in *. subst slots.
  unfold RoundRobinQueue.new, RoundRobinQueue.__init__, bind, put.
  destruct pqs as [|sq pqs]; [done|].
  pose proof (init_loop_spec B' enc (sq :: pqs) Henc [] []) as Hinit.
  rewrite fmap_cons in Hinit |- *. cbn [data_truthy is_dict negb length Nat.eqb].
  rewrite Hinit; [done|done| |done].
  eapply Forall_impl; [done|]. by intros ? [? _].
Qed.

(** C4: after any sequence of pushes into the empty queue in which no
    container raised, [close] returns
    a snapshot from which the constructor, given a factory that hands out
    the containers that were closed (and the same discipline), rebuilds
    the very queue that was closed, also when the snapshot went through a
    JSON file; so that the pops of the reopened queue return the requests
    that the pops of the original queue would have returned, in the same
    order. *)
Theorem C4_close_reopen_round_trip (P : platform) (B B' : backend) (h : heap)
    (pushes : list (value * Z)) :
  let r := run P B (push_ops pushes) (h, empty_queue) in
  let w := r.2 in
  Forall (fun ev => is_unstored ev = false) r.1 →
  lifo B' = lifo B →
  (∀ level c, (level, c) ∈ RoundRobinQueue.stored w.2 → qfactory B' level = c) →
  ∃ startprios reopened,
    RoundRobinQueue.close w.2 = (Return startprios, empty_queue)
    ∧ RoundRobinQueue.new B' startprios = Return reopened
    ∧ RoundRobinQueue.new B' (via_json startprios) = Return reopened
    ∧ reopened = w.2
    ∧ ∀ n, (run P B' (repeat Pop n) (w.1, reopened)).1
           = (run P B (repeat Pop n) w).1.
Proof.
  intros r w Hev Hl Hqf.
  assert (rr_wf w.2) as Hwf by (by apply push_ops_run_wf).
  assert (RoundRobinQueue._slots w.2 = (RoundRobinQueue.pqueues w.2).*1) as Hrot.
  { by apply (run_pushes_rotation P B pushes h empty_queue). }
  exists (DDict (snapshot_item <$> RoundRobinQueue.pqueues w.2)), w.2.
  split_and!.
  - unfold RoundRobinQueue.close. rewrite (close_loop_spec _ []); [done|].
    by destruct Hwf.
  - apply (new_of_snapshot B' id w.2); [apply tuples_prio_data|done..].
  - assert (via_json (DDict (snapshot_item <$> RoundRobinQueue.pqueues w.2))
            = DDict ((fun sq => (sq.1, via_json (snapshot_item sq).2))
                       <$> RoundRobinQueue.pqueues w.2)) as ->.
    { cbn [via_json]. f_equal. rewrite <-list_fmap_compose.
      apply list_fmap_ext. by intros i [slot q] _. }
    by apply (new_of_snapshot B' via_json w.2 tuples_via_json).
  - done.
  - intros n. rewrite (run_pops_same_discipline P B B' n Hl).
    by rewrite <-surjective_pairing.
Qed.

Lemma C4_witness :
  let B := disk_backend true [] in
  let pushes := [(request_a, 0%Z); (request_c, 0%Z); (request_b, 1%Z); (request_d, 0%Z)] in
  let w := (run sample_platform B (push_ops pushes) (sample_heap, empty_queue)).2 in
  let B' := disk_backend true (RoundRobinQueue.stored w.2) in
  Forall (fun ev => is_unstored ev = false)
    (run sample_platform B (push_ops pushes) (sample_heap, empty_queue)).1
  ∧ lifo B' = lifo B
  ∧ (∀ level c, (level, c) ∈ RoundRobinQueue.stored w.2 → qfactory B' level = c)
  ∧ ∃ startprios reopened,
      RoundRobinQueue.close w.2 = (Return startprios, empty_queue)
      ∧ RoundRobinQueue.new B' startprios = Return reopened
      ∧ RoundRobinQueue.new B' (via_json startprios) = Return reopened
      ∧ reopened = w.2
      ∧ ∀ n, (run sample_platform B' (repeat Pop n) (w.1, reopened)).1
             = (run sample_platform B (repeat Pop n) w).1.
Proof.
  intros B pushes w B'.
  assert (∀ level c, (level, c) ∈ RoundRobinQueue.stored w.2 → qfactory B' level = c)
    as Hqf.
  { intros level c Hin. vm_compute in Hin.
    repeat (apply elem_of_cons in Hin as [[= -> ->]|Hin]; [vm_compute; reflexivity|]).
    by apply elem_of_nil in Hin. }
  assert (Forall (fun ev => is_unstored ev = false)
            (run sample_platform B (push_ops pushes) (sample_heap, empty_queue)).1)
    as Hev by (vm_compute; repeat constructor).
  split_and!; [exact Hev|reflexivity|exact Hqf|].
  exact (C4_close_reopen_round_trip sample_platform B B' sample_heap pushes Hev
           eq_refl Hqf).
Defined.

(** ** Reopening from a snapshot that is not a mapping *)

(** C5, as the spec states it, for every value that is not a mapping:
    false.  The empty list, which is the snapshot that the plain priority
    queue of the previous version leaves when nothing is pending, is
    accepted, and the queue starts empty. *)
Lemma C5_counterexample :
  ¬ rejects_non_mapping (memory_backend true) (DList []).
Proof. intros H. specialize (H eq_refl). discriminate H. Qed.

(** C5, amended: for every snapshot value that is not a mapping, the
    constructor raises [ValueError] (MalformedSnapshotKind) when the value
    is true in Python's sense (a non-empty list, a non-zero number, a
    non-empty string), and then leaves the rotation empty and creates no
    queue; a false value ([None], an empty list, 0, the empty string)
    passes the test [if not startprios] first, and the constructor returns
    an empty queue. *)
Theorem C5_non_mapping_snapshot (B : backend) (d : data) (self : RoundRobinQueue.t) :
  is_dict d = false →
  RoundRobinQueue.__init__ B d self
  = (if data_truthy d then Raise ValueError else Return tt, empty_queue).
Proof.
  intros Hd. unfold RoundRobinQueue.__init__, bind, put, raise, ret.
  destruct (data_truthy d); simpl; [|done]. by rewrite Hd.
Qed.

Lemma C5_witness :
  is_dict (DList [DInt 0; DInt (-1)]) = false
  ∧ RoundRobinQueue.__init__ (memory_backend true) (DList [DInt 0; DInt (-1)])
      sample_queue
    = (Raise ValueError, empty_queue).
Proof.
  split; [reflexivity|].
  exact (C5_non_mapping_snapshot (memory_backend true) (DList [DInt 0; DInt (-1)])
           sample_queue eq_refl).
Defined.

(** A mapping whose values are not lists of priority keys is another
    matter: the loop has entered the slot into the rotation when the
    queue of the slot fails to build. *)
Example mapping_of_wrong_shape :
  RoundRobinQueue.__init__ (memory_backend true) (DDict [("a", DInt 4)]) empty_queue
  = (Raise TypeError, RoundRobinQueue.mk ["a"] []).
Proof. reflexivity. Qed.

(** ** Slot resolution and the metadata of the request *)

Section slot_resolution.
Variable P : platform.

(** With metadata that holds no override, the target is parsed: the
    host goes into the metadata, unless [urlparse] raises, and then
    nothing is written. *)
Lemma scheduler_slot_parses (h : heap) (request : value) (lm : loc)
    (url : string) (m : gmap string value) :
  has_meta h request lm url →
  h !! lm = Some (ODict m) →
  default VNone (m !! SCHEDULER_SLOT_META_KEY) = VNone →
  let host := default "" (hostname P url) in
  scheduler_slot P request h
  = if invalid_url P url
    then (Raise ValueError, <[fresh (dom h) := ODict ∅]> h)
    else (Return host,
          <[lm := ODict (<[SCHEDULER_SLOT_META_KEY := VStr host]> m)]>
            (<[fresh (dom h) := ODict ∅]> h)).
Proof.
  intros Hreq Hlm Hnone host. destruct request as [| | |l]; try done.
  destruct Hreq as [Hne Hreq].
  assert (fresh (dom h) ≠ lm) as Hf1.
  { intros <-. apply (is_fresh (dom h)), elem_of_dom. eauto. }
  destruct (h !! l) as [o|] eqn:Hl; [|done].
  assert (fresh (dom h) ≠ l) as Hf2.
  { intros <-. apply (is_fresh (dom h)), elem_of_dom. eauto. }
  unfold scheduler_slot, bind, new_dict, _get_from_request.
  rewrite lookup_insert_ne, Hl by done.
  destruct o as [d|r|cls]; [| |done].
  - destruct Hreq as [Hmeta Hurl]. rewrite Hmeta.
    unfold dict_get_method. rewrite lookup_insert_ne, Hlm by done.
    destruct (m !! SCHEDULER_SLOT_META_KEY) as [v|] eqn:Hk; simpl in Hnone; subst;
      rewrite lookup_insert_ne, Hl, Hurl by done; simpl;
      (destruct (invalid_url P url); [done|]); simpl;
      unfold dict_setitem; by rewrite lookup_insert_ne, Hlm by done.
  - destruct Hreq as [Hmeta Hurl]. simpl. rewrite Hmeta.
    unfold dict_get_method. rewrite lookup_insert_ne, Hlm by done.
    destruct (m !! SCHEDULER_SLOT_META_KEY) as [v|] eqn:Hk; simpl in Hnone; subst;
      rewrite lookup_insert_ne, Hl by done; simpl;
      (destruct (invalid_url P _); [done|]); simpl;
      unfold dict_setitem; by rewrite lookup_insert_ne, Hlm by done.
Qed.

Lemma scheduler_slot_writes_back (h : heap) (request : value) (lm : loc)
    (url : string) (m : gmap string value) :
  has_meta h request lm url →
  h !! lm = Some (ODict m) →
  default VNone (m !! SCHEDULER_SLOT_META_KEY) = VNone →
  invalid_url P url = false →
  let host := default "" (hostname P url) in
  scheduler_slot P request h
  = (Return host,
     <[lm := ODict (<[SCHEDULER_SLOT_META_KEY := VStr host]> m)]>
       (<[fresh (dom h) := ODict ∅]> h)).
Proof.
  intros Hreq Hlm Hnone Hvalid host.
  pose proof (scheduler_slot_parses h request lm url m Hreq Hlm Hnone) as H.
  cbv zeta in H. by rewrite Hvalid in H.
Qed.

(** A mapping without metadata: the host goes into the new dictionary
    that was the default of [meta]. *)
Lemma scheduler_slot_no_meta (h : heap) (l : loc) (d : gmap string value)
    (url : string) :
  h !! l = Some (ODict d) →
  d !! "meta" = None →
  d !! "url" = Some (VStr url) →
  let host := default "" (hostname P url) in
  let h1 := <[fresh (dom h) := ODict ∅]> h in
  scheduler_slot P (VRef l) h
  = if invalid_url P url
    then (Raise ValueError, h1)
    else (Return host,
          <[fresh (dom h) := ODict {[ SCHEDULER_SLOT_META_KEY := VStr host ]}]> h1).
Proof.
  intros Hl Hmeta Hurl host h1.
  assert (fresh (dom h) ≠ l) as Hf.
  { intros <-. apply (is_fresh (dom h)), elem_of_dom. eauto. }
  unfold scheduler_slot, bind, new_dict, _get_from_request. fold h1.
  assert (h1 !! l = Some (ODict d)) as Hl1 by (unfold h1; by rewrite lookup_insert_ne).
  assert (h1 !! fresh (dom h) = Some (ODict ∅)) as Hf1
    by (unfold h1; by rewrite lookup_insert_eq).
  rewrite Hl1, Hmeta. unfold dict_get_method. rewrite Hf1, lookup_empty.
  rewrite Hl1, Hurl. cbn [urlparse_hostname].
  destruct (invalid_url P url); [done|].
  unfold dict_setitem. rewrite Hf1. cbn [ret py_str]. fold host.
  by rewrite insert_empty.
Qed.

(** With an override in the metadata, the slot is the override and the
    request is left as it is. *)
Lemma scheduler_slot_override (h : heap) (request : value) (lm : loc)
    (url slot : string) (m : gmap string value) :
  has_meta h request lm url →
  h !! lm = Some (ODict m) →
  m !! SCHEDULER_SLOT_META_KEY = Some (VStr slot) →
  scheduler_slot P request h = (Return slot, <[fresh (dom h) := ODict ∅]> h).
Proof.
  intros Hreq Hlm Hslot. destruct request as [| | |l]; try done.
  destruct Hreq as [Hne Hreq].
  assert (fresh (dom h) ≠ lm) as Hf1.
  { intros <-. apply (is_fresh (dom h)), elem_of_dom. eauto. }
  destruct (h !! l) as [o|] eqn:Hl; [|done].
  assert (fresh (dom h) ≠ l) as Hf2.
  { intros <-. apply (is_fresh (dom h)), elem_of_dom. eauto. }
  unfold scheduler_slot, bind, new_dict, _get_from_request.
  rewrite lookup_insert_ne, Hl by done.
  destruct o as [d|r|cls]; [| |done].
  - destruct Hreq as [Hmeta Hurl]. rewrite Hmeta.
    unfold dict_get_method. rewrite lookup_insert_ne, Hlm, Hslot by done. done.
  - destruct Hreq as [Hmeta Hurl]. simpl. rewrite Hmeta.
    unfold dict_get_method. rewrite lookup_insert_ne, Hlm, Hslot by done. done.
Qed.
End slot_resolution.

Section slot_stability.
Variable P : platform.

(** A request that carries its metadata: the host is written back, an
    observer reads it, and every later resolution returns it. *)
Lemma scheduler_slot_stable (h : heap) (request : value) (lm : loc)
    (url : string) (m : gmap string value) :
  has_meta h request lm url →
  h !! lm = Some (ODict m) →
  default VNone (m !! SCHEDULER_SLOT_META_KEY) = VNone →
  invalid_url P url = false →
  let host := default "" (hostname P url) in
  let h' := (scheduler_slot P request h).2 in
  (scheduler_slot P request h).1 = Return host
  ∧ observed_slot h' request = VStr host
  ∧ (scheduler_slot P request h').1 = Return host.
Proof.
  intros Hreq Hlm Hnone Hvalid host h'.
  pose proof (scheduler_slot_writes_back P h request lm url m Hreq Hlm Hnone Hvalid)
    as Hfirst.
  fold host in Hfirst. subst h'. rewrite Hfirst. simpl.
  destruct request as [| | |l]; try done. destruct Hreq as [Hne Hreq].
  assert (fresh (dom h) ≠ lm) as Hf1.
  { intros <-. apply (is_fresh (dom h)), elem_of_dom. eauto. }
  destruct (h !! l) as [o|] eqn:Hl; [|done].
  assert (fresh (dom h) ≠ l) as Hf2.
  { intros <-. apply (is_fresh (dom h)), elem_of_dom. eauto. }
  set (h2 := <[lm := ODict (<[SCHEDULER_SLOT_META_KEY := VStr host]> m)]>
               (<[fresh (dom h) := ODict ∅]> h)).
  assert (h2 !! l = Some o) as Hl2.
  { unfold h2. by rewrite !lookup_insert_ne. }
  assert (h2 !! lm = Some (ODict (<[SCHEDULER_SLOT_META_KEY := VStr host]> m))) as Hlm2.
  { unfold h2. by rewrite lookup_insert_eq. }
  split; [done|]. split.
  - unfold observed_slot. rewrite Hl2. destruct o as [d|r|cls]; [| |done].
    + destruct Hreq as [-> _]. rewrite Hlm2. by rewrite lookup_insert_eq.
    + destruct Hreq as [-> _]. rewrite Hlm2. by rewrite lookup_insert_eq.
  - rewrite (scheduler_slot_override P h2 (VRef l) lm url host
               (<[SCHEDULER_SLOT_META_KEY := VStr host]> m)); [done| |done|].
    + split; [done|]. by rewrite Hl2.
    + by rewrite lookup_insert_eq.
Qed.
End slot_stability.

Example request_without_override :
  let r := scheduler_slot sample_platform request_f sample_heap in
  r.1 = Return "bar.org"
  ∧ observed_slot r.2 request_f = VStr "bar.org"
  ∧ (scheduler_slot sample_platform request_f r.2).1 = Return "bar.org".
Proof. vm_compute. done. Qed.

(** C6 on a mapping that has no [meta] entry (and no slot override, then):
    the slot is the host of the target (unless [urlparse] raises on the
    target), but the write goes to the [dict()] that the call passed as
    the default of [meta], which the mapping does not hold; the mapping
    is as it was, and an observer reads no override from it. *)
Theorem C6_mapping_without_meta (P : platform) :
  let r := scheduler_slot P mapping_e sample_heap in
  r.1 = (if invalid_url P "http://foo.com/e"
         then Raise ValueError
         else Return (default "" (hostname P "http://foo.com/e")))
  ∧ r.2 !! 9%positive = sample_heap !! 9%positive
  ∧ observed_slot sample_heap mapping_e = VNone
  ∧ observed_slot r.2 mapping_e = VNone.
Proof.
  intros r. subst r. unfold mapping_e.
  rewrite (scheduler_slot_no_meta P sample_heap 9%positive
             {[ "url" := VStr "http://foo.com/e" ]} "http://foo.com/e")
    by (by vm_compute).
  destruct (invalid_url P "http://foo.com/e"); by vm_compute.
Qed.

(** ** The unique-path wrapper *)

Lemma append_cons (a : ascii) (s1 s2 : string) :
  String a s1 +:+ s2 = String a (s1 +:+ s2).
Proof. reflexivity. Qed.

Lemma append_assoc (s1 s2 s3 : string) : (s1 +:+ s2) +:+ s3 = s1 +:+ s2 +:+ s3.
Proof.
  induction s1 as [|a s1 IH]; [done|]. by rewrite !append_cons, IH.
Qed.

Lemma append_nil_r (s : string) : s +:+ "" = s.
Proof. induction s as [|a s IH]; [done|]. by rewrite append_cons, IH. Qed.

Lemma length_append (s1 s2 : string) :
  String.length (s1 +:+ s2) = String.length s1 + String.length s2.
Proof.
  induction s1 as [|a s1 IH]; [done|]. rewrite append_cons. simpl. by rewrite IH.
Qed.

Lemma longest_ge (fs : gset string) (p : string) :
  p ∈ fs → String.length p ≤ UniqueFilesQueue.longest fs.
Proof.
  unfold UniqueFilesQueue.longest. revert p.
  apply (set_fold_ind_L (fun n (X : gset string) => ∀ p, p ∈ X → String.length p ≤ n)).
  - intros p Hp. by apply not_elem_of_empty in Hp.
  - intros x X n Hx IH p [->%elem_of_singleton|Hp]%elem_of_union; [lia|].
    specialize (IH p Hp). lia.
Qed.

Section unique_path.
Variable uuid4_hex : nat → string.

Lemma suffixes_length (k n : nat) :
  n ≤ String.length (UniqueFilesQueue.suffixes uuid4_hex k n).
Proof.
  revert k. induction n as [|n IH]; intros k; [simpl; lia|].
  cbn [UniqueFilesQueue.suffixes]. rewrite !length_append.
  specialize (IH (S k)). simpl. lia.
Qed.

(** The loop ends, on a path that is not on disk, after it has appended
    some identifiers. *)
Lemma while_exists_spec (fs : gset string) (fuel : nat) :
  ∀ (k : nat) (path : string),
    UniqueFilesQueue.longest fs < fuel + String.length path →
    ∃ n, UniqueFilesQueue.while_exists uuid4_hex (S fuel) fs k path
         = Some (path +:+ UniqueFilesQueue.suffixes uuid4_hex k n, k + n)
         ∧ (path +:+ UniqueFilesQueue.suffixes uuid4_hex k n) ∉ fs.
Proof.
  induction fuel as [|fuel IH]; intros k path Hlen.
  - exists 0. simpl. rewrite append_nil_r, Nat.add_0_r.
    assert (path ∉ fs) as Hp.
    { intros Hin%longest_ge. lia. }
    by rewrite decide_False.
  - destruct (decide (path ∈ fs)) as [Hin|Hout].
    + destruct (IH (S k) (path +:+ "-" +:+ uuid4_hex k)) as (n & Hrun & Hfree).
      { rewrite !length_append. simpl. lia. }
      exists (S n). change (UniqueFilesQueue.while_exists uuid4_hex (S (S fuel)) fs k path)
        with (if decide (path ∈ fs)
              then UniqueFilesQueue.while_exists uuid4_hex (S fuel) fs (S k)
                     (path +:+ "-" +:+ uuid4_hex k)
              else Some (path, k)).
      rewrite decide_True by done. rewrite Hrun.
      cbn [UniqueFilesQueue.suffixes].
      rewrite !append_assoc in Hfree |- *.
      replace (k + S n) with (S k + n) by lia. done.
    + exists 0. cbn [UniqueFilesQueue.suffixes]. rewrite append_nil_r, Nat.add_0_r.
      change (UniqueFilesQueue.while_exists uuid4_hex (S (S fuel)) fs k path)
        with (if decide (path ∈ fs)
              then UniqueFilesQueue.while_exists uuid4_hex (S fuel) fs (S k)
                     (path +:+ "-" +:+ uuid4_hex k)
              else Some (path, k)).
      by rewrite decide_False.
Qed.

Lemma init_spec (base : string) (fs : gset string) (k : nat) :
  ∃ n path,
    path = base +:+ UniqueFilesQueue.suffixes uuid4_hex k (S n)
    ∧ UniqueFilesQueue.__init__ uuid4_hex base (fs, k)
      = Some (path, ({[path]} ∪ fs, k + S n))
    ∧ path ∉ fs.
Proof.
  destruct (while_exists_spec fs (UniqueFilesQueue.longest fs) (S k)
              (base +:+ "-" +:+ uuid4_hex k)) as (n & Hrun & Hfree).
  { rewrite !length_append. simpl. lia. }
  exists n, (base +:+ UniqueFilesQueue.suffixes uuid4_hex k (S n)).
  split; [done|]. cbn [UniqueFilesQueue.suffixes]. unfold UniqueFilesQueue.__init__.
  rewrite Hrun. rewrite !append_assoc in Hfree |- *.
  replace (k + S n) with (S k + n) by lia. done.
Qed.
End unique_path.

(** C9: for every base path, every set of paths on disk and every sequence
    of identifiers that [uuid4] may draw, the constructor ends and hands
    to the wrapped queue a path that is the base path followed by one or
    more suffixes "-" and identifier, strictly longer than the base path,
    and that is not on disk; a queue created later, while that path is on
    disk, gets another path. *)
Theorem C9_unique_path (uuid4_hex : nat → string) (base : string)
    (fs : gset string) (k : nat) :
  ∃ n path,
    UniqueFilesQueue.__init__ uuid4_hex base (fs, k)
    = Some (path, ({[path]} ∪ fs, k + S n))
    ∧ path = base +:+ UniqueFilesQueue.suffixes uuid4_hex k (S n)
    ∧ String.length base < String.length path
    ∧ (path ∉ fs)
    ∧ ∀ (uuid4_hex' : nat → string) (base' : string) (fs' : gset string) (k' : nat) r,
        (path ∈ fs') →
        UniqueFilesQueue.__init__ uuid4_hex' base' (fs', k') = Some r →
        r.1 ≠ path.
Proof.
  destruct (init_spec uuid4_hex base fs k) as (n & path & Hpath & Hinit & Hfree).
  exists n, path.
  split_and!; [done|done| |done|].
  - rewrite Hpath, length_append. pose proof (suffixes_length uuid4_hex k (S n)). lia.
  - intros uuid4_hex' base' fs' k' r Hin Hr.
    destruct (init_spec uuid4_hex' base' fs' k') as (n' & path' & _ & Hinit' & Hfree').
    rewrite Hinit' in Hr. injection Hr as <-. simpl.
    intros Heq. apply Hfree'. by rewrite Heq.
Qed.

(** Two queues over one base path, the second created when the file of
    the first exists, with identifiers that collide at first. *)
Example two_queues_one_base :
  let uuid := fun k : nat => if (k <? 3)%nat then "0" else if (k <? 5)%nat then "1" else "2" in
  let first := UniqueFilesQueue.__init__ uuid "q" (∅, 0) in
  fst <$> first = Some "q-0"
  ∧ fst <$> (first ≫= fun r => UniqueFilesQueue.__init__ uuid "q" r.2) = Some "q-0-0".
Proof. vm_compute. done. Qed.

(** ** The downloader-aware queue *)

Section downloader_aware.
Import DownloaderAwarePriorityQueue.

(** The slot selected has the fewest requests in flight, and is the
    first such in the rotation. *)
Lemma fewest_spec (self : t) (rotation : list string) :
  match fewest self rotation with
  | None => rotation = []
  | Some slot =>
      ∃ l1 l2, rotation = l1 ++ slot :: l2
               ∧ Forall (fun s => count self slot < count self s) l1
               ∧ Forall (fun s => count self slot ≤ count self s) l2
  end.
Proof.
  induction rotation as [|slot rest IH]; simpl; [done|].
  destruct (fewest self rest) as [slot'|].
  - destruct IH as (l1 & l2 & -> & H1 & H2).
    destruct (Nat.leb_spec (count self slot) (count self slot')) as [Hle|Hlt].
    + exists [], (l1 ++ slot' :: l2). split_and!; [done|constructor|].
      apply Forall_app. split.
      * eapply Forall_impl; [exact H1|]. simpl. lia.
      * constructor; [done|]. eapply Forall_impl; [exact H2|]. simpl. lia.
    + exists (slot :: l1), l2. split_and!; [done| |done]. by constructor.
  - subst rest. exists [], []. split_and!; [done|constructor|constructor].
Qed.

Lemma remove_slot_Permutation (slot : string) (rotation : list string) :
  slot ∈ rotation → Permutation (slot :: remove_slot slot rotation) rotation.
Proof.
  induction rotation as [|s rest IH]; simpl.
  - by intros ?%elem_of_nil.
  - case_decide as Hs; [by subst|].
    intros [->|Hin]%elem_of_cons; [done|].
    rewrite Permutation_swap. by constructor; apply IH.
Qed.

Lemma rr_wf_rotate (q : RoundRobinQueue.t) (rotation : list string) :
  rr_wf q → Permutation rotation (RoundRobinQueue._slots q) →
  rr_wf (RoundRobinQueue.mk rotation (RoundRobinQueue.pqueues q)).
Proof.
  intros [Hs Hk Hsame Hq] Hperm. split; simpl; [by rewrite Hperm|done| |done].
  intros s. by rewrite Hperm.
Qed.
End downloader_aware.

(** C10: on a well-formed downloader-aware queue, [pop] selects a slot
    of the rotation whose count of requests in flight (zero for a slot
    without a count) is the smallest, every slot before it in the
    rotation having a strictly greater count, and returns an entry of
    that slot; on an empty rotation it returns [None]; [push], [close] and
    the constructor do to the round-robin part what those of the
    round-robin queue do, and leave the counts alone. *)
Theorem C10_downloader_aware_selection (P : platform) (B : backend)
    (self : DownloaderAwarePriorityQueue.t) :
  rr_wf (DownloaderAwarePriorityQueue.rr self) →
  let count := DownloaderAwarePriorityQueue.count self in
  let q := DownloaderAwarePriorityQueue.rr self in
  match DownloaderAwarePriorityQueue.select self with
  | None =>
      RoundRobinQueue._slots q = []
      ∧ DownloaderAwarePriorityQueue.pop B self = (Return VNone, self)
  | Some slot =>
      (∃ l1 l2, RoundRobinQueue._slots q = l1 ++ slot :: l2
                ∧ Forall (fun s => count slot < count s) l1
                ∧ Forall (fun s => count slot ≤ count s) l2)
      ∧ ∃ request,
          (DownloaderAwarePriorityQueue.pop B self).1 = Return request
          ∧ entry_of q slot request
  end
  ∧ (∀ request priority h,
       let r := DownloaderAwarePriorityQueue.push P B request priority (h, self) in
       let r' := RoundRobinQueue.push P B request priority (h, q) in
       r.1 = r'.1 ∧ r.2.1 = r'.2.1
       ∧ DownloaderAwarePriorityQueue.rr r.2.2 = r'.2.2
       ∧ DownloaderAwarePriorityQueue.in_flight r.2.2
         = DownloaderAwarePriorityQueue.in_flight self)
  ∧ (let r := DownloaderAwarePriorityQueue.close self in
     let r' := RoundRobinQueue.close q in
     r.1 = r'.1 ∧ DownloaderAwarePriorityQueue.rr r.2 = r'.2)
  ∧ (∀ startprios,
       let r := DownloaderAwarePriorityQueue.__init__ B startprios self in
       let r' := RoundRobinQueue.__init__ B startprios q in
       r.1 = r'.1 ∧ DownloaderAwarePriorityQueue.rr r.2 = r'.2).
Proof.
  intros Hwf count q. split_and!.
  - pose proof (fewest_spec self (RoundRobinQueue._slots q)) as Hsel.
    unfold DownloaderAwarePriorityQueue.select. fold q.
    destruct (DownloaderAwarePriorityQueue.fewest self (RoundRobinQueue._slots q))
      as [slot|] eqn:Hf.
    + split; [done|]. destruct Hsel as (l1 & l2 & Hrot & _).
      unfold DownloaderAwarePriorityQueue.pop, DownloaderAwarePriorityQueue.select.
      fold q. rewrite Hf.
      set (q1 := RoundRobinQueue.mk
                   (slot :: DownloaderAwarePriorityQueue.remove_slot slot
                              (RoundRobinQueue._slots q))
                   (RoundRobinQueue.pqueues q)).
      assert (rr_wf q1) as Hwf1.
      { apply rr_wf_rotate; [done|]. apply remove_slot_Permutation.
        rewrite Hrot. set_solver. }
      destruct (rr_pop_spec B q1 slot _ Hwf1 eq_refl)
        as (pq & m & Hget & Hpq & Hne & Hm & Hpop).
      destruct (pq_pop_len B pq Hpq Hne) as (m' & Hm' & _ & level & c & Hin & Hmc).
      rewrite Hm in Hm'. injection Hm' as <-.
      exists m. rewrite Hpop. simpl. split; [done|]. by exists pq, level, c.
    + split; [done|].
      unfold DownloaderAwarePriorityQueue.pop, DownloaderAwarePriorityQueue.select.
      fold q. by rewrite Hf.
  - intros request priority h r r'. subst r r'.
    unfold DownloaderAwarePriorityQueue.push. simpl. fold q.
    by destruct (RoundRobinQueue.push P B request priority (h, q)) as [o [h' q']].
  - unfold DownloaderAwarePriorityQueue.close. fold q.
    by destruct (RoundRobinQueue.close q) as [o q'].
  - intros startprios r r'. subst r r'.
    unfold DownloaderAwarePriorityQueue.__init__. fold q.
    by destruct (RoundRobinQueue.__init__ B startprios q) as [o q'].
Qed.

Lemma sample_aware_wf : rr_wf (DownloaderAwarePriorityQueue.rr sample_aware).
Proof.
  split; simpl.
  - repeat (constructor; [set_solver|]). constructor.
  - repeat (constructor; [set_solver|]). constructor.
  - intros slot. set_solver.
  - repeat constructor; simpl; try done; set_solver.
Qed.

Lemma C10_witness :
  rr_wf (DownloaderAwarePriorityQueue.rr sample_aware)
  ∧ DownloaderAwarePriorityQueue.select sample_aware = Some "b"
  ∧ ∃ request,
      (DownloaderAwarePriorityQueue.pop (memory_backend true) sample_aware).1
      = Return request
      ∧ entry_of (DownloaderAwarePriorityQueue.rr sample_aware) "b" request.
Proof.
  split; [exact sample_aware_wf|]. split; [reflexivity|].
  pose proof (C10_downloader_aware_selection sample_platform (memory_backend true)
                sample_aware sample_aware_wf) as [H _].
  change (DownloaderAwarePriorityQueue.select sample_aware) with (Some "b") in H.
  exact (proj2 H).
Defined.

(** ** Slot paths *)

Lemma string_forallb_append (f : ascii → bool) (s1 s2 : string) :
  string_forallb f (s1 +:+ s2) = string_forallb f s1 && string_forallb f s2.
Proof.
  induction s1 as [|c s1 IH]; [done|].
  rewrite append_cons. cbn [string_forallb]. by rewrite IH, andb_assoc.
Qed.

Lemma pathable_safe (slot : string) : string_forallb safe_char (pathable slot) = true.
Proof.
  induction slot as [|c s IH]; [done|]. cbn [pathable string_forallb].
  rewrite IH, andb_true_r. fold (safe_char c).
  destruct (safe_char c) eqn:Hc; [done|]. by vm_compute.
Qed.

Lemma pathable_length (slot : string) :
  String.length (pathable slot) = String.length slot.
Proof. induction slot as [|c s IH]; [done|]. cbn [pathable String.length]. by rewrite IH. Qed.

Lemma append_eq_same_length (s1 s2 t1 t2 : string) :
  String.length s1 = String.length s2 →
  s1 +:+ t1 = s2 +:+ t2 → s1 = s2 ∧ t1 = t2.
Proof.
  revert s2. induction s1 as [|c s1 IH]; intros [|c' s2] Hlen Heq; try done.
  rewrite !append_cons in Heq. injection Heq as -> Heq.
  destruct (IH s2) as [-> ->]; [by injection Hlen|done|done].
Qed.

(** X1: when the digest consists of characters that are alphanumeric or
    one of [-._] (a hexadecimal digest does), so does the whole slot path,
    whatever the slot key. *)
Theorem slot_path_safe_characters (P : platform) (slot : string) :
  string_forallb safe_char (md5_hexdigest P slot) = true →
  string_forallb safe_char (_slot_as_path P slot) = true.
Proof.
  intros Hd. unfold _slot_as_path.
  by rewrite !string_forallb_append, pathable_safe, Hd.
Qed.

Lemma slot_path_safe_characters_witness :
  string_forallb safe_char (md5_hexdigest sample_platform "foo.com:8080/~x") = true
  ∧ string_forallb safe_char (_slot_as_path sample_platform "foo.com:8080/~x") = true.
Proof.
  split; [by vm_compute|].
  apply (slot_path_safe_characters sample_platform "foo.com:8080/~x"). by vm_compute.
Defined.

(** X2: with digests of one length, two slot keys whose paths are equal
    have equal digests (and equal sanitized forms): keys that the
    replacement of characters makes collide still get different paths as
    soon as their digests differ. *)
Theorem slot_path_equal_digest (P : platform) (slot1 slot2 : string) :
  String.length (md5_hexdigest P slot1) = String.length (md5_hexdigest P slot2) →
  _slot_as_path P slot1 = _slot_as_path P slot2 →
  pathable slot1 = pathable slot2 ∧ md5_hexdigest P slot1 = md5_hexdigest P slot2.
Proof.
  intros Hlen Heq. unfold _slot_as_path in Heq.
  assert (String.length (pathable slot1) = String.length (pathable slot2)) as Hl.
  { apply (f_equal String.length) in Heq. rewrite !length_append in Heq. simpl in Heq. lia. }
  apply append_eq_same_length in Heq as [Hp Heq]; [|done].
  split; [done|]. by apply (append_eq_same_length "-" "-") in Heq as [_ ?].
Qed.

Lemma slot_path_equal_digest_witness :
  String.length (md5_hexdigest sample_platform "a/b")
  = String.length (md5_hexdigest sample_platform "a_b")
  ∧ _slot_as_path sample_platform "a/b" = _slot_as_path sample_platform "a_b"
  ∧ pathable "a/b" = pathable "a_b"
  ∧ md5_hexdigest sample_platform "a/b" = md5_hexdigest sample_platform "a_b".
Proof.
  split; [by vm_compute|]. split; [by vm_compute|].
  apply (slot_path_equal_digest sample_platform "a/b" "a_b"); by vm_compute.
Defined.

(** ** Slot resolution: what it reads and what it writes *)

(** X3: for a [Request] or a mapping whose metadata holds a slot override
    (a string), the slot is the override; the target is not parsed, and
    every object that was on the heap is left as it was. *)
Theorem slot_override_wins (P : platform) (h : heap) (request : value) (lm : loc)
    (url slot : string) (m : gmap string value) :
  has_meta h request lm url →
  h !! lm = Some (ODict m) →
  m !! SCHEDULER_SLOT_META_KEY = Some (VStr slot) →
  (scheduler_slot P request h).1 = Return slot
  ∧ ∀ l o, h !! l = Some o → (scheduler_slot P request h).2 !! l = Some o.
Proof.
  intros Hreq Hlm Hslot.
  rewrite (scheduler_slot_override P h request lm url slot m Hreq Hlm Hslot). simpl.
  split; [done|]. intros l o Hl. rewrite lookup_insert_ne; [done|].
  intros <-. apply (is_fresh (dom h)), elem_of_dom. eauto.
Qed.

Lemma slot_override_wins_witness :
  has_meta sample_heap request_a 2%positive "http://foo.com/a"
  ∧ sample_heap !! 2%positive = Some (slot_meta "a")
  ∧ (scheduler_slot sample_platform request_a sample_heap).1 = Return "a"
  ∧ ∀ l o, sample_heap !! l = Some o →
           (scheduler_slot sample_platform request_a sample_heap).2 !! l = Some o.
Proof.
  assert (has_meta sample_heap request_a 2%positive "http://foo.com/a") as Hreq
    by (by vm_compute).
  assert (sample_heap !! 2%positive = Some (slot_meta "a")) as Hlm by (by vm_compute).
  split; [exact Hreq|]. split; [exact Hlm|].
  apply (slot_override_wins sample_platform sample_heap request_a 2%positive
           "http://foo.com/a" "a" {[ SCHEDULER_SLOT_META_KEY := VStr "a" ]} Hreq Hlm).
  by vm_compute.
Defined.

(** X4: for a [Request] or a mapping that carries a metadata dictionary
    without an override (no key, or [None]), the target is parsed.  When
    [urlparse] accepts it, the slot is the host of the target, the empty
    string when the target has none; it is stored in the metadata, where
    an observer reads it, and a later resolution returns it again.  When
    [urlparse] raises on it, the resolution raises [ValueError] and the
    metadata is left as it was. *)
Theorem host_written_into_metadata (P : platform) (h : heap) (request : value)
    (lm : loc) (url : string) (m : gmap string value) :
  has_meta h request lm url →
  h !! lm = Some (ODict m) →
  default VNone (m !! SCHEDULER_SLOT_META_KEY) = VNone →
  let host := default "" (hostname P url) in
  let h' := (scheduler_slot P request h).2 in
  if invalid_url P url
  then (scheduler_slot P request h).1 = Raise ValueError
       ∧ h' !! lm = Some (ODict m)
  else (scheduler_slot P request h).1 = Return host
       ∧ h' !! lm = Some (ODict (<[SCHEDULER_SLOT_META_KEY := VStr host]> m))
       ∧ observed_slot h' request = VStr host
       ∧ (scheduler_slot P request h').1 = Return host.
Proof.
  intros Hreq Hlm Hnone host h'.
  destruct (invalid_url P url) eqn:Hvalid.
  - subst h'. pose proof (scheduler_slot_parses P h request lm url m Hreq Hlm Hnone) as H.
    cbv zeta in H. rewrite Hvalid in H. rewrite H. simpl. split; [done|].
    rewrite lookup_insert_ne; [done|].
    intros <-. apply (is_fresh (dom h)), elem_of_dom. eauto.
  - destruct (scheduler_slot_stable P h request lm url m Hreq Hlm Hnone Hvalid)
      as (H1 & H2 & H3).
    split_and!; [done| |done|done].
    subst h'.
    rewrite (scheduler_slot_writes_back P h request lm url m Hreq Hlm Hnone Hvalid).
    simpl. by rewrite lookup_insert_eq.
Qed.

Lemma host_written_into_metadata_witness :
  let h' := (scheduler_slot sample_platform request_f sample_heap).2 in
  let h2 := (scheduler_slot sample_platform (VRef 101%positive) sample_heap_bad_url).2 in
  (has_meta sample_heap request_f 12%positive "http://bar.org/f"
   ∧ sample_heap !! 12%positive = Some (ODict ∅)
   ∧ (scheduler_slot sample_platform request_f sample_heap).1 = Return "bar.org"
   ∧ h' !! 12%positive
     = Some (ODict (<[SCHEDULER_SLOT_META_KEY := VStr "bar.org"]> ∅))
   ∧ observed_slot h' request_f = VStr "bar.org"
   ∧ (scheduler_slot sample_platform request_f h').1 = Return "bar.org")
  ∧ (has_meta sample_heap_bad_url (VRef 101%positive) 102%positive "http://[::1"
     ∧ sample_heap_bad_url !! 102%positive = Some (ODict ∅)
     ∧ (scheduler_slot sample_platform (VRef 101%positive) sample_heap_bad_url).1
       = Raise ValueError
     ∧ h2 !! 102%positive = Some (ODict ∅)).
Proof.
  intros h' h2.
  assert (has_meta sample_heap request_f 12%positive "http://bar.org/f") as Hreq
    by (by vm_compute).
  assert (sample_heap !! 12%positive = Some (ODict ∅)) as Hlm by (by vm_compute).
  assert (has_meta sample_heap_bad_url (VRef 101%positive) 102%positive "http://[::1")
    as Hreq2 by (by vm_compute).
  assert (sample_heap_bad_url !! 102%positive = Some (ODict ∅)) as Hlm2
    by (by vm_compute).
  split.
  - split; [exact Hreq|]. split; [exact Hlm|].
    exact (host_written_into_metadata sample_platform sample_heap request_f 12%positive
             "http://bar.org/f" ∅ Hreq Hlm eq_refl).
  - split; [exact Hreq2|]. split; [exact Hlm2|].
    exact (host_written_into_metadata sample_platform sample_heap_bad_url
             (VRef 101%positive) 102%positive "http://[::1" ∅ Hreq2 Hlm2 eq_refl).
Defined.

(** The heap after a resolution: the new dictionary apart (the default
    of [meta]), it is the heap before, or the heap before with the slot
    written into one dictionary that held no override. *)
Lemma scheduler_slot_heap (P : platform) (h : heap) (request : value) :
  let h1 := <[fresh (dom h) := ODict ∅]> h in
  (scheduler_slot P request h).2 = h1
  ∨ ∃ lm d host,
      h1 !! lm = Some (ODict d)
      ∧ default VNone (d !! SCHEDULER_SLOT_META_KEY) = VNone
      ∧ scheduler_slot P request h
        = (Return host, <[lm := ODict (<[SCHEDULER_SLOT_META_KEY := VStr host]> d)]> h1).
Proof.
  intros h1. unfold scheduler_slot, bind, new_dict. fold h1.
  destruct (_get_from_request request "meta" (VRef (fresh (dom h))) h1)
    as [[meta|e] h2] eqn:Hmeta.
  2: { left. unfold _get_from_request in Hmeta.
       destruct request as [| | |lr]; try (by injection Hmeta as _ <-).
       destruct (h1 !! lr) as [[]|]; by injection Hmeta as _ <-. }
  assert (h2 = h1) as ->.
  { unfold _get_from_request in Hmeta.
    destruct request as [| | |lr]; try done.
    destruct (h1 !! lr) as [[]|]; by injection Hmeta as _ <-. }
  unfold dict_get_method.
  destruct meta as [| | |lm]; try by left.
  destruct (h1 !! lm) as [om|] eqn:Hlm; [|by left].
  destruct om as [d|r|cls]; try by left.
  destruct (match d !! SCHEDULER_SLOT_META_KEY with Some v => v | None => VNone end)
    as [|n|s|lv] eqn:Hkey; try by left.
  assert (default VNone (d !! SCHEDULER_SLOT_META_KEY) = VNone) as Hnone
    by (by destruct (d !! SCHEDULER_SLOT_META_KEY)).
  destruct (_get_from_request request "url" VNone h1) as [[url|e] h3] eqn:Hurl.
  2: { left. unfold _get_from_request in Hurl.
       destruct request as [| | |lr]; try done.
       destruct (h1 !! lr) as [[]|]; by injection Hurl as _ <-. }
  assert (h3 = h1) as ->.
  { unfold _get_from_request in Hurl.
    destruct request as [| | |lr]; try done.
    destruct (h1 !! lr) as [[]|]; by injection Hurl as _ <-. }
  unfold urlparse_hostname.
  destruct url as [|n|s|lu];
    [destruct (truthy h1 _); [by left|]
     |destruct (truthy h1 _); [by left|]
     |destruct (invalid_url P s); [by left|]
     |destruct (truthy h1 _); [by left|]];
    unfold dict_setitem; rewrite Hlm; simpl;
    right; by eexists lm, d, _.
Qed.

(** X5: whatever the request, and whether it returns or raises,
    [scheduler_slot] removes no object from the heap and changes at most
    one: either every object is as it was, or one dictionary without a
    slot override gets the key [download_slot] with a string and keeps
    its other keys, and every other object is as it was. *)
Theorem scheduler_slot_frame (P : platform) (h : heap) (request : value) :
  let h' := (scheduler_slot P request h).2 in
  (∀ l o, h !! l = Some o → h' !! l = Some o)
  ∨ ∃ lm d host,
      h !! lm = Some (ODict d)
      ∧ default VNone (d !! SCHEDULER_SLOT_META_KEY) = VNone
      ∧ h' !! lm = Some (ODict (<[SCHEDULER_SLOT_META_KEY := VStr host]> d))
      ∧ ∀ l o, l ≠ lm → h !! l = Some o → h' !! l = Some o.
Proof.
  intros h'. subst h'. set (h1 := <[fresh (dom h) := ODict ∅]> h).
  assert (∀ l o, h !! l = Some o → fresh (dom h) ≠ l) as Hfresh.
  { intros l o Hl <-. apply (is_fresh (dom h)), elem_of_dom. eauto. }
  assert (∀ l o, h !! l = Some o → h1 !! l = Some o) as Hh1.
  { intros l o Hl. unfold h1. rewrite lookup_insert_ne; [done|]. by eapply Hfresh. }
  destruct (scheduler_slot_heap P h request) as [->|(lm & d & host & Hlm & Hnone & ->)].
  - by left.
  - fold h1 in Hlm |- *. simpl. destruct (decide (fresh (dom h) = lm)) as [<-|Hne].
    + left. intros l o Hl. rewrite lookup_insert_ne; [by apply Hh1|]. by eapply Hfresh.
    + right. exists lm, d, host. split_and!.
      * unfold h1 in Hlm. by rewrite lookup_insert_ne in Hlm.
      * done.
      * by rewrite lookup_insert_eq.
      * intros l o Hl Ho. rewrite lookup_insert_ne by done. by apply Hh1.
Qed.

Lemma scheduler_slot_frame_witness :
  let h' := (scheduler_slot sample_platform request_f sample_heap).2 in
  sample_heap !! 11%positive = Some (request_object "http://bar.org/f" 12%positive)
  ∧ h' !! 11%positive = Some (request_object "http://bar.org/f" 12%positive).
Proof.
  intros h'.
  assert (sample_heap !! 11%positive
          = Some (request_object "http://bar.org/f" 12%positive)) as Hl
    by (by vm_compute).
  split; [exact Hl|].
  destruct (scheduler_slot_frame sample_platform sample_heap request_f)
    as [H|(lm & d & host & Hlm & _ & _ & H)].
  - by apply H.
  - apply H; [|done]. intros Heq. rewrite <-Heq in Hlm.
    assert (Some (request_object "http://bar.org/f" 12%positive) = Some (ODict d)) as Hc
      by (transitivity (sample_heap !! 11%positive); [symmetry; exact Hl|exact Hlm]).
    discriminate Hc.
Defined.

(** ** The queue in every reachable state *)


(** X7: a [push] whose request resolves to [slot] hands the request to
    the container of the level [(priority, slot path)] in the queue of
    [slot], and raises what the container raises.  When the container
    stores the request, [push] returns and leaves the request as the
    newest entry of that level, with the other levels of that queue as
    they were.  Either way the queues of the other slots are as they
    were. *)
Theorem push_stores_request (P : platform) (B : backend) (h h' : heap)
    (self : RoundRobinQueue.t) (request : value) (priority : Z) (slot : string) :
  scheduler_slot P request h = (Return slot, h') →
  let r := RoundRobinQueue.push P B request priority (h, self) in
  let level := (priority, _slot_as_path P slot) in
  r.1 = match refusal B slot level request self with
        | None => Return tt
        | Some e => Raise e
        end
  ∧ r.2.1 = h'
  ∧ (refusal B slot level request self = None →
     ∃ q c, dict_get (RoundRobinQueue.pqueues r.2.2) slot = Some q
            ∧ dict_get (PriorityQueue.queues q) level = Some c
            ∧ last c = Some request
            ∧ ∀ level', level' ≠ level →
                dict_get (PriorityQueue.queues q) level'
                = dict_get (RoundRobinQueue.pqueues self) slot
                    ≫= fun q0 => dict_get (PriorityQueue.queues q0) level')
  ∧ ∀ slot', slot' ≠ slot →
      dict_get (RoundRobinQueue.pqueues r.2.2) slot'
      = dict_get (RoundRobinQueue.pqueues self) slot'.
Proof.
  intros Hslot r level. subst r. rewrite rr_push_spec, Hslot. cbn [fst snd].
  split_and!; [done|done| |].
  - intros Hok. unfold pushed_at. cbn [RoundRobinQueue.pqueues].
    rewrite dict_get_set, decide_True by done.
    eexists _, _. split; [done|]. rewrite pq_push_spec by exact Hok. simpl.
    rewrite dict_get_set, decide_True by done. split; [done|].
    split; [by rewrite last_snoc|].
    intros level' Hne. rewrite dict_get_set, decide_False by done.
    by destruct (dict_get (RoundRobinQueue.pqueues self) slot).
  - intros slot' Hne. unfold pushed_at. simpl.
    by rewrite dict_get_set, decide_False.
Qed.

Lemma push_stores_request_witness :
  let r := RoundRobinQueue.push sample_platform (memory_backend true) request_b 3
             (sample_heap, sample_queue) in
  let level := (3%Z, _slot_as_path sample_platform "a") in
  (scheduler_slot sample_platform request_b sample_heap).1 = Return "a"
  ∧ r.1 = Return tt
  ∧ (∃ q c, dict_get (RoundRobinQueue.pqueues r.2.2) "a" = Some q
            ∧ dict_get (PriorityQueue.queues q) level = Some c
            ∧ last c = Some request_b
            ∧ ∀ level', level' ≠ level →
                dict_get (PriorityQueue.queues q) level'
                = dict_get (RoundRobinQueue.pqueues sample_queue) "a"
                    ≫= fun q0 => dict_get (PriorityQueue.queues q0) level')
  ∧ ∀ slot', slot' ≠ "a" →
      dict_get (RoundRobinQueue.pqueues r.2.2) slot'
      = dict_get (RoundRobinQueue.pqueues sample_queue) slot'.
Proof.
  intros r level. split; [by vm_compute|].
  pose proof (push_stores_request sample_platform (memory_backend true) sample_heap
                (scheduler_slot sample_platform request_b sample_heap).2
                sample_queue request_b 3 "a") as H.
  destruct H as (H1 & _ & H3 & H4); [by vm_compute|].
  split_and!; [exact H1|exact (H3 eq_refl)|exact H4].
Defined.

(** X8: on a well-formed queue, [pop] serves the queue of the slot at the
    rotation head at its lowest level (the level below every other level
    of that queue), and returns the oldest entry of the container of that
    level, or the newest when the containers are LIFO. *)
Theorem pop_serves_lowest_level (B : backend) (self : RoundRobinQueue.t)
    (slot : string) (rest : list string) :
  rr_wf self → RoundRobinQueue._slots self = slot :: rest →
  ∃ q level c m,
    dict_get (RoundRobinQueue.pqueues self) slot = Some q
    ∧ dict_get (PriorityQueue.queues q) level = Some c
    ∧ (∀ level', level' ∈ (PriorityQueue.queues q).*1 → level' ≠ level →
                 prio_ltb level level' = true)
    ∧ (RoundRobinQueue.pop B self).1 = Return m
    ∧ Some m = if lifo B then last c else head c.
Proof.
  intros Hwf Hslots.
  destruct (rr_pop_spec B self slot rest Hwf Hslots)
    as (q & m & Hget & Hq & Hne & Hm & Hpop).
  destruct (PriorityQueue.curprio q) as [level|] eqn:Hcur.
  2: { destruct Hq as [_ _ Hc]. rewrite Hcur in Hc. symmetry in Hc.
       apply py_min_None in Hc. by destruct (PriorityQueue.queues q). }
  destruct (pq_pop_spec B q level Hq Hcur) as (c & m' & c' & Hc & Hqpop & Hcne & Hpq).
  destruct (q_pop_nonempty (lifo B) c Hcne) as (m0 & c0 & Hqpop' & _ & _ & Hshape).
  rewrite Hqpop in Hqpop'. injection Hqpop' as <- <-.
  rewrite Hpq in Hm. injection Hm as <-.
  exists q, level, c, m'. split_and!; [done|done| |by rewrite Hpop|].
  - intros level' Hin Hdiff.
    pose proof Hq as [_ _ Hmin]. rewrite Hcur in Hmin. symmetry in Hmin.
    apply py_min_spec in Hmin as [_ Hleast].
    destruct (prio_ltb_total level level') as [|Hlt]; [done|done|].
    by rewrite (Hleast level' Hin) in Hlt.
  - destruct (lifo B); subst c; [by rewrite last_snoc|done].
Qed.

Lemma pop_serves_lowest_level_witness :
  rr_wf sample_queue
  ∧ RoundRobinQueue._slots sample_queue = ["a"; "b"]
  ∧ ∃ q level c m,
      dict_get (RoundRobinQueue.pqueues sample_queue) "a" = Some q
      ∧ dict_get (PriorityQueue.queues q) level = Some c
      ∧ (∀ level', level' ∈ (PriorityQueue.queues q).*1 → level' ≠ level →
                   prio_ltb level level' = true)
      ∧ (RoundRobinQueue.pop (memory_backend true) sample_queue).1 = Return m
      ∧ Some m = if lifo (memory_backend true) then last c else head c.
Proof.
  split; [exact sample_queue_wf|]. split; [reflexivity|].
  exact (pop_serves_lowest_level (memory_backend true) sample_queue "a" ["b"]
           sample_queue_wf eq_refl).
Defined.

(** Entries are requests: with containers that start empty, nothing but
    what [push] accepted is stored. *)
Lemma run_entries_not_none (P : platform) (B : backend) (ops : list op) :
  (∀ level, qfactory B level = []) →
  ∀ (h : heap) (self : RoundRobinQueue.t),
    rr_ok self → all_entries (fun r => r ≠ VNone) self →
    all_entries (fun r => r ≠ VNone) (run P B ops (h, self)).2.2.
Proof.
  intros fresh. induction ops as [|o ops IH]; intros h self Hok Hall; simpl; [done|].
  pose proof (step_ok P B o (h, self) Hok) as Hok'.
  assert (all_entries (fun r => r ≠ VNone) (step P B o (h, self)).2.2) as Hall'.
  { destruct o as [request priority| |].
    - rewrite step_push.
      destruct (scheduler_slot P request h) as [[slot|e] h'] eqn:Hslot; simpl; [|done].
      apply pushed_at_entries; [done..|]. by eapply scheduler_slot_Return_ref.
    - simpl. destruct (RoundRobinQueue._slots self) as [|slot rest] eqn:Hslots.
      + by rewrite rr_pop_empty.
      + destruct (rr_pop_ok B self slot rest Hok Hslots)
          as (q & m & Hget & _ & _ & ->). simpl. by apply popped_to_all.
    - simpl. destruct (rr_close_spec self) as [sp ->]. simpl. constructor. }
  destruct (step P B o (h, self)) as [ev [h' self']]. simpl in *.
  specialize (IH h' self' Hok' Hall').
  by destruct (run P B ops (h', self')) as [evs w''].
Qed.



(** After a container raised: the slot "a" is at the rotation head with
    an empty queue, and [pop] returns [None] while the slot "b" holds a
    request. *)
Example pop_none_with_a_request_left :
  let B := picky_backend request_a in
  let self := (run sample_platform B [Push request_a 0; Push request_c 0]
                 (sample_heap, empty_queue)).2.2 in
  RoundRobinQueue._slots self = ["a"; "b"]
  ∧ (RoundRobinQueue.pop B self).1 = Return VNone
  ∧ RoundRobinQueue.__len__ self = 1.
Proof. by vm_compute. Qed.

(** ** No request is lost, none comes out twice *)

Lemma run_entries_balance (P : platform) (B : backend) (ops : list op) :
  (∀ level, qfactory B level = []) →
  Forall (fun o => o ≠ Close) ops →
  ∀ (h : heap) (self : RoundRobinQueue.t),
    rr_ok self → all_entries (fun r => r ≠ VNone) self →
    accepted ops (run P B ops (h, self)).1 ++ entries self
    ≡ₚ dispatched (run P B ops (h, self)).1 ++ entries (run P B ops (h, self)).2.2.
Proof.
  intros fresh. induction 1 as [|o ops Ho Hops IH]; intros h self Hok Hall; [done|].
  pose proof (step_ok P B o (h, self) Hok) as Hok'.
  pose proof (run_entries_not_none P B [o] fresh h self Hok Hall) as Hall'.
  cbn [run] in Hall' |- *.
  destruct o as [request priority| |]; [| |done].
  - rewrite step_push in *.
    destruct (scheduler_slot P request h) as [[slot|e] h'] eqn:Hslot; cbn [fst snd] in *.
    + specialize (IH h' _ Hok' Hall').
      pose proof (pushed_at_entries_cases B slot (priority, _slot_as_path P slot)
                    request self fresh) as Hperm.
      destruct (run P B ops (h', pushed_at B slot (priority, _slot_as_path P slot)
                                   request self)) as [evs w]. cbn [fst snd] in *.
      destruct (refusal B slot _ request self); cbn [accepted dispatched omap] in *.
      * by rewrite <-IH, Hperm.
      * rewrite <-IH, Hperm. simpl. by rewrite Permutation_middle.
    + specialize (IH h' self Hok Hall).
      by destruct (run P B ops (h', self)) as [evs w].
  - cbn [step fst snd] in *. destruct (RoundRobinQueue._slots self) as [|slot rest] eqn:Hslots.
    + rewrite rr_pop_empty in * by done. simpl in *. specialize (IH h self Hok Hall).
      rewrite ?Hslots. by destruct (run P B ops (h, self)) as [evs w].
    + destruct (rr_pop_ok B self slot rest Hok Hslots)
        as (q & m & Hget & Hq & Hm & Hpop).
      rewrite Hpop in *. cbn [fst snd head] in *. specialize (IH h _ Hok' Hall').
      destruct (pq_pop_ok B q Hq) as (m' & Hm' & _ & Htaken).
      rewrite Hm in Hm'. injection Hm' as <-.
      destruct (run P B ops (h, popped_to slot rest (PriorityQueue.pop B q).2 self))
        as [evs w]. cbn [fst snd] in *.
      destruct Htaken as [[Hin Hperm]|[-> Hperm]].
      * assert (m ≠ VNone) as Hnone
          by apply (all_entries_elem _ self slot q m Hall Hget Hin).
        rewrite (popped_to_entries self slot rest q _ [m] Hget Hperm).
        assert (dispatched (Popped (Some slot) m :: evs) = m :: dispatched evs) as ->
          by (by destruct m).
        cbn [accepted app]. rewrite <-IH.
        by rewrite Permutation_middle.
      * rewrite (popped_to_entries self slot rest q _ [] Hget Hperm).
        cbn [accepted]. by rewrite <-IH.
Qed.

(** X10: on a backend whose new containers are empty, after every
    interleaving of [push] and [pop] from the empty queue, the requests of
    the pushes that returned are, as a multiset, the requests that the
    pops returned together with the entries still in the queue: no request
    is lost and none is returned twice. *)
Theorem no_request_lost_or_duplicated (P : platform) (B : backend) (h : heap)
    (ops : list op) :
  (∀ level, qfactory B level = []) →
  Forall (fun o => o ≠ Close) ops →
  let r := run P B ops (h, empty_queue) in
  accepted ops r.1 ≡ₚ dispatched r.1 ++ entries r.2.2.
Proof.
  intros fresh Hops r.
  assert (all_entries (fun r => r ≠ VNone) empty_queue) as Hall by constructor.
  pose proof (run_entries_balance P B ops fresh Hops h empty_queue rr_ok_empty Hall) as H.
  by rewrite app_nil_r in H.
Qed.

Lemma no_request_lost_or_duplicated_witness :
  let ops := [Push request_a 0; Push request_c 5; Pop; Push spider 1;
              Push request_b (-1); Pop; Push request_a 2] in
  let r := run sample_platform (memory_backend true) ops (sample_heap, empty_queue) in
  (∀ level, qfactory (memory_backend true) level = [])
  ∧ Forall (fun o => o ≠ Close) ops
  ∧ accepted ops r.1 ≡ₚ dispatched r.1 ++ entries r.2.2.
Proof.
  intros ops r.
  assert (Forall (fun o => o ≠ Close) ops) as Hops by (repeat constructor; done).
  split; [reflexivity|]. split; [exact Hops|].
  exact (no_request_lost_or_duplicated sample_platform (memory_backend true) sample_heap
           ops (fun _ => eq_refl) Hops).
Defined.

(** ** Snapshots of any well-formed queue *)

Lemma snapshot_lookup (pqs : list (string * PriorityQueue.t)) (slot : string)
    (q : PriorityQueue.t) :
  dict_get pqs slot = Some q →
  dict_get (snapshot_item <$> pqs) slot
  = Some (DList (prio_data <$> PriorityQueue.active q)).
Proof.
  induction pqs as [|[s q0] pqs IH]; simpl; [done|].
  case_decide; [by intros [= ->]|done].
Qed.

(** X11: [close] on a well-formed queue returns a mapping with one item
    for each slot that has a queue, in the order of [pqueues]; the item of
    a slot lists all the levels of its queue, in the order in which the
    levels were created; and the queue is left empty. *)
Theorem close_snapshots_every_queue (self : RoundRobinQueue.t) :
  rr_wf self →
  ∃ items,
    RoundRobinQueue.close self = (Return (DDict items), empty_queue)
    ∧ items.*1 = (RoundRobinQueue.pqueues self).*1
    ∧ ∀ slot q, dict_get (RoundRobinQueue.pqueues self) slot = Some q →
        dict_get items slot = Some (DList (prio_data <$> (PriorityQueue.queues q).*1)).
Proof.
  intros [Hs Hk Hsame Hq].
  exists (snapshot_item <$> RoundRobinQueue.pqueues self). split_and!.
  - unfold RoundRobinQueue.close. by rewrite (close_loop_spec _ []).
  - rewrite <-!list_fmap_compose. by apply list_fmap_ext.
  - intros slot q Hget. rewrite (snapshot_lookup _ slot q Hget).
    unfold PriorityQueue.active. rewrite filter_nonempty_keys; [done|].
    apply dict_get_Some_elem in Hget. rewrite Forall_forall in Hq.
    by destruct (Hq _ Hget) as [[_ ? _] _].
Qed.

Lemma close_snapshots_every_queue_witness :
  rr_wf sample_queue
  ∧ ∃ items,
      RoundRobinQueue.close sample_queue = (Return (DDict items), empty_queue)
      ∧ items.*1 = (RoundRobinQueue.pqueues sample_queue).*1
      ∧ ∀ slot q, dict_get (RoundRobinQueue.pqueues sample_queue) slot = Some q →
          dict_get items slot = Some (DList (prio_data <$> (PriorityQueue.queues q).*1)).
Proof.
  split; [exact sample_queue_wf|].
  exact (close_snapshots_every_queue sample_queue sample_queue_wf).
Defined.

(** X12: reopening from the snapshot of any well-formed queue, with a
    factory that hands out the containers that were closed, restores the
    queue of every slot, hence the size; the rotation restarts in the
    order of [pqueues], whatever the rotation was at the time of
    [close]. *)
Theorem reopen_restarts_rotation (B' : backend) (self : RoundRobinQueue.t) :
  rr_wf self →
  (∀ level c, (level, c) ∈ RoundRobinQueue.stored self → qfactory B' level = c) →
  ∃ startprios reopened,
    RoundRobinQueue.close self = (Return startprios, empty_queue)
    ∧ RoundRobinQueue.new B' (via_json startprios) = Return reopened
    ∧ RoundRobinQueue.pqueues reopened = RoundRobinQueue.pqueues self
    ∧ RoundRobinQueue._slots reopened = (RoundRobinQueue.pqueues self).*1
    ∧ RoundRobinQueue.__len__ reopened = RoundRobinQueue.__len__ self.
Proof.
  intros Hwf Hqf.
  set (self' := RoundRobinQueue.mk (RoundRobinQueue.pqueues self).*1
                  (RoundRobinQueue.pqueues self)).
  assert (rr_wf self') as Hwf'.
  { apply (rr_wf_rotate self); [done|]. symmetry. destruct Hwf as [Hs Hk Hsame _].
    by apply NoDup_Permutation. }
  exists (DDict (snapshot_item <$> RoundRobinQueue.pqueues self)), self'.
  split_and!; [|  |done..].
  - unfold RoundRobinQueue.close. rewrite (close_loop_spec _ []); [done|].
    by destruct Hwf.
  - assert (via_json (DDict (snapshot_item <$> RoundRobinQueue.pqueues self))
            = DDict ((fun sq => (sq.1, via_json (snapshot_item sq).2))
                       <$> RoundRobinQueue.pqueues self)) as ->.
    { cbn [via_json]. f_equal. rewrite <-list_fmap_compose.
      apply list_fmap_ext. by intros i [slot q] _. }
    by apply (new_of_snapshot B' via_json self' tuples_via_json).
Qed.

Lemma reopen_restarts_rotation_witness :
  let self := (RoundRobinQueue.pop (memory_backend true) sample_queue).2 in
  let B' := disk_backend true (RoundRobinQueue.stored self) in
  rr_wf self
  ∧ (∀ level c, (level, c) ∈ RoundRobinQueue.stored self → qfactory B' level = c)
  ∧ RoundRobinQueue._slots self = ["b"; "a"]
  ∧ ∃ startprios reopened,
      RoundRobinQueue.close self = (Return startprios, empty_queue)
      ∧ RoundRobinQueue.new B' (via_json startprios) = Return reopened
      ∧ RoundRobinQueue.pqueues reopened = RoundRobinQueue.pqueues self
      ∧ RoundRobinQueue._slots reopened = ["a"; "b"]
      ∧ RoundRobinQueue.__len__ reopened = RoundRobinQueue.__len__ self.
Proof.
  intros self B'.
  assert (rr_wf self) as Hwf by (apply rr_pop_wf, sample_queue_wf).
  assert (∀ level c, (level, c) ∈ RoundRobinQueue.stored self → qfactory B' level = c)
    as Hqf.
  { intros level c Hin. vm_compute in Hin.
    repeat (apply elem_of_cons in Hin as [[= -> ->]|Hin]; [vm_compute; reflexivity|]).
    by apply elem_of_nil in Hin. }
  split; [exact Hwf|]. split; [exact Hqf|]. split; [reflexivity|].
  exact (reopen_restarts_rotation B' self Hwf Hqf).
Defined.

(** ** The unique path is the first free candidate *)

Section first_free_candidate.
Variable uuid4_hex : nat → string.

Lemma while_exists_tries (fs : gset string) (fuel : nat) :
  ∀ (k : nat) (path : string),
    UniqueFilesQueue.longest fs < fuel + String.length path →
    ∃ n, UniqueFilesQueue.while_exists uuid4_hex (S fuel) fs k path
         = Some (path +:+ UniqueFilesQueue.suffixes uuid4_hex k n, k + n)
         ∧ ∀ j, j < n → (path +:+ UniqueFilesQueue.suffixes uuid4_hex k j) ∈ fs.
Proof.
  induction fuel as [|fuel IH]; intros k path Hlen.
  - exists 0. simpl. rewrite append_nil_r, Nat.add_0_r.
    assert (path ∉ fs) as Hp.
    { intros Hin%longest_ge. lia. }
    rewrite decide_False by done. split; [done|]. intros j Hj. lia.
  - change (UniqueFilesQueue.while_exists uuid4_hex (S (S fuel)) fs k path)
      with (if decide (path ∈ fs)
            then UniqueFilesQueue.while_exists uuid4_hex (S fuel) fs (S k)
                   (path +:+ "-" +:+ uuid4_hex k)
            else Some (path, k)).
    destruct (decide (path ∈ fs)) as [Hin|Hout].
    + destruct (IH (S k) (path +:+ "-" +:+ uuid4_hex k)) as (n & Hrun & Htries).
      { rewrite !length_append. simpl. lia. }
      exists (S n). rewrite Hrun. cbn [UniqueFilesQueue.suffixes].
      rewrite ?append_assoc. replace (k + S n) with (S k + n) by lia.
      split; [done|]. intros [|j] Hj.
      * cbn [UniqueFilesQueue.suffixes]. by rewrite append_nil_r.
      * specialize (Htries j ltac:(lia)). cbn [UniqueFilesQueue.suffixes].
        by rewrite !append_assoc in Htries.
    + exists 0. cbn [UniqueFilesQueue.suffixes]. rewrite append_nil_r, Nat.add_0_r.
      split; [done|]. intros j Hj. lia.
Qed.
End first_free_candidate.

(** X13: the path that the constructor hands on is the first candidate
    that is not on disk: with [n + 1] identifiers appended, each of the
    candidates with 1, .., [n] identifiers exists on disk; in particular
    one identifier is appended when the first candidate is free.  The
    base path itself is never a candidate. *)
Theorem unique_path_first_free (uuid4_hex : nat → string) (base : string)
    (fs : gset string) (k : nat) :
  ∃ n,
    fst <$> UniqueFilesQueue.__init__ uuid4_hex base (fs, k)
    = Some (base +:+ UniqueFilesQueue.suffixes uuid4_hex k (S n))
    ∧ (∀ j, 1 ≤ j ≤ n → (base +:+ UniqueFilesQueue.suffixes uuid4_hex k j) ∈ fs)
    ∧ ((base +:+ "-" +:+ uuid4_hex k) ∉ fs → n = 0).
Proof.
  destruct (while_exists_tries uuid4_hex fs (UniqueFilesQueue.longest fs) (S k)
              (base +:+ "-" +:+ uuid4_hex k)) as (n & Hrun & Htries).
  { rewrite !length_append. simpl. lia. }
  exists n. split_and!.
  - unfold UniqueFilesQueue.__init__. rewrite Hrun. simpl.
    cbn [UniqueFilesQueue.suffixes]. by rewrite ?append_assoc.
  - intros [|j] [Hj1 Hj2]; [lia|]. specialize (Htries j ltac:(lia)).
    cbn [UniqueFilesQueue.suffixes]. by rewrite !append_assoc in Htries.
  - intros Hfree. destruct n as [|n]; [done|]. exfalso. apply Hfree.
    specialize (Htries 0 ltac:(lia)). cbn [UniqueFilesQueue.suffixes] in Htries.
    by rewrite append_nil_r in Htries.
Qed.

(** ** The constructor of the priority queue *)

Lemma foldl_dict_set_lookup {V : Type} (f : prio → V) (ps : list prio) :
  ∀ (acc : list (prio * V)) (level : prio),
    dict_get (foldl (fun qs p => dict_set qs p (f p)) acc ps) level
    = if decide (level ∈ ps) then Some (f level) else dict_get acc level.
Proof.
  induction ps as [|p ps IH]; intros acc level; cbn [foldl].
  - rewrite decide_False; [done|apply not_elem_of_nil].
  - rewrite IH. destruct (decide (level ∈ ps)) as [Hin|Hout].
    + rewrite decide_True; [done|by right].
    + rewrite dict_get_set. destruct (decide (p = level)) as [->|Hne].
      * rewrite decide_True; [done|left].
      * rewrite decide_False; [done|]. rewrite not_elem_of_cons. naive_solver.
Qed.

Lemma foldl_dict_set_NoDup {V : Type} (f : prio → V) (ps : list prio) :
  ∀ acc : list (prio * V),
    NoDup acc.*1 → NoDup (foldl (fun qs p => dict_set qs p (f p)) acc ps).*1.
Proof.
  induction ps as [|p ps IH]; intros acc Hacc; simpl; [done|].
  by apply IH, dict_set_NoDup.
Qed.

(** X14: given a list of priority keys, as tuples or as the lists that a
    JSON file gives back, the constructor builds a queue that has, for
    each key of the list and no other, one container, obtained from the
    factory for that key, with no level twice; [curprio] is [None] for an
    empty list and otherwise a key of the list that no key of the list is
    below. *)
Theorem startprios_give_one_container_each (B : backend) (ps : list prio) :
  ∃ q,
    PriorityAsTupleQueue.new B (DList (prio_data <$> ps)) = Return q
    ∧ PriorityAsTupleQueue.new B (via_json (DList (prio_data <$> ps))) = Return q
    ∧ NoDup (PriorityQueue.queues q).*1
    ∧ (∀ level, dict_get (PriorityQueue.queues q) level
                = if decide (level ∈ ps) then Some (qfactory B level) else None)
    ∧ match PriorityQueue.curprio q with
      | None => ps = []
      | Some c => c ∈ ps ∧ ∀ level, level ∈ ps → prio_ltb level c = false
      end.
Proof.
  eexists. unfold PriorityAsTupleQueue.new, PriorityAsTupleQueue.__init__.
  rewrite tuples_prio_data, tuples_via_json. split_and!; [done|done|..]; simpl.
  - apply foldl_dict_set_NoDup, NoDup_nil_2.
  - intros level. by rewrite foldl_dict_set_lookup.
  - destruct (py_min ps) as [c|] eqn:Hmin.
    + by apply py_min_spec.
    + by apply py_min_None.
Qed.

(** ** Equal priorities in one slot *)

Lemma one_level_queue_wf (slot : string) (level : prio) (c : list value) :
  rr_wf (one_level_queue slot level c).
Proof.
  destruct c as [|a c]; [apply rr_wf_empty|]. split; simpl.
  - apply NoDup_singleton.
  - apply NoDup_singleton.
  - done.
  - constructor; [|constructor]. simpl. split; [|done]. split; simpl.
    + apply NoDup_singleton.
    + by constructor.
    + done.
Qed.

Section one_level.
Variable P : platform.
Variable B : backend.

Lemma pushed_at_one_level slot level (c : list value) (r : value) :
  (∀ level, qfactory B level = []) →
  refusal B slot level r (one_level_queue slot level c) = None →
  pushed_at B slot level r (one_level_queue slot level c)
  = one_level_queue slot level (c ++ [r]).
Proof.
  intros fresh Hok. unfold pushed_at. destruct c as [|a c].
  - simpl. rewrite pq_push_spec by exact Hok. simpl. by rewrite fresh.
  - unfold refusal in Hok.
    cbn [one_level_queue RoundRobinQueue.pqueues dict_get] in Hok.
    rewrite decide_True in Hok by done. cbn [default] in Hok.
    cbn [one_level_queue RoundRobinQueue.pqueues RoundRobinQueue._slots dict_get app].
    rewrite decide_True by done. cbn [default dict_set]. rewrite decide_True by done.
    rewrite pq_push_spec by exact Hok. unfold id.
    cbn [PriorityQueue.queues PriorityQueue.curprio snd dict_get].
    rewrite decide_True by done. cbn [default dict_set]. rewrite decide_True by done.
    unfold min_step. by rewrite prio_ltb_irrefl.
Qed.

Lemma run_pushes_one_level slot priority (pushes : list (value * Z)) :
  (∀ level, qfactory B level = []) →
  Forall (fun rp => rp.2 = priority) pushes →
  ∀ (h : heap) (c0 : list value),
    Forall (fun ev => ev = Pushed slot)
      (run P B (push_ops pushes)
         (h, one_level_queue slot (priority, _slot_as_path P slot) c0)).1 →
    (run P B (push_ops pushes)
       (h, one_level_queue slot (priority, _slot_as_path P slot) c0)).2.2
    = one_level_queue slot (priority, _slot_as_path P slot) (c0 ++ pushes.*1).
Proof.
  intros fresh. induction 1 as [|[x p] pushes Hp Hps IH]; intros h c0 Hev.
  - simpl. by rewrite app_nil_r.
  - simpl in Hp. subst p.
    change (push_ops ((x, priority) :: pushes))
      with (Push x priority :: push_ops pushes) in *.
    cbn [run] in Hev |- *. rewrite step_push in Hev |- *.
    destruct (scheduler_slot P x h) as [[s|e] h'] eqn:Hs; simpl in Hev |- *.
    + destruct (run P B (push_ops pushes)
                  (h', pushed_at B s (priority, _slot_as_path P s) x
                         (one_level_queue slot (priority, _slot_as_path P slot) c0)))
        as [evs w] eqn:Hrun.
      simpl in Hev. apply Forall_cons in Hev as [Hev1 Hev].
      destruct (refusal B s _ x _) eqn:Hok; [done|]. injection Hev1 as ->.
      rewrite pushed_at_one_level in Hrun by done.
      specialize (IH h' (c0 ++ [x])). rewrite Hrun in IH. simpl in *.
      rewrite (IH Hev). by rewrite <-(assoc_L (++)).
    + destruct (run P B (push_ops pushes)
                  (h', one_level_queue slot (priority, _slot_as_path P slot) c0))
        as [evs w].
      simpl in Hev. by apply Forall_cons in Hev as [[=] _].
Qed.

Lemma pop_one_level slot level (c : list value) :
  c ≠ [] →
  RoundRobinQueue._slots (one_level_queue slot level c) = [slot]
  ∧ RoundRobinQueue.pop B (one_level_queue slot level c)
    = (Return (q_pop (lifo B) c).1, one_level_queue slot level (q_pop (lifo B) c).2).
Proof.
  intros Hne.
  pose proof (one_level_queue_wf slot level c) as Hwf.
  assert (one_level_queue slot level c
          = RoundRobinQueue.mk [slot]
              [(slot, PriorityQueue.mk [(level, c)] (Some level))]) as Hself
    by (by destruct c).
  rewrite Hself in Hwf |- *. clear Hself. split; [done|].
  set (Q := PriorityQueue.mk [(level, c)] (Some level)) in *.
  destruct (rr_pop_spec B _ slot [] Hwf eq_refl) as (q & m & Hget & Hq & _ & Hm & ->).
  simpl in Hget. rewrite decide_True in Hget by done. injection Hget as <-.
  destruct (pq_pop_spec B Q level Hq eq_refl) as (c0 & m' & c' & Hc & Hpop & _ & HQ).
  simpl in Hc. rewrite decide_True in Hc by done. injection Hc as <-.
  rewrite Hpop. rewrite HQ in Hm |- *. injection Hm as <-. simpl. f_equal.
  unfold popped_at.
  destruct (decide (level = level)) as [_|]; [|done].
  destruct c' as [|a c']; simpl; by destruct (decide (slot = slot)).
Qed.

Lemma pops_one_level (h : heap) slot level (n : nat) :
  ∀ c : list value, length c = n →
    popped_requests (run P B (repeat Pop n) (h, one_level_queue slot level c)).1
    = if lifo B then rev c else c.
Proof.
  induction n as [|n IH]; intros c Hlen.
  - apply nil_length_inv in Hlen as ->. by destruct (lifo B).
  - assert (c ≠ []) as Hne by (by intros ->).
    destruct (pop_one_level slot level c Hne) as [Hslots Hpop].
    destruct (q_pop_nonempty (lifo B) c Hne) as (m & c' & Hq & _ & Hl & Hshape).
    rewrite Hq in Hpop. simpl in Hpop.
    assert (length c' = n) as Hlen' by lia.
    specialize (IH c' Hlen'). simpl. rewrite Hpop, Hslots. simpl.
    destruct (run P B (repeat Pop n) (h, one_level_queue slot level c')) as [evs w].
    simpl in *. unfold popped_requests in *. simpl. rewrite IH.
    destruct (lifo B); subst c; [by rewrite rev_unit|done].
Qed.
End one_level.

(** X15: requests that all resolve one slot, pushed with one priority into
    the empty queue (on a backend whose new containers are empty), share
    one container, and popping until the queue is empty returns them in
    the order of the container: the order of the pushes for FIFO
    containers, the reverse for LIFO containers. *)
Theorem equal_priorities_pop_in_container_order (P : platform) (B : backend)
    (h : heap) (slot : string) (priority : Z) (requests : list value) :
  (∀ level, qfactory B level = []) →
  let r := run P B (push_ops ((fun x => (x, priority)) <$> requests))
             (h, empty_queue) in
  Forall (fun ev => ev = Pushed slot) r.1 →
  popped_requests (run P B (repeat Pop (length requests)) r.2).1
  = if lifo B then rev requests else requests.
Proof.
  intros fresh r Hev.
  assert (Forall (fun rp : value * Z => rp.2 = priority)
            ((fun x => (x, priority)) <$> requests)) as Hps.
  { apply Forall_fmap, Forall_true. done. }
  pose proof (run_pushes_one_level P B slot priority _ fresh Hps h [] Hev) as Hq.
  assert (((fun x => (x, priority)) <$> requests).*1 = requests) as Hfst
    by (rewrite <-list_fmap_compose; apply list_fmap_id).
  rewrite Hfst in Hq. change (r.2.2 = one_level_queue slot
    (priority, _slot_as_path P slot) requests) in Hq.
  clearbody r. destruct r as [evs [h' q]]. simpl in Hq. subst q.
  by apply pops_one_level.
Qed.

Lemma equal_priorities_pop_in_container_order_witness :
  let requests := [request_a; request_b; request_a] in
  let r := run sample_platform (memory_backend true)
             (push_ops ((fun x => (x, 7%Z)) <$> requests)) (sample_heap, empty_queue) in
  (∀ level, qfactory (memory_backend true) level = [])
  ∧ Forall (fun ev => ev = Pushed "a") r.1
  ∧ popped_requests
      (run sample_platform (memory_backend true) (repeat Pop (length requests)) r.2).1
    = [request_a; request_b; request_a].
Proof.
  intros requests r.
  assert (Forall (fun ev => ev = Pushed "a") r.1) as Hev
    by (vm_compute; repeat constructor).
  split; [reflexivity|]. split; [exact Hev|].
  exact (equal_priorities_pop_in_container_order sample_platform (memory_backend true)
           sample_heap "a" 7 requests (fun _ => eq_refl) Hev).
Defined.

(** ** A push that raises *)

(** What slot resolution raises: [ValueError] for a value that is neither
    a mapping nor a [Request] and for a target that [urlparse] rejects,
    [AttributeError] for metadata without [get] and for a target without
    [decode]. *)
Lemma scheduler_slot_raises (P : platform) (h h' : heap) (request : value) (e : exn) :
  scheduler_slot P request h = (Raise e, h') →
  e = ValueError ∨ request_kind h request = true ∧ e = AttributeError.
Proof.
  set (h1 := <[fresh (dom h) := ODict ∅]> h).
  assert (∀ l, is_Some (h !! l) → h1 !! l = h !! l) as Hsame.
  { intros l Hl. unfold h1. rewrite lookup_insert_ne; [done|].
    intros <-. by apply (is_fresh (dom h)), elem_of_dom. }
  unfold scheduler_slot, bind, new_dict. fold h1.
  unfold _get_from_request at 1.
  destruct request as [| | |lr]; try (intros [= <- _]; by left).
  cbn [request_kind].
  destruct (h !! lr) as [o|] eqn:Hlr.
  2: { destruct (h1 !! lr) as [[d|r|c]|] eqn:Hlr1.
       - unfold h1 in Hlr1. destruct (decide (fresh (dom h) = lr)) as [<-|Hne].
         + rewrite lookup_insert_eq in Hlr1. injection Hlr1 as <-. subst h1.
           rewrite lookup_empty.
           unfold dict_get_method, _get_from_request, urlparse_hostname, dict_setitem.
           repeat first [rewrite lookup_insert_eq | rewrite lookup_empty | progress simpl].
           done.
         + rewrite lookup_insert_ne, Hlr in Hlr1; done.
       - unfold h1 in Hlr1. destruct (decide (fresh (dom h) = lr)) as [<-|Hne].
         + by rewrite lookup_insert_eq in Hlr1.
         + rewrite lookup_insert_ne, Hlr in Hlr1; done.
       - intros [= <- _]; by left.
       - intros [= <- _]; by left. }
  rewrite (Hsame lr) by (rewrite Hlr; eauto). rewrite Hlr.
  assert (∀ key dflt, _get_from_request (VRef lr) key dflt h1
          = match o with
            | ODict d => (Return (default dflt (d !! key)), h1)
            | ORequest r => (Return (getattr r key dflt), h1)
            | _ => (Raise ValueError, h1)
            end) as Hget.
  { intros key dflt. unfold _get_from_request.
    rewrite (Hsame lr) by (rewrite Hlr; eauto). rewrite Hlr. by destruct o. }
  destruct o as [d|r|c]; [| |intros [= <- _]; by left].
  - unfold dict_get_method.
    destruct (match d !! "meta" with Some v => v | None => VRef (fresh (dom h)) end)
      as [| | |lm]; try (intros [= <- _]; by right).
    destruct (h1 !! lm) as [[dm|rm|cm]|] eqn:Hlm; try (intros [= <- _]; by right).
    destruct (match dm !! SCHEDULER_SLOT_META_KEY with Some v => v | None => VNone end)
      as [|n|s|lv]; try done.
    rewrite Hget. unfold urlparse_hostname, dict_setitem.
    destruct (default VNone (d !! "url")) as [|n|s|lu]; simpl; rewrite ?Hlm; try done.
    + destruct (negb (n =? 0)%Z); [intros [= <- _]; by right|by rewrite Hlm].
    + destruct (invalid_url P s); [intros [= <- _]; by left|by rewrite Hlm].
    + destruct (h1 !! lu) as [[du|ru|cu]|]; try (intros [= <- _]; by right).
      destruct (negb (bool_decide (du = ∅))); [intros [= <- _]; by right|by rewrite Hlm].
  - unfold dict_get_method. cbn [getattr String.eqb Ascii.eqb Bool.eqb].
    destruct (h1 !! req_meta r) as [[dm|rm|cm]|] eqn:Hlm;
      try (intros [= <- _]; by right).
    destruct (match dm !! SCHEDULER_SLOT_META_KEY with Some v => v | None => VNone end)
      as [|n|s|lv]; try done.
    rewrite Hget. unfold urlparse_hostname, dict_setitem.
    cbn [getattr String.eqb Ascii.eqb Bool.eqb]. simpl.
    destruct (invalid_url P (req_url r)); [intros [= <- _]; by left|by rewrite Hlm].
Qed.

(** X16: on a backend whose new containers are empty, a [push] that
    raises has stored no request: the entries and the size of the queue
    are what they were.  When the slot could not be resolved, the
    exception is [ValueError] or, for a mapping or a [Request] only,
    [AttributeError], and the queue is exactly what it was.  When the
    container of the request raised, the slot of the request has its
    queue and its place in the rotation all the same, at the tail when
    it had none, and the queues of the other slots are as they were. *)
Theorem failed_push_stores_nothing (P : platform) (B : backend) (h : heap)
    (self : RoundRobinQueue.t) (request : value) (priority : Z) (e : exn)
    (w : heap * RoundRobinQueue.t) :
  (∀ level, qfactory B level = []) →
  RoundRobinQueue.push P B request priority (h, self) = (Raise e, w) →
  entries w.2 ≡ₚ entries self
  ∧ RoundRobinQueue.__len__ w.2 = RoundRobinQueue.__len__ self
  ∧ match (scheduler_slot P request h).1 with
    | Raise e' =>
        e' = e ∧ w.2 = self
        ∧ (e = ValueError ∨ request_kind h request = true ∧ e = AttributeError)
    | Return slot =>
        refusal B slot (priority, _slot_as_path P slot) request self = Some e
        ∧ RoundRobinQueue._slots w.2
          = match dict_get (RoundRobinQueue.pqueues self) slot with
            | Some _ => RoundRobinQueue._slots self
            | None => RoundRobinQueue._slots self ++ [slot]
            end
        ∧ is_Some (dict_get (RoundRobinQueue.pqueues w.2) slot)
        ∧ ∀ slot', slot' ≠ slot →
            dict_get (RoundRobinQueue.pqueues w.2) slot'
            = dict_get (RoundRobinQueue.pqueues self) slot'
    end.
Proof.
  intros fresh. rewrite rr_push_spec.
  destruct (scheduler_slot P request h) as [[slot|e'] h'] eqn:Hslot; cbn [fst].
  - destruct (refusal B slot _ request self) as [e0|] eqn:Hno; [|done].
    intros [= -> <-]. cbn [snd].
    pose proof (pushed_at_entries_cases B slot (priority, _slot_as_path P slot)
                  request self fresh) as Hperm.
    rewrite Hno in Hperm. simpl in Hperm.
    split_and!; [done|by rewrite !rr_len_entries, Hperm|done|done| |].
    + unfold pushed_at. simpl. rewrite dict_get_set, decide_True by done. eauto.
    + intros slot' Hne. unfold pushed_at. simpl.
      by rewrite dict_get_set, decide_False.
  - intros [= -> <-]. split_and!; [done..|]. by eapply scheduler_slot_raises.
Qed.

Lemma failed_push_stores_nothing_witness :
  let B := picky_backend request_a in
  ∃ w,
    (∀ level, qfactory B level = [])
    ∧ RoundRobinQueue.push sample_platform B request_a 0 (sample_heap, empty_queue)
      = (Raise ValueError, w)
    ∧ entries w.2 ≡ₚ entries empty_queue
    ∧ RoundRobinQueue.__len__ w.2 = 0
    ∧ RoundRobinQueue._slots w.2 = ["a"].
Proof.
  intros B. eexists.
  assert (∀ level, qfactory B level = []) as fresh by done.
  split; [exact fresh|]. split; [by vm_compute|].
  pose proof (failed_push_stores_nothing sample_platform B sample_heap empty_queue
                request_a 0 ValueError _ fresh eq_refl) as (H1 & H2 & H3).
  split; [exact H1|]. split; [exact H2|].
  vm_compute in H3. by destruct H3 as (_ & H3 & _).
Defined.
